(** * WODCraft: the workout DSL toolchain of [wodc_merged.py]

    A shallow embedding of the AST builder ([ToAST]), the resolver
    ([_apply_catalog_and_resolve]), the renderer ([render_line]), the
    timeline synthesizer ([build_timeline]), the text normalizer
    ([_normalize_wod_text]) and the command driver ([main]), followed by
    the properties established about them.

    Conventions.
    - Python dictionaries with a fixed set of keys are records or
      constructors of an inductive type; a key that may be absent or hold
      [None] is an [option].
    - Python [int] is [Z]. Python [float] is not interpreted: the float
      operations the program uses are the fields of the class [PyFloat], and
      every definition and theorem is generic in it.
    - A raised exception is [None].
    - [str] values built from grammar tokens are [string] (one [ascii] per
      character); the text handled by the normalizer is a list of Unicode
      code points. *)

From Stdlib Require Import ZArith Ascii String List Lia Permutation.
From stdpp Require Import base option strings list gmap pretty.

Local Open Scope Z_scope.
Local Open Scope string_scope.
Local Open Scope list_scope.

(** ** Characters and strings, as Python's [str] methods see them *)

Definition ascii_code (c : ascii) : N := N_of_ascii c.

Definition in_range (lo hi c : ascii) : bool :=
  (ascii_code lo <=? ascii_code c)%N && (ascii_code c <=? ascii_code hi)%N.

Definition is_digit (c : ascii) : bool := in_range "0" "9" c.
Definition is_lower (c : ascii) : bool := in_range "a" "z" c.
Definition is_upper (c : ascii) : bool := in_range "A" "Z" c.
Definition is_alpha (c : ascii) : bool := is_lower c || is_upper c.
Definition is_ident_char (c : ascii) : bool :=
  is_alpha c || is_digit c || Ascii.eqb c "_".

(** [\w] of the regular expressions. *)
Definition is_word_char (c : ascii) : bool := is_ident_char c.

(** The characters [str.strip] and [str.rstrip] remove by default. *)
Definition py_space (c : ascii) : bool :=
  let n := ascii_code c in
  ((9 <=? n) && (n <=? 13) || (28 <=? n) && (n <=? 32)
   || (n =? 133) || (n =? 160))%N.

(** The terminal [WS] of the grammar: [/[ \t\f\r\n]/+]. *)
Definition lark_ws (c : ascii) : bool :=
  let n := ascii_code c in
  ((n =? 32) || (n =? 9) || (n =? 12) || (n =? 13) || (n =? 10))%N.

Definition LF : ascii := ascii_of_N 10.
Definition CR : ascii := ascii_of_N 13.
Definition BSLASH : ascii := ascii_of_N 92.

Fixpoint str_forallb (p : ascii -> bool) (s : string) : bool :=
  match s with
  | EmptyString => true
  | String c s' => p c && str_forallb p s'
  end.

Fixpoint str_existsb (p : ascii -> bool) (s : string) : bool :=
  match s with
  | EmptyString => false
  | String c s' => p c || str_existsb p s'
  end.

(** [s.lstrip()], [s.rstrip()] and [s.strip()]. *)
Fixpoint str_lstrip (s : string) : string :=
  match s with
  | String c s' => if py_space c then str_lstrip s' else s
  | EmptyString => EmptyString
  end.

Fixpoint str_rstrip (s : string) : string :=
  match s with
  | EmptyString => EmptyString
  | String c s' =>
      match str_rstrip s' with
      | EmptyString => if py_space c then EmptyString else String c EmptyString
      | r => String c r
      end
  end.

Definition str_strip (s : string) : string := str_rstrip (str_lstrip s).

(** [s.lower()] on ASCII letters. *)
Definition lower_char (c : ascii) : ascii :=
  if is_upper c then ascii_of_N (ascii_code c + 32) else c.

Fixpoint str_lower (s : string) : string :=
  match s with
  | EmptyString => EmptyString
  | String c s' => String (lower_char c) (str_lower s')
  end.

(** [s.split(sep)] for a one-character separator: never empty. *)
Fixpoint str_split (sep : ascii) (s : string) : list string :=
  match s with
  | EmptyString => [EmptyString]
  | String c s' =>
      if Ascii.eqb c sep then EmptyString :: str_split sep s'
      else match str_split sep s' with
           | p :: ps => String c p :: ps
           | [] => [String c EmptyString]
           end
  end.

(** [sep.join(parts)]. *)
Fixpoint str_join (sep : string) (parts : list string) : string :=
  match parts with
  | [] => EmptyString
  | [p] => p
  | p :: ps => p +:+ sep +:+ str_join sep ps
  end.

Fixpoint str_drop (n : nat) (s : string) : string :=
  match n, s with
  | O, _ => s
  | S n', String _ s' => str_drop n' s'
  | S _, EmptyString => EmptyString
  end.

Fixpoint str_take (n : nat) (s : string) : string :=
  match n, s with
  | O, _ => EmptyString
  | S n', String c s' => String c (str_take n' s')
  | S _, EmptyString => EmptyString
  end.

(** [s.replace(old, "")] for a non-empty [old]: occurrences are removed
    left to right, without overlap. *)
Fixpoint str_remove_fuel (fuel : nat) (old s : string) : string :=
  match fuel with
  | O => s
  | S fuel' =>
      match s with
      | EmptyString => EmptyString
      | String c s' =>
          if String.prefix old s
          then str_remove_fuel fuel' old (str_drop (String.length old) s)
          else String c (str_remove_fuel fuel' old s')
      end
  end.

Definition str_remove (old s : string) : string :=
  str_remove_fuel (String.length s) old s.

(** ** Integers as decimal text *)

Definition digit_val (c : ascii) : Z := Z.of_N (ascii_code c) - 48.

Fixpoint digits_val (s : string) (acc : Z) : Z :=
  match s with
  | EmptyString => acc
  | String c s' => digits_val s' (acc * 10 + digit_val c)
  end.

(** [int(s)] on the strings the grammar's tokens carry: a non-empty run of
    decimal digits. Any other string is [ValueError]. *)
Definition py_int_of_str (s : string) : option Z :=
  match s with
  | EmptyString => None
  | _ => if str_forallb is_digit s then Some (digits_val s 0) else None
  end.

(** [str(n)] and [f"{n}"] for an [int]. *)
Definition py_str_of_int (n : Z) : string := pretty n.

(** [f"{n:02d}"]: at least two characters, zero filled after the sign. *)
Definition fmt_02d (n : Z) : string :=
  if ((0 <=? n)%Z && (n <? 10)%Z)%bool then "0" +:+ pretty n else pretty n.

(** ** Regular expressions of the [re.match] calls

    The patterns of the program use literal characters, [.], [\d],
    repetition [+] of one character, optional non-capturing groups,
    alternation, capturing groups and [$]. [re_run r s] lists, in
    backtracking order, every way [r] matches a prefix of [s]: the text
    left over and the captured groups. [re.match] takes the first. *)

Inductive re : Type :=
  | Chr (c : ascii)
  | Dot
  | Cls (p : ascii -> bool)
  | Plus (p : ascii -> bool)
  | Star (p : ascii -> bool)
  | Seq (r1 r2 : re)
  | Alt (r1 r2 : re)
  | Opt (r : re)
  | Group (r : re)
  | Eps
  | Eol.

(** The texts left after a greedy run of [p]-characters, longest run first. *)
Fixpoint class_rests (p : ascii -> bool) (s : string) : list string :=
  match s with
  | String c s' => if p c then class_rests p s' ++ [s] else [s]
  | EmptyString => [EmptyString]
  end.

Fixpoint re_run (r : re) (s : string) : list (string * list string) :=
  match r with
  | Chr c =>
      match s with
      | String x s' => if Ascii.eqb x c then [(s', [])] else []
      | EmptyString => []
      end
  | Dot =>
      match s with
      | String x s' => if Ascii.eqb x LF then [] else [(s', [])]
      | EmptyString => []
      end
  | Cls p =>
      match s with
      | String x s' => if p x then [(s', [])] else []
      | EmptyString => []
      end
  | Plus p =>
      match s with
      | String x s' =>
          if p x then map (fun r => (r, [])) (class_rests p s') else []
      | EmptyString => []
      end
  | Star p => map (fun r => (r, [])) (class_rests p s)
  | Seq r1 r2 =>
      flat_map (fun '(rest1, g1) =>
                  map (fun '(rest2, g2) => (rest2, g1 ++ g2)) (re_run r2 rest1))
               (re_run r1 s)
  | Alt r1 r2 => re_run r1 s ++ re_run r2 s
  | Opt r1 => re_run r1 s ++ [(s, [])]
  | Group r1 =>
      map (fun '(rest, g) =>
             (rest, str_take (String.length s - String.length rest) s :: g))
          (re_run r1 s)
  | Eps => [(s, [])]
  | Eol =>
      match s with
      | EmptyString => [(s, [])]
      | String x EmptyString => if Ascii.eqb x LF then [(s, [])] else []
      | _ => []
      end
  end.

(** [re.match(r, s)]: the groups of the first match, if any. *)
Definition re_match (r : re) (s : string) : option (list string) :=
  match re_run r s with
  | (_, g) :: _ => Some g
  | [] => None
  end.

(** The whole of [s] is one match of [r] (how a terminal of the grammar
    recognizes a token). *)
Definition re_full (r : re) (s : string) : bool :=
  existsb (fun '(rest, _) => String.eqb rest EmptyString) (re_run r s).

Fixpoint re_lit (s : string) : re :=
  match s with
  | EmptyString => Eps
  | String c EmptyString => Chr c
  | String c s' => Seq (Chr c) (re_lit s')
  end.

Fixpoint re_alts (rs : list re) : re :=
  match rs with
  | [] => Cls (fun _ => false)
  | [r] => r
  | r :: rs' => Alt r (re_alts rs')
  end.

Fixpoint re_seq (rs : list re) : re :=
  match rs with
  | [] => Eps
  | [r] => r
  | r :: rs' => Seq r (re_seq rs')
  end.

Definition is_d (c : ascii) : bool := Ascii.eqb c "d".

(** [\d+(?:\.\d+)?]: a decimal number. *)
Definition RE_NUM : re :=
  Seq (Plus is_digit) (Opt (Seq (Chr ".") (Plus is_digit))).

(** [\\d+(?:\\.\\d+)?] as it stands in a raw string literal: a backslash,
    letters [d], and optionally a backslash, any character, a backslash and
    letters [d]. *)
Definition RE_BSLASH_NUM : re :=
  re_seq [Chr BSLASH; Plus is_d;
          Opt (re_seq [Chr BSLASH; Dot; Chr BSLASH; Plus is_d])].

Definition RE_LOAD_UNIT : re :=
  re_alts [re_lit "kg"; re_lit "lb"; re_lit "cm"; re_lit "in";
           re_lit "m"; re_lit "km"; re_lit "%"].

(** ** The float operations of the Python runtime

    [float(n)] and [int(x)] are total here: the [OverflowError] of an
    [int] beyond the range of a double, or of a float that is not finite,
    is outside the model. *)

Class PyFloat : Type := {
  float : Type;
  (** [float(s)] for a string; [None] is [ValueError]. *)
  float_of_str : string -> option float;
  (** [float(n)] for an [int]. *)
  float_of_int : Z -> float;
  (** [int(x)]: truncation toward zero. *)
  float_trunc : float -> Z;
  float_add : float -> float -> float;
  float_mul : float -> float -> float;
  (** [x == 0]. *)
  float_is_zero : float -> bool;
  (** [f"{x}"], that is [repr(x)]. *)
  float_repr : float -> string;
  (** The value of a decimal literal of the program text:
      [float_lit m k] is the literal with digits [m] and [k] digits after
      the point, as [float_lit 18 1] for [1.8]. *)
  float_lit : Z -> nat -> float
}.

(** ** The data model: the dictionaries of the AST *)

Section Model.
Context {rt : PyFloat}.

(** A number that is an [int] or a [float]. *)
Inductive num : Type :=
  | NInt (z : Z)
  | NFloat (x : float).

(** [float(v)], [int(v)] and [v == 0]. *)
Definition num_float (v : num) : float :=
  match v with NInt z => float_of_int z | NFloat x => x end.
Definition num_int (v : num) : Z :=
  match v with NInt z => z | NFloat x => float_trunc x end.
Definition num_is_zero (v : num) : bool :=
  match v with NInt z => (z =? 0)%Z | NFloat x => float_is_zero x end.

(** [v * k] for an [int] k. *)
Definition float_mul_int (x : float) (k : Z) : float :=
  float_mul x (float_of_int k).

(** The [qty] dictionary, by its ['kind']. A distance always carries
    ['unit': 'm']. *)
Inductive qty : Type :=
  | QDualReps (a b : Z)
  | QDualCal (a b : float)
  | QDualDistance (a b : num)
  | QReps (value : Z)
  | QCal (value : float)
  | QDistance (value : num)
  | QTime (value : Z).

Definition qty_kind (q : qty) : string :=
  match q with
  | QDualReps _ _ => "dual_reps"
  | QDualCal _ _ => "dual_cal"
  | QDualDistance _ _ => "dual_distance"
  | QReps _ => "reps"
  | QCal _ => "cal"
  | QDistance _ => "distance"
  | QTime _ => "time"
  end.

Definition qty_unit (q : qty) : option string :=
  match q with
  | QDualDistance _ _ | QDistance _ => Some "m"
  | _ => None
  end.

(** The structured loads [mk] builds, and the [load] dictionary. The two
    branches of a dual load are built by [mk]. *)
Inductive sload : Type :=
  | SWeight (value : float) (unit : string)
  | SHeight (value : float) (unit : string)
  | SDistance (value : float)
  | SPercentRaw (value : float).

Inductive load : Type :=
  | LSimple (s : sload)
  | LDual (a b : sload)
  | LRaw (value : string).

Definition sload_kind (s : sload) : string :=
  match s with
  | SWeight _ _ => "weight"
  | SHeight _ _ => "height"
  | SDistance _ => "distance"
  | SPercentRaw _ => "percent_raw"
  end.

Definition load_kind (l : load) : string :=
  match l with
  | LSimple s => sload_kind s
  | LDual _ _ => "dual"
  | LRaw _ => "raw"
  end.

Definition sload_unit (s : sload) : option string :=
  match s with
  | SWeight _ u | SHeight _ u => Some u
  | SDistance _ => Some "m"
  | SPercentRaw _ => None
  end.

(** [{"type":"LINE","qty":..,"movement":..,"load":..,"flags":..}] *)
Record line : Type := Line {
  ln_qty : option qty;
  ln_movement : string;
  ln_load : option load;
  ln_flags : list string
}.

(** A statement: a ["LINE"], or an ["EMOM_LINE"] with its slot and inner
    line. [EMOM_LINE]'s last field tells whether the dictionary also
    carries the entries ['qty': None] and ['load': None], which a
    resolver pass over a BUYIN or CASHOUT adds to it. *)
Inductive stmt : Type :=
  | LINE (ln : line)
  | EMOM_LINE (slot : Z) (ln : line) (qty_load_none : bool).

Inductive bhead : Type :=
  | AMRAP (duration : Z)
  | EMOM (duration : Z)
  | FT
  | RFT (rounds : Z)
  | CHIPPER
  | TABATA (work rest sets : Z)
  | INTERVAL (sets work rest : Z).

Definition head_mode (h : bhead) : string :=
  match h with
  | AMRAP _ => "AMRAP"
  | EMOM _ => "EMOM"
  | FT => "FT"
  | RFT _ => "RFT"
  | CHIPPER => "CHIPPER"
  | TABATA _ _ _ => "TABATA"
  | INTERVAL _ _ _ => "INTERVAL"
  end.

Inductive workmode : Type :=
  | split_any | split_even | ygig | relay
  | waterfall (offset : Z)
  | synchro_all
  | synchro_lines (lines : list Z).

Inductive partition : Type :=
  | part_any_mode | part_even_mode
  | part_scheme_mode (scheme : string).

Inductive tiebreak : Type :=
  | after_thrusters (count : Z)
  | after_reps (count : Z)
  | after_cal (count : Z)
  | after_movement (movement : string).

Record block : Type := Block {
  b_head : bhead;
  b_stmts : list stmt;
  b_work : option workmode;
  b_partition : option partition;
  b_cap : option Z;
  b_tiebreak : option tiebreak
}.

Inductive segment : Type :=
  | BUYIN (stmts : list stmt)
  | CASHOUT (stmts : list stmt)
  | REST (duration : Z)
  | BLOCK (b : block)
  | TRACK_BLOCK.

(** An alias note [{'code':'W050','from':..,'to':..}]. *)
Record note : Type := Note { note_from : string; note_to : string }.

Record meta : Type := Meta {
  m_title : option string;
  m_team : option Z;
  m_cap : option Z;
  m_score : gmap string string;
  m_tracks_declared : list string;
  m_tracks : list string;
  m_normalized : option (list note)
}.

Record ast : Type := Ast { a_meta : meta; a_program : list segment }.

(** What the children of a parse-tree node are once the transformer has
    visited them: a token, a subtree of a rule that has no callback, or
    the dictionary or string a callback returned. *)
Inductive meta_item : Type :=
  | MTitle (v : string)
  | MTeam (size : Z)
  | MCap (v : Z)
  | MScore (v : gmap string string)
  | MTracksDecl (v : list string).

#[warnings="-register-all"]
Inductive node : Type :=
  | NTok (typ value : string)
  | NTree (data : string) (children : list node)
  | NStr (s : string)
  | NQty (q : qty)
  | NMv (v : string)
  | NLoad (l : load)
  | NWork (w : workmode)
  | NPart (p : partition)
  | NCap (v : Z)
  | NTiebreak (tb : tiebreak)
  | NMeta (m : meta_item)
  | NHead (h : bhead)
  | NStmt (s : stmt)
  | NSeg (s : segment).

End Model.

(** ** The AST builder: [time_from_tree] and the callbacks of [ToAST] *)

Section TimeFromTree.
Context {rt : PyFloat}.

(** [x.value if hasattr(x,'value') else str(x)] *)
Definition node_raw (x : node) : option string :=
  match x with
  | NTok _ v => Some v
  | NStr s => Some s
  | _ => None
  end.

(** [int(x)] for a token [x]. *)
Definition node_int (x : node) : option Z :=
  match x with
  | NTok _ v => py_int_of_str v
  | NStr s => py_int_of_str s
  | _ => None
  end.

Definition time_from_tree (t : node) : option Z :=
  match t with
  | NTree data children =>
      if String.eqb data "mmss" then
        a ← children !! 0%nat ≫= node_int;
        b ← children !! 1%nat ≫= node_int;
        Some (a * 60 + b)
      else if String.eqb data "only_m" then
        a ← children !! 0%nat ≫= node_int; Some (a * 60)
      else if String.eqb data "only_s" then
        children !! 0%nat ≫= node_int
      else None
  | _ => None
  end.

(** [time_from_tree] applied to the list of children of a callback. *)
Definition time_from_children (t : list node) : option Z :=
  t !! 0%nat ≫= time_from_tree.
End TimeFromTree.

Module ToAST.
Section Callbacks.
Context {rt : PyFloat}.

Definition unit_factor (unit : string) : Z :=
  if String.eqb unit "km" then 1000 else 1.

(** [raw.split('/')] unpacked into exactly two names. *)
Definition split2 (sep : ascii) (raw : string) : option (string * string) :=
  match str_split sep raw with
  | [a; b] => Some (a, b)
  | _ => None
  end.

Definition dual_reps (tok : list node) : option node :=
  raw ← tok !! 0%nat ≫= node_raw;
  '(a, b) ← split2 "/" raw;
  a' ← py_int_of_str a; b' ← py_int_of_str b;
  Some (NQty (QDualReps a' b')).

Definition dual_cal (tok : list node) : option node :=
  raw ← tok !! 0%nat ≫= node_raw;
  let raw := str_strip (str_remove "cal" raw) in
  '(a, b) ← split2 "/" raw;
  a' ← float_of_str a; b' ← float_of_str b;
  Some (NQty (QDualCal a' b')).

(** [^(\\d+(?:\\.\\d+)?)/(\\d+(?:\\.\\d+)?)(m|km)$] *)
Definition RE_dual_distance : re :=
  re_seq [Group RE_BSLASH_NUM; Chr "/"; Group RE_BSLASH_NUM;
          Group (Alt (re_lit "m") (re_lit "km")); Eol].

Definition dual_distance (tok : list node) : option node :=
  raw ← tok !! 0%nat ≫= node_raw;
  match re_match RE_dual_distance raw with
  | Some [a; b; unit] =>
      let to_m x := v ← float_of_str x;
                    Some (NFloat (float_mul_int v (unit_factor unit))) in
      a' ← to_m a; b' ← to_m b;
      Some (NQty (QDualDistance a' b'))
  | _ => Some (NQty (QDualDistance (NInt 0) (NInt 0)))
  end.

Definition reps (n : list node) : option node :=
  v ← n !! 0%nat ≫= node_int; Some (NQty (QReps v)).

Definition cal_qty (xs : list node) : option node :=
  raw ← xs !! 0%nat ≫= node_raw;
  v ← float_of_str raw; Some (NQty (QCal v)).

(** [^(\\d+(?:\\.\\d+)?)(m|km)\\b] *)
Definition RE_distance_qty : re :=
  re_seq [Group RE_BSLASH_NUM; Group (Alt (re_lit "m") (re_lit "km"));
          Chr BSLASH; Chr "b"].

Definition distance_qty (d : list node) : option node :=
  raw ← d !! 0%nat ≫= node_raw;
  match re_match RE_distance_qty raw with
  | Some [val; unit] =>
      v ← float_of_str val;
      let meters := float_mul_int v (unit_factor unit) in
      Some (NQty (QDistance (NFloat meters)))
  | _ => Some (NQty (QDistance (NInt 0)))
  end.

(** [^(\\d+)s$] *)
Definition RE_hold_time : re :=
  re_seq [Group (Seq (Chr BSLASH) (Plus is_d)); Chr "s"; Eol].

Definition hold_time (t : list node) : option node :=
  raw ← t !! 0%nat ≫= node_raw;
  if str_existsb (Ascii.eqb ":") raw then
    '(mm, ss) ← split2 ":" raw;
    mm' ← py_int_of_str mm; ss' ← py_int_of_str ss;
    Some (NQty (QTime (mm' * 60 + ss')))
  else
    match re_match RE_hold_time raw with
    | Some (g :: _) => v ← py_int_of_str g; Some (NQty (QTime v))
    | _ => Some (NQty (QTime 0))
    end.

Definition movement (parts : list node) : option node :=
  vals ← mapM node_raw parts;
  Some (NMv (str_join "_" vals)).

(** [^(\\d+(?:\\.\\d+)?)/(\\d+(?:\\.\\d+)?)(kg|lb|cm|in|m|km|%)$] and
    [^(\\d+(?:\\.\\d+)?)(kg|lb|cm|in|m|km|%)$] *)
Definition RE_load_dual : re :=
  re_seq [Group RE_BSLASH_NUM; Chr "/"; Group RE_BSLASH_NUM;
          Group RE_LOAD_UNIT; Eol].
Definition RE_load_single : re :=
  re_seq [Group RE_BSLASH_NUM; Group RE_LOAD_UNIT; Eol].

Definition unit_in (unit : string) (us : list string) : bool :=
  existsb (String.eqb unit) us.

(** The inner function [mk] of [load]; it is also the tail of [load]
    for a single value. The outer [None] is an exception, the inner one
    the value [None] of a function that falls off its end. *)
Definition mk (val unit : string) : option (option sload) :=
  if unit_in unit ["kg"; "lb"] then
    v ← float_of_str val; Some (Some (SWeight v unit))
  else if unit_in unit ["cm"; "in"] then
    v ← float_of_str val; Some (Some (SHeight v unit))
  else if unit_in unit ["m"; "km"] then
    v ← float_of_str val;
    Some (Some (SDistance (float_mul_int v (unit_factor unit))))
  else if String.eqb unit "%" then
    v ← float_of_str val; Some (Some (SPercentRaw v))
  else Some None.

Definition load (v : list node) : option node :=
  raw ← v !! 0%nat ≫= node_raw;
  match re_match RE_load_dual raw with
  | Some [a; b; unit] =>
      a' ← mk a unit; b' ← mk b unit;
      match a', b' with
      | Some a'', Some b'' => Some (NLoad (LDual a'' b''))
      | _, _ => None
      end
  | _ =>
      match re_match RE_load_single raw with
      | Some [val; unit] =>
          r ← mk val unit;
          match r with
          | Some s => Some (NLoad (LSimple s))
          | None => Some (NLoad (LRaw raw))
          end
      | _ => Some (NLoad (LRaw raw))
      end
  end.

Definition suff_sync (_ : list node) : option node := Some (NStr "SYNC").
Definition suff_shared (_ : list node) : option node := Some (NStr "@shared").
Definition suff_each (_ : list node) : option node := Some (NStr "@each").

(** The loop of [line]: the last [qty], [mv] and [load] children win and
    every child that is a [str] (a suffix, or a token) is a flag. *)
Fixpoint line_loop (xs : list node) (acc : line) : line :=
  match xs with
  | [] => acc
  | x :: xs' =>
      line_loop xs'
        match x with
        | NQty q => Line (Some q) (ln_movement acc) (ln_load acc) (ln_flags acc)
        | NMv v => Line (ln_qty acc) v (ln_load acc) (ln_flags acc)
        | NLoad l => Line (ln_qty acc) (ln_movement acc) (Some l) (ln_flags acc)
        | NStr s | NTok _ s =>
            Line (ln_qty acc) (ln_movement acc) (ln_load acc) (ln_flags acc ++ [s])
        | _ => acc
        end
  end.

(** [line]; the grammar always supplies a movement, so the [None] that
    [mv] starts with is rendered as the empty string. *)
Definition line (xs : list node) : option node :=
  Some (NStmt (LINE (line_loop xs (Line None "" None [])))).

Definition emom_stmt (xs : list node) : option node :=
  slot ← xs !! 0%nat ≫= node_int;
  match xs !! 1%nat with
  | Some (NStmt (LINE ln)) => Some (NStmt (EMOM_LINE slot ln false))
  | _ => None
  end.

Definition amrap_head (t : list node) : option node :=
  d ← time_from_children t; Some (NHead (AMRAP d)).
Definition emom_head (t : list node) : option node :=
  d ← time_from_children t; Some (NHead (EMOM d)).
Definition ft_head (_ : list node) : option node := Some (NHead FT).
Definition rft_head (n : list node) : option node :=
  r ← n !! 0%nat ≫= node_int; Some (NHead (RFT r)).
Definition chipper_head (_ : list node) : option node := Some (NHead CHIPPER).
Definition tabata_head (xs : list node) : option node :=
  w ← xs !! 0%nat ≫= time_from_tree;
  r ← xs !! 1%nat ≫= time_from_tree;
  s ← xs !! 2%nat ≫= node_int;
  Some (NHead (TABATA w r s)).
Definition interval_head (xs : list node) : option node :=
  s ← xs !! 0%nat ≫= node_int;
  w ← xs !! 1%nat ≫= time_from_tree;
  r ← xs !! 2%nat ≫= time_from_tree;
  Some (NHead (INTERVAL s w r)).
Definition block_head (xs : list node) : option node := xs !! 0%nat.

Definition tb_thrusters (xs : list node) : option node :=
  c ← xs !! 0%nat ≫= node_int; Some (NTiebreak (after_thrusters c)).
Definition tb_reps (xs : list node) : option node :=
  c ← xs !! 0%nat ≫= node_int; Some (NTiebreak (after_reps c)).
Definition tb_cal (xs : list node) : option node :=
  c ← xs !! 0%nat ≫= node_int; Some (NTiebreak (after_cal c)).
Definition tb_movement (xs : list node) : option node :=
  match xs !! 0%nat with
  | Some (NTok _ v) => Some (NTiebreak (after_movement v))
  | _ => None
  end.

Definition cap_local (t : list node) : option node :=
  d ← time_from_children t; Some (NCap d).

(** The loop of [block] over [xs[1:]]. A child that is a tree (as a
    [block_opt] subtree is, having no callback) matches no branch. *)
Fixpoint block_loop (xs : list node) (acc : block) : block :=
  match xs with
  | [] => acc
  | x :: xs' =>
      block_loop xs'
        match x with
        | NWork w =>
            Block (b_head acc) (b_stmts acc) (Some w) (b_partition acc)
                  (b_cap acc) (b_tiebreak acc)
        | NPart p =>
            Block (b_head acc) (b_stmts acc) (b_work acc) (Some p)
                  (b_cap acc) (b_tiebreak acc)
        | NCap c =>
            Block (b_head acc) (b_stmts acc) (b_work acc) (b_partition acc)
                  (if (c =? 0)%Z then None else Some c) (b_tiebreak acc)
        | NTiebreak tb =>
            Block (b_head acc) (b_stmts acc) (b_work acc) (b_partition acc)
                  (b_cap acc) (Some tb)
        | NStmt s =>
            Block (b_head acc) (b_stmts acc ++ [s]) (b_work acc)
                  (b_partition acc) (b_cap acc) (b_tiebreak acc)
        | _ => acc
        end
  end.

Definition block (xs : list node) : option node :=
  match xs with
  | NHead h :: rest =>
      Some (NSeg (BLOCK (block_loop rest (Block h [] None None None None))))
  | _ => None
  end.

Definition node_stmt (x : node) : option stmt :=
  match x with NStmt s => Some s | _ => None end.

Definition buyin (xs : list node) : option node :=
  ss ← mapM node_stmt xs; Some (NSeg (BUYIN ss)).
Definition cashout (xs : list node) : option node :=
  ss ← mapM node_stmt xs; Some (NSeg (CASHOUT ss)).
Definition rest (t : list node) : option node :=
  d ← time_from_children t; Some (NSeg (REST d)).
Definition track_block (_ : list node) : option node := Some (NSeg TRACK_BLOCK).

(** The loop of [start]: meta items update [meta], every other item is
    appended to the program. *)
Fixpoint start_loop (items : list node) (acc : ast) : option ast :=
  match items with
  | [] => Some acc
  | it :: items' =>
      let m := a_meta acc in
      match it with
      | NMeta mi =>
          start_loop items'
            (Ast match mi with
                 | MTitle v =>
                     Meta (Some v) (m_team m) (m_cap m) (m_score m)
                          (m_tracks_declared m) (m_tracks m) (m_normalized m)
                 | MTeam v =>
                     Meta (m_title m) (Some v) (m_cap m) (m_score m)
                          (m_tracks_declared m) (m_tracks m) (m_normalized m)
                 | MCap v =>
                     Meta (m_title m) (m_team m) (Some v) (m_score m)
                          (m_tracks_declared m) (m_tracks m) (m_normalized m)
                 | MScore v =>
                     Meta (m_title m) (m_team m) (m_cap m) (v ∪ m_score m)
                          (m_tracks_declared m) (m_tracks m) (m_normalized m)
                 | MTracksDecl v =>
                     Meta (m_title m) (m_team m) (m_cap m) (m_score m)
                          v (m_tracks m) (m_normalized m)
                 end
                 (a_program acc))
      | NSeg s => start_loop items' (Ast m (a_program acc ++ [s]))
      | _ => None
      end
  end.

Definition empty_meta : meta := Meta None None None ∅ [] [] None.

Definition start (items : list node) : option ast :=
  start_loop items (Ast empty_meta []).

(** The callbacks of the meta lines. *)
Definition title (s : list node) : option node :=
  raw ← s !! 0%nat ≫= node_raw;
  Some (NMeta (MTitle (str_take (String.length raw - 2) (str_drop 1 raw)))).
Definition team (xs : list node) : option node :=
  n ← xs !! 0%nat ≫= node_int; Some (NMeta (MTeam n)).
Definition cap_line (t : list node) : option node :=
  d ← time_from_children t; Some (NMeta (MCap d)).

(** [part.split('=', 1)] *)
Fixpoint split_once (sep : ascii) (s : string) : option (string * string) :=
  match s with
  | EmptyString => None
  | String c s' =>
      if Ascii.eqb c sep then Some (EmptyString, s')
      else '(k, v) ← split_once sep s'; Some (String c k, v)
  end.

Definition score_line (xs : list node) : option node :=
  raw ← xs !! 0%nat ≫= node_raw;
  Some (NMeta (MScore
    (foldl (fun out part =>
              match split_once "=" part with
              | Some (k, v) => <[str_strip k := str_strip v]> out
              | None => out
              end) ∅ (str_split "," raw)))).

Definition tracks_decl (xs : list node) : option node :=
  Some (NMeta (MTracksDecl
    (omap (fun x => match x with NTok _ v => Some v | _ => None end) xs))).

End Callbacks.
End ToAST.

(** ** The resolver: [_normalize_mv] and [_apply_catalog_and_resolve] *)

Definition MOVEMENT_ALIASES : list (string * string) :=
  [("wb", "wall_balls"); ("wallball", "wall_balls");
   ("bj", "box_jumps"); ("box_jump", "box_jumps");
   ("pu", "pullups"); ("pull_up", "pullups");
   ("rr", "ring_rows"); ("ring_row", "ring_rows");
   ("t2b", "toes_to_bar"); ("ttb", "toes_to_bar");
   ("du", "double_unders"); ("dus", "double_unders");
   ("double_under", "double_unders");
   ("row", "row"); ("run", "run"); ("bike", "bike"); ("echo_bike", "bike");
   ("assault_bike", "assault_bike");
   ("bbjo", "burpee_box_jump_over"); ("bjo", "burpee_box_jump_over");
   ("burpee_box_jumps", "burpee_box_jump_over");
   ("rc", "rope_climbs"); ("rope_climb", "rope_climbs");
   ("pc", "power_clean"); ("power_clean", "power_clean");
   ("clean", "clean"); ("cleans", "clean");
   ("sb_carry", "sandbag_carry"); ("sandbag_carry", "sandbag_carry");
   ("burpee", "burpees"); ("burpees", "burpees");
   ("hollow_hold", "hollow_hold")].

(** [d.get(k)] for a dictionary literal. *)
Fixpoint dict_get {A : Type} (d : list (string * A)) (k : string) : option A :=
  match d with
  | [] => None
  | (k', v) :: d' => if String.eqb k k' then Some v else dict_get d' k
  end.

Definition _normalize_mv (name : string) : string :=
  match dict_get MOVEMENT_ALIASES (str_lower name) with
  | Some v => v
  | None => name
  end.

Section Resolver.
Context {rt : PyFloat}.

(** A value under [movements[mv].load[track][gender]]: a string, a
    dictionary (taken to be a load), or anything else. *)
Inductive cat_load : Type :=
  | CLStr (s : string)
  | CLDict (l : load)
  | CLOther.

(** An entry of [catalog['movements']]: the four tables, each indexed by
    lower-case track, then gender. *)
Record move_entry : Type := MoveEntry {
  mv_reps : gmap string (gmap string num);
  mv_distance : gmap string (gmap string num);
  mv_cal : gmap string (gmap string num);
  mv_load : gmap string (gmap string cat_load)
}.

Record catalog_t : Type := Catalog { movements : gmap string move_entry }.

Definition empty_entry : move_entry := MoveEntry ∅ ∅ ∅ ∅.

(** [(move.get(f) or {}).get(tkey,{}).get(gender)] *)
Definition table_get {A : Type} (tbl : gmap string (gmap string A))
    (tkey gender : string) : option A :=
  tbl !! tkey ≫= fun g => g !! gender.

Variable catalog : option catalog_t.
Variable track : string.
Variable gender : string.

Definition is_male : bool := String.eqb gender "male".

Definition resolve_qty (q : option qty) : option qty :=
  match q with
  | None => None
  | Some (QDualReps a b) => Some (QReps (if is_male then a else b))
  | Some (QDualCal a b) => Some (QCal (if is_male then a else b))
  | Some (QDualDistance a b) => Some (QDistance (if is_male then a else b))
  | Some q' => Some q'
  end.

(** [^(\d+(?:\.\d+)?)/(\d+(?:\.\d+)?)(kg|lb|cm|in|m|km|%)$] *)
Definition RE_resolve_load : re :=
  re_seq [Group RE_NUM; Chr "/"; Group RE_NUM; Group RE_LOAD_UNIT; Eol].

(** [resolve_load]; the outer [None] is an exception. *)
Definition resolve_load (ld : option load) : option (option load) :=
  match ld with
  | None => Some None
  | Some (LDual a b) => Some (Some (LSimple (if is_male then a else b)))
  | Some (LRaw raw) =>
      match re_match RE_resolve_load raw with
      | Some [a; b; unit] =>
          let pick := if is_male then a else b in
          if ToAST.unit_in unit ["kg"; "lb"] then
            v ← float_of_str pick; Some (Some (LSimple (SWeight v unit)))
          else if ToAST.unit_in unit ["cm"; "in"] then
            v ← float_of_str pick; Some (Some (LSimple (SHeight v unit)))
          else if ToAST.unit_in unit ["m"; "km"] then
            v ← float_of_str pick;
            Some (Some (LSimple
              (SDistance (float_mul_int v (ToAST.unit_factor unit)))))
          else if String.eqb unit "%" then
            v ← float_of_str pick; Some (Some (LSimple (SPercentRaw v)))
          else Some ld
      | _ => Some ld
      end
  | Some _ => Some ld
  end.

(** [^(\\d+(?:\\.\\d+)?)(kg|lb|cm|in|m)$] *)
Definition RE_catalog_load : re :=
  re_seq [Group RE_BSLASH_NUM;
          Group (re_alts [re_lit "kg"; re_lit "lb"; re_lit "cm";
                          re_lit "in"; re_lit "m"]);
          Eol].

(** The quantity test of [apply_catalog_line]: no quantity, or a
    distance whose value is zero. *)
Definition qty_wants_default (q : option qty) : bool :=
  match q with
  | None => true
  | Some (QDistance v) => num_is_zero v
  | Some _ => false
  end.

Definition catalog_qty (move : move_entry) (tkey : string) (q : option qty)
    : option qty :=
  if qty_wants_default q then
    match table_get (mv_reps move) tkey gender with
    | Some v => Some (QReps (num_int v))
    | None =>
        match table_get (mv_distance move) tkey gender with
        | Some v => Some (QDistance (NFloat (num_float v)))
        | None =>
            match table_get (mv_cal move) tkey gender with
            | Some v => Some (QCal (num_float v))
            | None => q
            end
        end
    end
  else q.

(** The load part of [apply_catalog_line]; the outer [None] is an
    exception. *)
Definition catalog_load (move : move_entry) (tkey : string)
    (l : option load) : option (option load) :=
  match l with
  | Some _ => Some l
  | None =>
      match table_get (mv_load move) tkey gender with
      | Some (CLStr ld) =>
          match re_match RE_catalog_load ld with
          | Some [val; unit] =>
              if ToAST.unit_in unit ["kg"; "lb"] then
                v ← float_of_str val; Some (Some (LSimple (SWeight v unit)))
              else if ToAST.unit_in unit ["cm"; "in"] then
                v ← float_of_str val; Some (Some (LSimple (SHeight v unit)))
              else if String.eqb unit "m" then
                v ← float_of_str val; Some (Some (LSimple (SDistance v)))
              else Some l
          | _ => Some l
          end
      | Some (CLDict ld) => Some (Some ld)
      | _ => Some l
      end
  end.

(** [apply_catalog_line], on a line dictionary. *)
Definition apply_catalog_line (ln : line) : option line :=
  match catalog with
  | None => Some ln
  | Some cat =>
      let mv := ln_movement ln in
      let tkey := str_lower track in
      let move := default empty_entry (movements cat !! mv) in
      let q := catalog_qty move tkey (ln_qty ln) in
      l ← catalog_load move tkey (ln_load ln);
      Some (Line q mv l (ln_flags ln))
  end.

(** The body of the loop [for ln in it] on a line dictionary: the line
    it leaves and the notes it appends. *)
Definition resolve_line (ln : line) : option (line * list note) :=
  let mv := ln_movement ln in
  let norm := _normalize_mv mv in
  let renamed := negb (String.eqb mv "") && negb (String.eqb norm mv) in
  let mv' := if renamed then norm else mv in
  let notes := if renamed then [Note mv norm] else [] in
  let q := resolve_qty (ln_qty ln) in
  l ← resolve_load (ln_load ln);
  ln' ← apply_catalog_line (Line q mv' l (ln_flags ln));
  Some (ln', notes).

(** The same loop body on a statement. Of a BUYIN or CASHOUT the
    statement dictionary itself is visited: a ["LINE"] is resolved, an
    ["EMOM_LINE"] has no movement, quantity or load of its own and only
    gains the two [None] entries. Of a BLOCK the inner line of an
    ["EMOM_LINE"] is visited. *)
Definition resolve_stmt (in_block : bool) (st : stmt)
    : option (stmt * list note) :=
  match st with
  | LINE ln => '(ln', ns) ← resolve_line ln; Some (LINE ln', ns)
  | EMOM_LINE slot ln f =>
      if in_block then
        '(ln', ns) ← resolve_line ln; Some (EMOM_LINE slot ln' f, ns)
      else Some (EMOM_LINE slot ln true, [])
  end.

Fixpoint resolve_stmts (in_block : bool) (sts : list stmt)
    : option (list stmt * list note) :=
  match sts with
  | [] => Some ([], [])
  | st :: sts' =>
      '(st', n1) ← resolve_stmt in_block st;
      '(sts'', n2) ← resolve_stmts in_block sts';
      Some (st' :: sts'', n1 ++ n2)
  end.

Definition resolve_segment (seg : segment) : option (segment * list note) :=
  match seg with
  | BUYIN sts => '(sts', ns) ← resolve_stmts false sts; Some (BUYIN sts', ns)
  | CASHOUT sts =>
      '(sts', ns) ← resolve_stmts false sts; Some (CASHOUT sts', ns)
  | BLOCK b =>
      '(sts', ns) ← resolve_stmts true (b_stmts b);
      Some (BLOCK (Block (b_head b) sts' (b_work b) (b_partition b)
                         (b_cap b) (b_tiebreak b)), ns)
  | _ => Some (seg, [])
  end.

Fixpoint resolve_program (segs : list segment)
    : option (list segment * list note) :=
  match segs with
  | [] => Some ([], [])
  | seg :: segs' =>
      '(seg', n1) ← resolve_segment seg;
      '(segs'', n2) ← resolve_program segs';
      Some (seg' :: segs'', n1 ++ n2)
  end.

(** [meta.setdefault('normalized', notes)] *)
Definition set_default_normalized (m : meta) (notes : list note) : meta :=
  Meta (m_title m) (m_team m) (m_cap m) (m_score m) (m_tracks_declared m)
       (m_tracks m)
       (match m_normalized m with
        | Some old => Some old
        | None => Some notes
        end).

(** The AST as [_apply_catalog_and_resolve] leaves it; [None] when it
    raises. *)
Definition _apply_catalog_and_resolve (a : ast) : option ast :=
  '(prog, notes) ← resolve_program (a_program a);
  Some (Ast (set_default_normalized (a_meta a) notes) prog).

End Resolver.

(** ** The renderer and the timeline *)

Section Timeline.
Context {rt : PyFloat}.

Definition hhmmss (s : Z) : string :=
  let m := s / 60 in
  let sec := s mod 60 in
  let h := m / 60 in
  let m := m mod 60 in
  if (h =? 0)%Z then fmt_02d m +:+ ":" +:+ fmt_02d sec
  else fmt_02d h +:+ ":" +:+ fmt_02d m +:+ ":" +:+ fmt_02d sec.

Definition render_qty (q : option qty) : string :=
  match q with
  | Some (QReps v) => py_str_of_int v +:+ " "
  | Some (QCal v) => float_repr v +:+ " cal "
  | Some (QDistance v) => py_str_of_int (num_int v) +:+ "m "
  | Some (QTime v) => hhmmss v +:+ " "
  | _ => ""
  end.

Definition render_load (ld : option load) : string :=
  match ld with
  | Some (LSimple (SWeight v u)) | Some (LSimple (SHeight v u)) =>
      " @" +:+ py_str_of_int (float_trunc v) +:+ u
  | Some (LSimple (SDistance v)) =>
      " @" +:+ py_str_of_int (float_trunc v) +:+ "m"
  | Some (LSimple (SPercentRaw v)) =>
      " @" +:+ py_str_of_int (float_trunc v) +:+ "%"
  | _ => ""
  end.

(** [" " + flags if flags else ""], where [flags] is
    [" ".join(ln["flags"])] when the list is not empty, else [""]. *)
Definition render_flags (fl : list string) : string :=
  let flags := match fl with
               | [] => ""
               | _ => str_join " " fl
               end in
  if String.eqb flags "" then "" else " " +:+ flags.

Definition render_line (ln : line) : string :=
  let qtxt := render_qty (ln_qty ln) in
  let mv := ln_movement ln in
  let ltxt := render_load (ln_load ln) in
  str_strip (qtxt +:+ mv +:+ ltxt +:+ render_flags (ln_flags ln)).

Definition reps_pace (mv : string) : float :=
  default (float_lit 30 1)
    (dict_get [("thrusters", float_lit 30 1); ("pullups", float_lit 20 1);
               ("ring_rows", float_lit 18 1); ("burpees", float_lit 35 1);
               ("wall_balls", float_lit 25 1); ("box_jumps", float_lit 28 1);
               ("toes_to_bar", float_lit 25 1)] mv).

Definition distance_pace (mv : string) : float :=
  default (float_lit 9 1)
    (dict_get [("row", float_lit 35 2); ("run", float_lit 6 1);
               ("sandbag_carry", float_lit 9 1)] mv).

Definition est_line_seconds (ln : line) : float :=
  let mv := ln_movement ln in
  match ln_qty ln with
  | None => float_lit 20 1
  | Some (QReps v) => float_mul (reps_pace mv) (float_of_int v)
  | Some (QCal v) =>
      float_mul (if String.eqb mv "row" then float_lit 30 1
                 else float_lit 35 1) v
  | Some (QDistance v) => float_mul (distance_pace mv) (num_float v)
  | Some (QTime v) => float_of_int v
  | Some _ => float_lit 50 1
  end.

(** The inner line of a statement: [st if st['type']=='LINE' else
    st['line']]. *)
Definition stmt_line (st : stmt) : line :=
  match st with LINE ln => ln | EMOM_LINE _ ln _ => ln end.

(** [sum(...)] of floats: the [int] 0 when there is nothing to add. *)
Definition py_sum (xs : list float) : num :=
  foldl (fun acc x => NFloat (float_add (num_float acc) x)) (NInt 0) xs.

(** [r * per] for an [int] r. *)
Definition int_mul_num (r : Z) (v : num) : num :=
  match v with
  | NInt z => NInt (r * z)
  | NFloat x => NFloat (float_mul (float_of_int r) x)
  end.

Definition est_block_seconds (b : block) : num :=
  let per := py_sum (map (fun st => est_line_seconds (stmt_line st))
                         (b_stmts b)) in
  match b_head b with
  | AMRAP d | EMOM d => NFloat (float_of_int d)
  | FT | CHIPPER => per
  | RFT r => int_mul_num r per
  | TABATA w r s | INTERVAL s w r =>
      NFloat (float_mul (float_of_int s)
                        (float_add (float_of_int w) (float_of_int r)))
  end.

(** A timeline event [{"t": t, "type": typ, **kw}]. *)
Inductive event_kind : Type :=
  | START_BUYIN | END_BUYIN
  | START_CASHOUT | END_CASHOUT
  | REST_START (duration : Z) | REST_END
  | START_BLOCK (mode : string) | END_BLOCK
  | PROMPT (text : string)
  | NEXT_SLOT (slot : Z) (text : string).

Record event : Type := Event { ev_t : Z; ev_kind : event_kind }.

(** One [PROMPT] per statement of type ["LINE"]. *)
Definition prompts (t : Z) (sts : list stmt) : list event :=
  omap (fun st => match st with
                  | LINE ln => Some (Event t (PROMPT (render_line ln)))
                  | EMOM_LINE _ _ _ => None
                  end) sts.

(** [slots[st["slot"]] = st["line"]] over the ["EMOM_LINE"] statements. *)
Definition collect_slots (sts : list stmt) : gmap Z line :=
  foldl (fun slots st => match st with
                         | EMOM_LINE slot ln _ => <[slot := ln]> slots
                         | LINE _ => slots
                         end) ∅ sts.

(** [for i in range(minutes)], from index [i] with [n] rounds to go.
    [None] is the [KeyError] of [slots[idx]]. *)
Fixpoint emom_loop (slots : gmap Z line) (n : nat) (i : Z) (t : Z)
    : option (Z * list event) :=
  match n with
  | O => Some (t, [])
  | S n' =>
      if decide (size slots = 0%nat) then Some (t, [])
      else
        let idx := i mod Z.of_nat (size slots) + 1 in
        ln ← slots !! idx;
        '(t', evs) ← emom_loop slots n' (i + 1) (t + 60);
        Some (t', Event t (NEXT_SLOT idx (render_line ln)) :: evs)
  end.

(** The body of the loop over the segments: the clock after the segment
    and the events it appends. *)
Definition timeline_segment (t : Z) (seg : segment)
    : option (Z * list event) :=
  match seg with
  | BUYIN sts =>
      Some (t, [Event t START_BUYIN] ++ prompts t sts ++ [Event t END_BUYIN])
  | REST dur =>
      Some (t + dur, [Event t (REST_START dur); Event (t + dur) REST_END])
  | BLOCK b =>
      let start := Event t (START_BLOCK (head_mode (b_head b))) in
      match b_head b with
      | AMRAP d =>
          Some (t + d, [start] ++ prompts t (b_stmts b)
                       ++ [Event (t + d) END_BLOCK])
      | EMOM dur =>
          let minutes := dur / 60 in
          let slots := collect_slots (b_stmts b) in
          '(t', evs) ← emom_loop slots (Z.to_nat minutes) 0 t;
          Some (t', [start] ++ evs ++ [Event t' END_BLOCK])
      | _ =>
          let t' := t + num_int (est_block_seconds b) in
          Some (t', [start] ++ prompts t (b_stmts b)
                    ++ [Event t' END_BLOCK])
      end
  | CASHOUT sts =>
      Some (t, [Event t START_CASHOUT] ++ prompts t sts
               ++ [Event t END_CASHOUT])
  | TRACK_BLOCK => Some (t, [])
  end.

Fixpoint timeline_from (t : Z) (segs : list segment)
    : option (Z * list event) :=
  match segs with
  | [] => Some (t, [])
  | seg :: segs' =>
      '(t1, ev1) ← timeline_segment t seg;
      '(t2, ev2) ← timeline_from t1 segs';
      Some (t2, ev1 ++ ev2)
  end.

Definition build_timeline (a : ast) : option (list event) :=
  snd <$> timeline_from 0 (a_program a).

End Timeline.

(** ** The linter: [lint] *)

Definition KNOWN_MOVEMENTS : list string :=
  ["wall_balls"; "box_jumps"; "run"; "thrusters"; "pullups"; "ring_rows";
   "bike"; "burpees"; "sandbag_carry"; "hollow_hold"; "toes_to_bar"; "row";
   "double_unders"; "clean"; "rope_climbs"; "burpee_box_jump_over";
   "power_clean"; "assault_bike"].

(** The characters [.] matches. *)
Definition not_LF (c : ascii) : bool := negb (Ascii.eqb c LF).

(** The alternatives of the optional group: the units, or a percent
    sign followed by any text. *)
Definition RE_lint_unit : re :=
  re_alts [re_lit "kg"; re_lit "lb"; re_lit "cm"; re_lit "in"; re_lit "m";
           re_lit "km"; Seq (Chr "%") (Star not_LF)].

(** The pattern of [check_line]: a number, optionally followed by a unit
    or by a percent sign and any text, then the end of the text. *)
Definition RE_lint_load : re :=
  re_seq [RE_NUM; Opt (Group RE_lint_unit); Eol].

(** A diagnostic [{"level":..,"code":..,"path":..,"msg":..}]. *)
Record issue : Type := Issue {
  i_level : string;
  i_code : string;
  i_path : string;
  i_msg : string
}.

(** [enumerate(l)], counting from [i]. *)
Fixpoint enumerate_from {A : Type} (i : Z) (l : list A) : list (Z * A) :=
  match l with
  | [] => []
  | x :: l' => (i, x) :: enumerate_from (i + 1) l'
  end.

Definition enumerate {A : Type} (l : list A) : list (Z * A) :=
  enumerate_from 0 l.

(** [f"{name}[{i}]"] *)
Definition index_path (name : string) (i : Z) : string :=
  name +:+ "[" +:+ py_str_of_int i +:+ "]".

(** An alias note as the warning [lint] makes of it. *)
Definition note_issue (n : note) : issue :=
  Issue "warning" "W050" "META"
        ("Alias '" +:+ note_from n +:+ "' -> '" +:+ note_to n +:+ "'").

(** [any(x['level']=='error' for x in issues)] *)
Definition any_error (issues : list issue) : bool :=
  existsb (fun x => String.eqb (i_level x) "error") issues.

Section Lint.
Context {rt : PyFloat}.

(** The inner function [check_line]: the issues it appends. *)
Definition check_line (ln : line) (path : string) : list issue :=
  let mv := ln_movement ln in
  (if negb (String.eqb mv "") && negb (existsb (String.eqb mv) KNOWN_MOVEMENTS)
   then [Issue "warning" "W001" path ("Unknown movement '" +:+ mv +:+ "'")]
   else [])
  ++ match ln_load ln with
     | Some (LRaw raw) =>
         match re_match RE_lint_load raw with
         | Some _ => []
         | None =>
             [Issue "warning" "W002" path ("Suspicious load '" +:+ raw +:+ "'")]
         end
     | _ => []
     end.

Definition is_emom_line (st : stmt) : bool :=
  match st with EMOM_LINE _ _ _ => true | LINE _ => false end.

(** The statements of a BUYIN or CASHOUT: only those of type ["LINE"]
    are checked, under the path [f"{t}[{j}]"]. *)
Definition lint_plain (t : string) (sts : list stmt) : list issue :=
  flat_map (fun '(j, st) =>
              match st with
              | LINE ln => check_line ln (index_path t j)
              | EMOM_LINE _ _ _ => []
              end) (enumerate sts).

(** The body of the loop over the segments, for the segment of index
    [i]. *)
Definition lint_segment (i : Z) (seg : segment) : list issue :=
  match seg with
  | BUYIN sts => lint_plain "BUYIN" sts
  | CASHOUT sts => lint_plain "CASHOUT" sts
  | REST d =>
      if (d <=? 0)%Z
      then [Issue "error" "E010" (index_path "REST" i) "REST must be > 0"]
      else []
  | BLOCK b =>
      match b_head b with
      | EMOM _ =>
          if existsb is_emom_line (b_stmts b) then []
          else [Issue "error" "E020" (index_path "BLOCK" i)
                      "EMOM has no slots"]
      | _ => []
      end
      ++ flat_map (fun '(j, st) =>
                     check_line (stmt_line st)
                       (index_path "BLOCK" i +:+ "." +:+ index_path "LINE" j))
                  (enumerate (b_stmts b))
  | TRACK_BLOCK => []
  end.

Definition lint (a : ast) : list issue :=
  map note_issue (default [] (m_normalized (a_meta a)))
  ++ flat_map (fun '(i, seg) => lint_segment i seg) (enumerate (a_program a)).

End Lint.

(** ** The text normalizer of [fmt]: [_normalize_wod_text]

    The text is any Python [str]: a list of Unicode code points. *)

Module Fmt.

Definition text : Type := list N.

Definition LF : N := 10%N.
Definition CR : N := 13%N.

(** The line boundaries of [str.splitlines]: [\n], [\r], [\v], [\f],
    [\x1c], [\x1d], [\x1e], [\x85], U+2028 and U+2029. The pair [\r\n]
    counts once. *)
Definition is_linebreak (c : N) : bool :=
  ((c =? 10) || (c =? 13) || (c =? 11) || (c =? 12) || (c =? 28)
   || (c =? 29) || (c =? 30) || (c =? 133) || (c =? 8232) || (c =? 8233))%N.

(** The whitespace of [str.rstrip()]: the characters for which
    [str.isspace] holds. *)
Definition is_space (c : N) : bool :=
  ((9 <=? c) && (c <=? 13) || (28 <=? c) && (c <=? 32) || (c =? 133)
   || (c =? 160) || (c =? 5760) || (8192 <=? c) && (c <=? 8202)
   || (c =? 8232) || (c =? 8233) || (c =? 8239) || (c =? 8287)
   || (c =? 12288))%N.

(** [s.splitlines()] *)
Fixpoint splitlines (s : text) : list text :=
  match s with
  | [] => []
  | c :: s' =>
      if is_linebreak c then
        [] :: (if (c =? CR)%N
               then match s' with
                    | c' :: s'' => if (c' =? LF)%N then splitlines s''
                                   else splitlines s'
                    | [] => splitlines s'
                    end
               else splitlines s')
      else
        match splitlines s' with
        | [] => [[c]]
        | ln :: lns => (c :: ln) :: lns
        end
  end.

(** [s.rstrip(chars)]: drop the trailing characters that satisfy [p]. *)
Fixpoint rstrip_by (p : N -> bool) (s : text) : text :=
  match s with
  | [] => []
  | c :: s' =>
      match rstrip_by p s' with
      | [] => if p c then [] else [c]
      | r => c :: r
      end
  end.

Definition rstrip : text -> text := rstrip_by is_space.

(** ["\n".join(out)] *)
Fixpoint join_lines (out : list text) : text :=
  match out with
  | [] => []
  | [l] => l
  | l :: ls => l ++ LF :: join_lines ls
  end.

(** The loop over the lines: [prev_blank] and the lines still to visit. *)
Fixpoint collapse (prev_blank : bool) (lines : list text) : list text :=
  match lines with
  | [] => []
  | ln :: lines' =>
      let s := rstrip ln in
      let is_blank := match s with [] => true | _ => false end in
      if is_blank && prev_blank then collapse prev_blank lines'
      else s :: collapse is_blank lines'
  end.

Definition _normalize_wod_text (t : text) : text :=
  let lines := splitlines t in
  let out := collapse false lines in
  rstrip_by (N.eqb LF) (join_lines out) ++ [LF].

(** Notions for the properties of the normalizer. A line is clean when
    it holds no line boundary and no trailing whitespace; [blanks_ok]
    tells that a list of lines has no two blank lines in a row (nor a
    blank first line when [prev_blank] is set); [no3] that a text has no
    three newlines in a row. *)
Definition clean_line (l : text) : Prop :=
  Forall (fun c => is_linebreak c = false) l /\ rstrip l = l.

Definition is_blank (l : text) : bool :=
  match l with [] => true | _ => false end.

Fixpoint blanks_ok (prev_blank : bool) (ls : list text) : bool :=
  match ls with
  | [] => true
  | l :: ls' => negb (is_blank l && prev_blank) && blanks_ok (is_blank l) ls'
  end.

Fixpoint no3 (s : text) : bool :=
  match s with
  | a :: s' =>
      match s' with
      | b :: c :: _ => negb ((a =? LF)%N && (b =? LF)%N && (c =? LF)%N)
      | _ => true
      end && no3 s'
  | [] => true
  end.

(** The lines, each followed by a newline. *)
Fixpoint catl (ls : list text) : text :=
  match ls with
  | [] => []
  | l :: ls' => l ++ LF :: catl ls'
  end.

(** The text starts with two newlines. *)
Definition head2LF (s : text) : bool :=
  match s with
  | a :: b :: _ => (a =? LF)%N && (b =? LF)%N
  | _ => false
  end.

(** Clean lines, no two blank ones in a row, the last one not blank. *)
Definition tidy (ls : list text) : Prop :=
  Forall clean_line ls /\ blanks_ok false ls = true /\ last ls <> Some [].

(** The lines that are not blank. *)
Definition nonblank (ls : list text) : list text :=
  List.filter (fun l => negb (is_blank l)) ls.

End Fmt.

(** ** The command driver: [main]

    The Lark parser behind [parse_wod_text] and the linter are taken as
    parameters; file contents are given with the arguments. *)

Section Main.
Context {rt : PyFloat}.

(** [parse_wod_text]: [None] when the grammar rejects the text. *)
Variable parse_wod_text : string -> option ast.
(** Whether [lint(ast)] reports a diagnostic of level ['error']. *)
Variable lint_has_error : ast -> bool.

(** The namespace [ap.parse_args()] returns, by subcommand. Only the
    first four subparsers receive [--catalog], [--track] and [--gender];
    the catalog, when named, is given by its parsed content ([None] if
    reading or decoding it raises). *)
Record profile : Type := Profile {
  p_catalog : option (option catalog_t);
  p_track : string;
  p_gender : string
}.

Inductive namespace : Type :=
  | ns_parse (out : option string) (p : profile)
  | ns_lint (p : profile)
  | ns_run (format : string) (p : profile)
  | ns_export (to out : string) (p : profile)
  | ns_fmt (in_place : bool) (out : option string).

(** [args.catalog], [args.track], [args.gender]: [None] is the
    [AttributeError] of a namespace without these attributes. *)
Definition args_profile (args : namespace) : option profile :=
  match args with
  | ns_parse _ p | ns_lint p | ns_run _ p | ns_export _ _ p => Some p
  | ns_fmt _ _ => None
  end.

(** How the process ends: [sys.exit(code)], or an exception nobody
    catches. *)
Inductive outcome : Type :=
  | Exit (code : Z)
  | Uncaught (exc : string).

(** The exit status the caller observes: an uncaught exception makes
    the interpreter exit with status 1. *)
Definition exit_status (o : outcome) : Z :=
  match o with Exit c => c | Uncaught _ => 1 end.

(** [main], for the arguments [args] and the text [text] of [args.file]. *)
Definition main (args : namespace) (text : string) : outcome :=
  match parse_wod_text text with
  | None => Uncaught "parse error"
  | Some a =>
      match args_profile args with
      | None => Uncaught "AttributeError"
      | Some p =>
          match p_catalog p with
          | Some None => Uncaught "catalog"
          | cat =>
              match _apply_catalog_and_resolve (cat ≫= id) (p_track p)
                      (p_gender p) a with
              | None => Uncaught "ValueError"
              | Some a' =>
                  match args with
                  | ns_parse _ _ => Exit 0
                  | ns_lint _ => Exit (if lint_has_error a' then 1 else 0)
                  | ns_run _ _ =>
                      match build_timeline a' with
                      | Some _ => Exit 0
                      | None => Uncaught "KeyError"
                      end
                  | ns_export _ _ _ => Exit 0
                  | ns_fmt _ _ =>
                      match parse_wod_text text with
                      | None => Exit 2
                      | Some _ => Exit 0
                      end
                  end
              end
          end
      end
  end.

End Main.

(** ** The [line] rule of the grammar

    [line: quantity? movement load? suffix* (";"|NEWLINE)], with its
    terminals. A concrete line is the sequence of tokens of one
    derivation; [lexes] relates it to the text it spans, whitespace being
    ignored between tokens ([%ignore WS]). *)

Definition RE_INT : re := Plus is_digit.

Definition is_sign (c : ascii) : bool := Ascii.eqb c "+" || Ascii.eqb c "-".
Definition is_e (c : ascii) : bool := Ascii.eqb c "e" || Ascii.eqb c "E".

(** [NUMBER: FLOAT | INT] of Lark's common terminals, where
    [FLOAT: INT _EXP | DECIMAL _EXP?], [DECIMAL: INT "." INT? | "." INT]
    and [_EXP: ("e"|"E") SIGNED_INT]. *)
Definition RE_EXP : re := re_seq [Cls is_e; Opt (Cls is_sign); RE_INT].
Definition RE_DECIMAL : re :=
  Alt (re_seq [RE_INT; Chr "."; Opt RE_INT]) (Seq (Chr ".") RE_INT).
Definition RE_NUMBER : re :=
  Alt (Alt (Seq RE_INT RE_EXP) (Seq RE_DECIMAL (Opt RE_EXP))) RE_INT.

Definition RE_M_KM : re := Alt (re_lit "m") (re_lit "km").

(** [DIST: /\d+(?:\.\d+)?(?:m|km)\b/] (the [\b] is [tk_wb] below) *)
Definition RE_DIST : re := Seq RE_NUM RE_M_KM.
(** [TIMEQ: /\d{1,2}:\d{2}/ | /\d+s/] *)
Definition RE_TIMEQ : re :=
  Alt (re_seq [Cls is_digit; Opt (Cls is_digit); Chr ":";
               Cls is_digit; Cls is_digit])
      (Seq (Plus is_digit) (Chr "s")).
(** [LOADVAL: /\d+(?:\.\d+)?(kg|lb|cm|in|m|km|%)\b/] *)
Definition RE_LOADVAL : re := Seq RE_NUM RE_LOAD_UNIT.
(** [LOADDUAL: /\d+(?:\.\d+)?\/\d+(?:\.\d+)?(kg|lb|cm|in|m|km|%)\b/] *)
Definition RE_LOADDUAL : re := re_seq [RE_NUM; Chr "/"; RE_NUM; RE_LOAD_UNIT].
(** [REPDUAL: /\d+\/\d+/] *)
Definition RE_REPDUAL : re := re_seq [Plus is_digit; Chr "/"; Plus is_digit].
(** [CALDUAL: /\d+(?:\.\d+)?\/\d+(?:\.\d+)?\s*cal/] *)
Definition RE_CALDUAL : re :=
  re_seq [RE_NUM; Chr "/"; RE_NUM; Star py_space; re_lit "cal"].
(** [DISTDUAL: /\d+(?:\.\d+)?\/\d+(?:\.\d+)?(?:m|km)\b/] *)
Definition RE_DISTDUAL : re := re_seq [RE_NUM; Chr "/"; RE_NUM; RE_M_KM].
(** [IDENT: /[a-zA-Z][a-zA-Z0-9_]*/] *)
Definition RE_IDENT : re := Seq (Cls is_alpha) (Star is_ident_char).

(** [NEWLINE: (CR? LF)+] *)
Fixpoint newline_run (s : string) : bool :=
  match s with
  | EmptyString => true
  | String c s' =>
      if Ascii.eqb c LF then newline_run s'
      else if Ascii.eqb c CR then
        match s' with
        | String c' s'' => Ascii.eqb c' LF && newline_run s''
        | EmptyString => false
        end
      else false
  end.
Definition is_NEWLINE (s : string) : bool :=
  match s with EmptyString => false | _ => newline_run s end.

Inductive cst_qty : Type :=
  | CRepDual (s : string)
  | CCalDual (s : string)
  | CDistDual (s : string)
  | CInt (s : string)
  | CNumberCal (s : string)
  | CDist (s : string)
  | CTimeq (s : string).

Inductive cst_load : Type :=
  | CLoadVal (s : string)
  | CLoadDual (s : string).

Inductive cst_suffix : Type := CSync | CShared | CEach.

Inductive cst_term : Type :=
  | CSemi
  | CNewline (s : string).

(** One derivation of [line]: the movement is [IDENT ("_" IDENT)*]. *)
Record cst_line : Type := CstLine {
  c_qty : option cst_qty;
  c_ident : string;
  c_idents : list string;
  c_load : option cst_load;
  c_suffix : list cst_suffix;
  c_term : cst_term
}.

(** Every token of the derivation is a word of its terminal. *)
Definition qty_valid (q : cst_qty) : bool :=
  match q with
  | CRepDual s => re_full RE_REPDUAL s
  | CCalDual s => re_full RE_CALDUAL s
  | CDistDual s => re_full RE_DISTDUAL s
  | CInt s => re_full RE_INT s
  | CNumberCal s => re_full RE_NUMBER s
  | CDist s => re_full RE_DIST s
  | CTimeq s => re_full RE_TIMEQ s
  end.

Definition load_valid (l : cst_load) : bool :=
  match l with
  | CLoadVal s => re_full RE_LOADVAL s
  | CLoadDual s => re_full RE_LOADDUAL s
  end.

Definition term_valid (t : cst_term) : bool :=
  match t with CSemi => true | CNewline s => is_NEWLINE s end.

Definition cst_valid (c : cst_line) : bool :=
  match c_qty c with Some q => qty_valid q | None => true end
  && re_full RE_IDENT (c_ident c)
  && forallb (re_full RE_IDENT) (c_idents c)
  && match c_load c with Some l => load_valid l | None => true end
  && term_valid (c_term c).

(** A token of the text: its characters, and whether its terminal ends
    with [\b]. *)
Record token : Type := Tk { tk_text : string; tk_wb : bool }.

Definition suffix_text (s : cst_suffix) : string :=
  match s with CSync => "SYNC" | CShared => "@shared" | CEach => "@each" end.

Definition term_text (t : cst_term) : string :=
  match t with CSemi => ";" | CNewline s => s end.

Definition qty_tokens (q : cst_qty) : list token :=
  match q with
  | CRepDual s | CCalDual s | CInt s | CTimeq s => [Tk s false]
  | CDistDual s | CDist s => [Tk s true]
  | CNumberCal s => [Tk s false; Tk "cal" false]
  end.

Definition load_tokens (l : cst_load) : list token :=
  match l with
  | CLoadVal s | CLoadDual s => [Tk "@" false; Tk s true]
  end.

Definition cst_tokens (c : cst_line) : list token :=
  match c_qty c with Some q => qty_tokens q | None => [] end
  ++ Tk (c_ident c) false
     :: flat_map (fun i => [Tk "_" false; Tk i false]) (c_idents c)
  ++ match c_load c with Some l => load_tokens l | None => [] end
  ++ map (fun s => Tk (suffix_text s) false) (c_suffix c)
  ++ [Tk (term_text (c_term c)) false].

Fixpoint str_last (s : string) : option ascii :=
  match s with
  | EmptyString => None
  | String c EmptyString => Some c
  | String _ s' => str_last s'
  end.

Definition is_word_opt (c : option ascii) : bool :=
  match c with Some x => is_word_char x | None => false end.

Definition str_head (s : string) : option ascii :=
  match s with String c _ => Some c | EmptyString => None end.

(** The [\b] after a token: exactly one of the token's last character and
    the next character of the text is a word character. *)
Definition boundary_ok (t : token) (rest : string) : bool :=
  if tk_wb t
  then xorb (is_word_opt (str_last (tk_text t))) (is_word_opt (str_head rest))
  else true.

(** [lexes toks s]: the text [s] is the tokens [toks] in order, with
    ignored whitespace between them. *)
Inductive lexes : list token -> string -> Prop :=
  | lexes_nil : lexes [] EmptyString
  | lexes_ws c toks s :
      lark_ws c = true -> lexes toks s -> lexes toks (String c s)
  | lexes_tok t toks s :
      boundary_ok t s = true -> lexes toks s ->
      lexes (t :: toks) (tk_text t +:+ s).

Section LineRule.
Context {rt : PyFloat}.

(** The children of the [line] node once the transformer has visited
    the subtrees: the anonymous tokens ["cal"], ["_"], ["@"] and [";"]
    are filtered out of the tree, a [NEWLINE] token is kept. *)
Definition qty_node (q : cst_qty) : option node :=
  match q with
  | CRepDual s => ToAST.dual_reps [NTok "REPDUAL" s]
  | CCalDual s => ToAST.dual_cal [NTok "CALDUAL" s]
  | CDistDual s => ToAST.dual_distance [NTok "DISTDUAL" s]
  | CInt s => ToAST.reps [NTok "INT" s]
  | CNumberCal s => ToAST.cal_qty [NTok "NUMBER" s]
  | CDist s => ToAST.distance_qty [NTok "DIST" s]
  | CTimeq s => ToAST.hold_time [NTok "TIMEQ" s]
  end.

Definition load_node (l : cst_load) : option node :=
  match l with
  | CLoadVal s => ToAST.load [NTok "LOADVAL" s]
  | CLoadDual s => ToAST.load [NTok "LOADDUAL" s]
  end.

Definition suffix_node (s : cst_suffix) : option node :=
  match s with
  | CSync => ToAST.suff_sync []
  | CShared => ToAST.suff_shared []
  | CEach => ToAST.suff_each []
  end.

Definition term_nodes (t : cst_term) : list node :=
  match t with CSemi => [] | CNewline s => [NTok "NEWLINE" s] end.

Definition opt_nodes {A : Type} (f : A -> option node) (x : option A)
    : option (list node) :=
  match x with
  | None => Some []
  | Some a => n ← f a; Some [n]
  end.

Definition cst_children (c : cst_line) : option (list node) :=
  q ← opt_nodes qty_node (c_qty c);
  m ← ToAST.movement (map (NTok "IDENT") (c_ident c :: c_idents c));
  l ← opt_nodes load_node (c_load c);
  s ← mapM suffix_node (c_suffix c);
  Some (q ++ [m] ++ l ++ s ++ term_nodes (c_term c)).

(** The line dictionary the transformer builds for a derivation. *)
Definition cst_line_ast (c : cst_line) : option line :=
  xs ← cst_children c;
  match ToAST.line xs with
  | Some (NStmt (LINE ln)) => Some ln
  | _ => None
  end.


End LineRule.

(** ** An instance of the float operations, for the examples

    Exact decimal arithmetic: a value is [m / 10^k], kept with the least
    [k]. It reads the plain decimal notation [digits] or [digits.digits]
    and prints it back; on the numbers of the examples it gives what
    binary64 gives. *)

Module DecimalFloat.

Definition t : Type := Z * nat.

Fixpoint canon_fuel (fuel : nat) (m : Z) (k : nat) : t :=
  match fuel, k with
  | S fuel', S k' =>
      if (m mod 10 =? 0)%Z then canon_fuel fuel' (m / 10) k' else (m, k)
  | _, _ => (m, k)
  end.
Definition canon (m : Z) (k : nat) : t := canon_fuel k m k.

Definition of_str (s : string) : option t :=
  match str_split "." s with
  | [a] => n ← py_int_of_str a; Some (n, 0%nat)
  | [a; b] =>
      n ← py_int_of_str a; f ← py_int_of_str b;
      Some (canon (n * 10 ^ Z.of_nat (String.length b) + f)
                  (String.length b))
  | _ => None
  end.

Definition scale (x : t) (k : nat) : Z :=
  fst x * 10 ^ Z.of_nat (k - snd x).

Definition add (x y : t) : t :=
  let k := Nat.max (snd x) (snd y) in canon (scale x k + scale y k) k.
Definition mul (x y : t) : t :=
  canon (fst x * fst y) (snd x + snd y).
Definition trunc (x : t) : Z := Z.quot (fst x) (10 ^ Z.of_nat (snd x)).
Definition is_zero (x : t) : bool := (fst x =? 0)%Z.

Fixpoint pad_left (n : nat) (s : string) : string :=
  match n with
  | O => s
  | S n' => if (String.length s <? S n')%nat
            then pad_left n' ("0" +:+ s) else pad_left n' s
  end.

Definition repr (x : t) : string :=
  let p := 10 ^ Z.of_nat (snd x) in
  let a := Z.abs (fst x) in
  (if (fst x <? 0)%Z then "-" else "") +:+ pretty (a / p) +:+ "." +:+
  match snd x with
  | O => "0"
  | k => pad_left k (pretty (a mod p))
  end.

#[export] Instance runtime : PyFloat := {|
  float := t;
  float_of_str := of_str;
  float_of_int := fun z => (z, 0%nat);
  float_trunc := trunc;
  float_add := add;
  float_mul := mul;
  float_is_zero := is_zero;
  float_repr := repr;
  float_lit := canon
|}.

End DecimalFloat.


(** ** Notions the properties are stated with *)



(** The characters of a number, and the units of a load. *)
Definition is_num_char (c : ascii) : bool := is_digit c || Ascii.eqb c ".".

Definition LOAD_UNITS : list string := ["kg"; "lb"; "cm"; "in"; "m"; "km"; "%"].

Section Notions.
Context {rt : PyFloat}.

Definition qty_is_dual (q : qty) : bool :=
  match q with
  | QDualReps _ _ | QDualCal _ _ | QDualDistance _ _ => true
  | _ => false
  end.

Definition load_is_dual (l : load) : bool :=
  match l with LDual _ _ => true | _ => false end.

(** Neither the quantity nor the load of the line is of a dual kind. *)
Definition line_no_dual (ln : line) : Prop :=
  (forall q, ln_qty ln = Some q -> qty_is_dual q = false)
  /\ (forall l, ln_load ln = Some l -> load_is_dual l = false).

(** Every line of the AST: the lines and the inner lines of the
    slot-lines, of every BUYIN, CASHOUT and BLOCK. *)
Definition segment_lines (seg : segment) : list line :=
  match seg with
  | BUYIN sts | CASHOUT sts => map stmt_line sts
  | BLOCK b => map stmt_line (b_stmts b)
  | _ => []
  end.

Definition ast_lines (a : ast) : list line :=
  flat_map segment_lines (a_program a).

(** The lines the later stages read: the plain lines of a BUYIN or
    CASHOUT (their slot-lines are skipped by the linter and the timeline),
    and the lines and inner lines of a BLOCK. *)
Definition plain_lines (sts : list stmt) : list line :=
  omap (fun st => match st with LINE ln => Some ln | _ => None end) sts.

Definition segment_read_lines (seg : segment) : list line :=
  match seg with
  | BUYIN sts | CASHOUT sts => plain_lines sts
  | BLOCK b => map stmt_line (b_stmts b)
  | _ => []
  end.

Definition ast_read_lines (a : ast) : list line :=
  flat_map segment_read_lines (a_program a).

(** [P] holds of every dictionary the catalog holds as the load default
    of a movement for the track key [tkey] and the gender [gender]. *)
Definition catalog_load_defaults (P : load -> Prop) (cat : option catalog_t)
    (tkey gender : string) : Prop :=
  forall c mv e g l,
    cat = Some c -> movements c !! mv = Some e ->
    mv_load e !! tkey = Some g -> g !! gender = Some (CLDict l) -> P l.

(** The slot-lines of a block, as pairs of slot number and line. *)
Definition emom_lines (sts : list stmt) : list (Z * line) :=
  omap (fun st => match st with
                  | EMOM_LINE slot ln _ => Some (slot, ln)
                  | LINE _ => None
                  end) sts.

(** [slots[k] = v] for each pair of a list, in order. *)
Definition insert_all (m : gmap Z line) (l : list (Z * line)) : gmap Z line :=
  foldl (fun m kv => <[kv.1 := kv.2]> m) m l.

(** The statements hold [N] slot-lines, numbered 1 to [N] in some order. *)
Definition slots_numbered (sts : list stmt) (N : nat) : Prop :=
  Permutation (map fst (emom_lines sts)) (map Z.of_nat (seq 1 N)).

(** Every EMOM block of the program has its slot-lines numbered 1 to N. *)
Definition emom_blocks_numbered (a : ast) : Prop :=
  forall b d, In (BLOCK b) (a_program a) -> b_head b = EMOM d ->
              exists N, slots_numbered (b_stmts b) N.

(** The program [BLOCK FT {\n 15/12 cal row;\n}]: the derivation of its
    line, and the AST the callbacks build from the parse tree
    [start(block(block_head(ft_head), line(dual_cal, movement)))]. *)
Definition seed6_line : cst_line :=
  CstLine (Some (CCalDual "15/12 cal")) "row" [] None [] CSemi.

Definition seed6_ast : option ast :=
  ln ← cst_children seed6_line ≫= ToAST.line;
  h ← ToAST.ft_head [] ≫= fun h => ToAST.block_head [h];
  b ← ToAST.block [h; ln];
  ToAST.start [b].

(** A catalog whose only entry is the load default [l] of [thrusters]
    for track [rx] and gender [male], and the program
    [BLOCK FT { 10 thrusters; }] (with the load [l] on its line). *)
Definition one_load_catalog (l : load) : catalog_t :=
  Catalog {[ "thrusters" :=
             MoveEntry ∅ ∅ ∅ {[ "rx" := {[ "male" := CLDict l ]} ]} ]}.

Definition ten_thrusters (normalized : option (list note)) (l : option load)
    : ast :=
  Ast (Meta None None None ∅ [] [] normalized)
      [BLOCK (Block FT [LINE (Line (Some (QReps 10)) "thrusters" l [])]
                    None None None None)].

(** The program
    [BLOCK EMOM 2:00 {\n 1: 10 wall_balls;\n 2: 8 box_jumps;\n}]. *)
Definition two_slot_emom : ast :=
  Ast ToAST.empty_meta
      [BLOCK (Block (EMOM 120)
                [EMOM_LINE 1 (Line (Some (QReps 10)) "wall_balls" None []) false;
                 EMOM_LINE 2 (Line (Some (QReps 8)) "box_jumps" None []) false]
                None None None None)].


(** The flag a line terminator leaves: the text of a [NEWLINE] token. *)
Definition term_flags (t : cst_term) : list string :=
  match t with CSemi => [] | CNewline s => [s] end.





(** The line [15/12 burpees;] and the dictionary built for it. *)
Definition dual_reps_line : cst_line :=
  CstLine (Some (CRepDual "15/12")) "burpees" [] None [] CSemi.










(** The first line of the first block of a program. *)
Definition first_line (a : ast) : option line :=
  match a_program a with
  | BLOCK b :: _ => head (map stmt_line (b_stmts b))
  | _ => None
  end.

(** The note the resolver writes for a line: its movement and the name
    the alias table gives it, when the two differ. *)
Definition rename_note (ln : line) : option note :=
  let mv := ln_movement ln in
  if negb (String.eqb mv "") && negb (String.eqb (_normalize_mv mv) mv)
  then Some (Note mv (_normalize_mv mv)) else None.

Definition ast_renames (a : ast) : list note :=
  omap rename_note (ast_read_lines a).

(** The AST without what the resolver works on: every line keeps its
    flags only, [meta] loses its entry [normalized]. *)
Definition blank_line (ln : line) : line := Line None "" None (ln_flags ln).

Definition blank_stmt (st : stmt) : stmt :=
  match st with
  | LINE ln => LINE (blank_line ln)
  | EMOM_LINE slot ln _ => EMOM_LINE slot (blank_line ln) false
  end.

Definition blank_segment (seg : segment) : segment :=
  match seg with
  | BUYIN sts => BUYIN (map blank_stmt sts)
  | CASHOUT sts => CASHOUT (map blank_stmt sts)
  | BLOCK b =>
      BLOCK (Block (b_head b) (map blank_stmt (b_stmts b)) (b_work b)
                   (b_partition b) (b_cap b) (b_tiebreak b))
  | REST _ | TRACK_BLOCK => seg
  end.

Definition frame (a : ast) : ast :=
  let m := a_meta a in
  Ast (Meta (m_title m) (m_team m) (m_cap m) (m_score m)
            (m_tracks_declared m) (m_tracks m) None)
      (map blank_segment (a_program a)).

(** The times and counts of a block head are not negative. *)
Definition head_nonneg (h : bhead) : Prop :=
  match h with
  | AMRAP d | EMOM d => 0 <= d
  | RFT r => 0 <= r
  | TABATA w r s | INTERVAL s w r => 0 <= w /\ 0 <= r /\ 0 <= s
  | FT | CHIPPER => True
  end.

(** The children of a [block] node once the transformer has visited its
    subtrees, by the rule
    [block: "BLOCK" block_head block_opt* "{" stmt+ "}" tiebreak?]:
    the head, the options, the statements and the tiebreak. The rule
    [block_opt] has no callback, so each option (the result of a
    [workmode], [partition] or [cap_local] callback) comes wrapped in a
    tree named [block_opt]. *)
Definition block_children (h : bhead) (opts : list node) (sts : list stmt)
    (tb : option tiebreak) : list node :=
  NHead h :: map (fun o => NTree "block_opt" [o]) opts
  ++ map NStmt sts
  ++ match tb with Some t => [NTiebreak t] | None => [] end.

(** The quantity of a derivation is not written in calories: no [float]
    is read from its token. *)
Definition qty_without_float (q : option cst_qty) : bool :=
  match q with
  | Some (CNumberCal _) | Some (CCalDual _) => false
  | _ => true
  end.

(** The segment, or the title, an item of [start] carries. *)
Definition node_segment (x : node) : option segment :=
  match x with NSeg s => Some s | _ => None end.

Definition node_title (x : node) : option string :=
  match x with NMeta (MTitle v) => Some v | _ => None end.

(** The program holds a REST whose duration is zero or negative, or an
    EMOM block without slot-line. *)
Definition program_in_error (a : ast) : Prop :=
  (exists d, In (REST d) (a_program a) /\ d <= 0)
  \/ (exists b d, In (BLOCK b) (a_program a) /\ b_head b = EMOM d
                  /\ emom_lines (b_stmts b) = []).

(** The linter, as [main] calls it. *)
Definition lint_finds_error (a : ast) : bool := any_error (lint a).

(** The program [REST 0s]. *)
Definition rest_zero : ast := Ast ToAST.empty_meta [REST 0].

(** The entry of the catalog [apply_catalog_line] reads for a line. *)
Definition line_entry (cat : catalog_t) (ln : line) : move_entry :=
  default empty_entry (movements cat !! ln_movement ln).

(** A catalog whose only entry is, for [thrusters], track [rx] and
    gender [male], the load default [d]; and one whose only entry is,
    for [run], track [rx] and gender [male], the distance default [v]. *)
Definition thrusters_catalog (d : cat_load) : catalog_t :=
  Catalog {[ "thrusters" :=
             MoveEntry ∅ ∅ ∅ {[ "rx" := {[ "male" := d ]} ]} ]}.

Definition run_catalog (v : num) : catalog_t :=
  Catalog {[ "run" := MoveEntry ∅ {[ "rx" := {[ "male" := v ]} ]} ∅ ∅ ]}.

(** The line [200m run;]. *)
Definition run_line : cst_line :=
  CstLine (Some (CDist "200m")) "run" [] None [] CSemi.

(** Each event is not earlier than the one before it, the first one not
    earlier than [t]. *)
Fixpoint nondecreasing_from (t : Z) (evs : list event) : Prop :=
  match evs with
  | [] => True
  | e :: evs' => t <= ev_t e /\ nondecreasing_from (ev_t e) evs'
  end.

(** The events all lie between [t] and [t'], in order. *)
Definition within (t t' : Z) (evs : list event) : Prop :=
  t <= t' /\ nondecreasing_from t evs /\ Forall (fun e => ev_t e <= t') evs.

(** The clock does not go back over the segment: the duration of a REST
    or of an AMRAP block, and the estimated duration of a block that is
    neither AMRAP nor EMOM, are not negative. *)
Definition segment_not_negative (seg : segment) : Prop :=
  match seg with
  | REST d => 0 <= d
  | BLOCK b =>
      match b_head b with
      | AMRAP d => 0 <= d
      | EMOM _ => True
      | _ => 0 <= num_int (est_block_seconds b)
      end
  | _ => True
  end.

(** The program [BLOCK FT {\n 10 wb;\n}], with the movement [mv] on its
    line and the notes [normalized]. *)
Definition ten_of (normalized : option (list note)) (mv : string) : ast :=
  Ast (Meta None None None ∅ [] [] normalized)
      [BLOCK (Block FT [LINE (Line (Some (QReps 10)) mv None [])]
                    None None None None)].

(** The issues of a given code. *)
Definition issues_of (code : string) (issues : list issue) : list issue :=
  List.filter (fun i => String.eqb (i_code i) code) issues.

(** The segments that make [lint] report an error. *)
Definition segment_in_error (seg : segment) : bool :=
  match seg with
  | REST d => (d <=? 0)%Z
  | BLOCK b =>
      match b_head b with
      | EMOM _ => negb (existsb is_emom_line (b_stmts b))
      | _ => false
      end
  | _ => false
  end.

End Notions.

(** Weights of the examples, in the decimal instance. *)
Definition kg (n : Z) : @sload DecimalFloat.runtime :=
  @SWeight DecimalFloat.runtime (n, 0%nat) "kg".

(** * Properties *)

(** ** Strings and regular expressions *)

(** Case analysis on the 256 characters. *)
Ltac by_ascii c :=
  destruct c as [[] [] [] [] [] [] [] []]; vm_compute; intros;
  solve [congruence | tauto | discriminate | eauto].

Lemma is_digit_not_bslash c : is_digit c = true -> Ascii.eqb c BSLASH = false.
Proof. by_ascii c. Qed.

(** A pattern that starts with [\\d] matches no text that starts with a
    digit. *)
Lemma re_run_bslash_num_digit c s :
  is_digit c = true -> re_run RE_BSLASH_NUM (String c s) = [].
Proof.
  intros H. unfold RE_BSLASH_NUM. simpl.
  rewrite (is_digit_not_bslash c H). reflexivity.
Qed.

Lemma plus_digit_head s rest g :
  In (rest, g) (re_run (Plus is_digit) s) ->
  exists c s', s = String c s' /\ is_digit c = true.
Proof.
  destruct s as [|c s']; simpl; [tauto|].
  destruct (is_digit c) eqn:E; [eauto|]. simpl. tauto.
Qed.

Lemma re_num_head s rest g :
  In (rest, g) (re_run RE_NUM s) ->
  exists c s', s = String c s' /\ is_digit c = true.
Proof.
  unfold RE_NUM. simpl. intros H.
  apply in_flat_map in H as [[r1 g1] [H1 _]].
  eapply plus_digit_head; eauto.
Qed.

Lemma re_full_seq_head r1 r2 s :
  re_full (Seq r1 r2) s = true ->
  exists rest g, In (rest, g) (re_run r1 s).
Proof.
  unfold re_full. intros H. apply existsb_exists in H as [[rest g] [H _]].
  simpl in H. apply in_flat_map in H as [[r g1] [H1 _]]. eauto.
Qed.

(** ** The AST builder on distance and load tokens *)

Section Builder.
Context {rt : PyFloat}.

Lemma dist_token_head s :
  re_full RE_DIST s = true ->
  exists c s', s = String c s' /\ is_digit c = true.
Proof.
  intros H. apply re_full_seq_head in H as (rest & g & H).
  eapply re_num_head; eauto.
Qed.

Lemma loadval_token_head s :
  re_full RE_LOADVAL s = true ->
  exists c s', s = String c s' /\ is_digit c = true.
Proof.
  intros H. apply re_full_seq_head in H as (rest & g & H).
  eapply re_num_head; eauto.
Qed.

Lemma loaddual_token_head s :
  re_full RE_LOADDUAL s = true ->
  exists c s', s = String c s' /\ is_digit c = true.
Proof.
  intros H. apply re_full_seq_head in H as (rest & g & H).
  eapply re_num_head; eauto.
Qed.

(** On a text that starts with a digit the pattern of [distance_qty]
    fails, and the callback returns its fallback. *)
Lemma distance_qty_digit c s typ :
  is_digit c = true ->
  ToAST.distance_qty [NTok typ (String c s)]
  = Some (NQty (QDistance (NInt 0))).
Proof.
  intros H. unfold ToAST.distance_qty, re_match, ToAST.RE_distance_qty.
  simpl. rewrite (is_digit_not_bslash c H). reflexivity.
Qed.

(** Every [DIST] token gives the distance 0. *)
Lemma distance_qty_dist_token s :
  re_full RE_DIST s = true ->
  ToAST.distance_qty [NTok "DIST" s] = Some (NQty (QDistance (NInt 0))).
Proof.
  intros H. apply dist_token_head in H as (c & s' & -> & Hc).
  by apply distance_qty_digit.
Qed.

(** On a text that starts with a digit both patterns of [load] fail, and
    the callback returns the raw load. *)
Lemma load_digit c s typ :
  is_digit c = true ->
  ToAST.load [NTok typ (String c s)] = Some (NLoad (LRaw (String c s))).
Proof.
  intros H.
  unfold ToAST.load, re_match, ToAST.RE_load_dual, ToAST.RE_load_single.
  simpl. rewrite (is_digit_not_bslash c H). reflexivity.
Qed.

Lemma load_loadval_token s :
  re_full RE_LOADVAL s = true ->
  ToAST.load [NTok "LOADVAL" s] = Some (NLoad (LRaw s)).
Proof.
  intros H. apply loadval_token_head in H as (c & s' & -> & Hc).
  by apply load_digit.
Qed.

Lemma load_loaddual_token s :
  re_full RE_LOADDUAL s = true ->
  ToAST.load [NTok "LOADDUAL" s] = Some (NLoad (LRaw s)).
Proof.
  intros H. apply loaddual_token_head in H as (c & s' & -> & Hc).
  by apply load_digit.
Qed.

(** C3. The tokens [200m] and [1.5km] are [DIST] tokens, and
    [distance_qty] turns each into a distance of value 0: not 200, and
    not 1500, meters. *)
Theorem distance_qty_loses_the_number :
  re_full RE_DIST "200m" = true /\ re_full RE_DIST "1.5km" = true
  /\ ToAST.distance_qty [NTok "DIST" "200m"]
     = Some (NQty (QDistance (NInt 0)))
  /\ ToAST.distance_qty [NTok "DIST" "1.5km"]
     = Some (NQty (QDistance (NInt 0))).
Proof.
  repeat split; try reflexivity; by apply distance_qty_digit.
Qed.

(** C4. The tokens [40kg], [24in], [400m], [2km] and [50%] are load
    tokens, and [load] turns each into a load of kind raw. *)
Theorem load_is_always_raw :
  forallb (re_full RE_LOADVAL) ["40kg"; "24in"; "400m"; "2km"; "50%"] = true
  /\ Forall (fun s => ToAST.load [NTok "LOADVAL" s] = Some (NLoad (LRaw s)))
            ["40kg"; "24in"; "400m"; "2km"; "50%"].
Proof.
  split; [reflexivity|].
  repeat constructor; by apply load_digit.
Qed.

End Builder.

(** ** The resolver: selection of the dual branch *)

Section Selection.
Context {rt : PyFloat}.

Lemma resolve_line_no_catalog track gender q mv l' fl l :
  resolve_load gender l = Some l' ->
  resolve_line None track gender (Line q mv l fl)
  = Some (Line (resolve_qty gender q)
               (if negb (String.eqb mv "")
                   && negb (String.eqb (_normalize_mv mv) mv)
                then _normalize_mv mv else mv)
               l' fl,
          if negb (String.eqb mv "")
             && negb (String.eqb (_normalize_mv mv) mv)
          then [Note mv (_normalize_mv mv)] else []).
Proof.
  intros H. unfold resolve_line. simpl. rewrite H. reflexivity.
Qed.

Lemma seed6_ast_eq x y :
  float_of_str "15" = Some x -> float_of_str "12" = Some y ->
  seed6_ast
  = Some (Ast ToAST.empty_meta
            [BLOCK (Block FT [LINE (Line (Some (QDualCal x y)) "row" None [])]
                          None None None None)]).
Proof.
  intros Hx Hy. unfold seed6_ast, cst_children, seed6_line. simpl.
  unfold ToAST.dual_cal. simpl.
  change (str_strip (str_remove "cal" "15/12 cal")) with "15/12".
  simpl. rewrite Hx, Hy. reflexivity.
Qed.

(** C5. On a dual quantity or load the resolver keeps branch [a] for
    gender male and branch [b] for gender female, under the non-dual
    kind and with the unit of the input; a line is rewritten with these
    selections; and the program [BLOCK FT {\n 15/12 cal row;\n}] (whose
    line is the token [15/12 cal] and the movement [row]), resolved with
    gender female, has the quantity [cal] of value [float("12")] on its
    first line. *)
Theorem dual_selection_by_gender :
  (forall a b,
     resolve_qty "male" (Some (QDualReps a b)) = Some (QReps a)
     /\ resolve_qty "female" (Some (QDualReps a b)) = Some (QReps b))
  /\ (forall a b,
     resolve_qty "male" (Some (QDualCal a b)) = Some (QCal a)
     /\ resolve_qty "female" (Some (QDualCal a b)) = Some (QCal b))
  /\ (forall a b,
     resolve_qty "male" (Some (QDualDistance a b)) = Some (QDistance a)
     /\ resolve_qty "female" (Some (QDualDistance a b)) = Some (QDistance b)
     /\ qty_unit (QDistance a) = qty_unit (QDualDistance a b)
     /\ qty_unit (QDistance b) = qty_unit (QDualDistance a b))
  /\ (forall a b,
     resolve_load "male" (Some (LDual a b)) = Some (Some (LSimple a))
     /\ resolve_load "female" (Some (LDual a b)) = Some (Some (LSimple b)))
  /\ (forall track q mv a b fl,
     exists mv' notes,
       resolve_line None track "male" (Line q mv (Some (LDual a b)) fl)
       = Some (Line (resolve_qty "male" q) mv' (Some (LSimple a)) fl, notes)
       /\ resolve_line None track "female" (Line q mv (Some (LDual a b)) fl)
       = Some (Line (resolve_qty "female" q) mv' (Some (LSimple b)) fl, notes))
  /\ (forall track q mv fl,
     exists mv' notes,
       resolve_line None track "male" (Line q mv None fl)
       = Some (Line (resolve_qty "male" q) mv' None fl, notes)
       /\ resolve_line None track "female" (Line q mv None fl)
       = Some (Line (resolve_qty "female" q) mv' None fl, notes))
  /\ cst_valid seed6_line = true
  /\ lexes (cst_tokens seed6_line) "15/12 cal row;"
  /\ (forall x y track,
     float_of_str "15" = Some x -> float_of_str "12" = Some y ->
     exists a,
       seed6_ast ≫= _apply_catalog_and_resolve None track "female" = Some a
       /\ (ln_qty <$> first_line a) = Some (Some (QCal y))).
Proof.
  repeat match goal with |- _ /\ _ => split end;
    try (intros; repeat split; reflexivity).
  - intros. eexists _, _. split; apply resolve_line_no_catalog; reflexivity.
  - intros. eexists _, _. split; apply resolve_line_no_catalog; reflexivity.
  - apply (lexes_tok (Tk "15/12 cal" false) _ " row;"); [reflexivity|].
    apply lexes_ws; [reflexivity|].
    apply (lexes_tok (Tk "row" false) _ ";"); [reflexivity|].
    apply (lexes_tok (Tk ";" false) _ ""); [reflexivity|]. constructor.
  - intros x y track Hx Hy. rewrite (seed6_ast_eq x y Hx Hy).
    eexists. split; reflexivity.
Qed.

End Selection.

(** ** The command driver *)

Section Driver.
Context {rt : PyFloat}.

(** C9. Whatever the parser answers, [main] called for [fmt] ends with
    an uncaught exception: the parse failure escapes from the parse that
    precedes the dispatch, and a parsed text stops at [args.catalog],
    which the [fmt] namespace lacks. The process exits with status 1,
    never with 2 or 0. *)
Theorem fmt_never_exits_with_2_or_0 :
  forall (parse_wod_text : string -> option ast)
         (lint_has_error : ast -> bool)
         (in_place : bool) (out : option string) (text : string),
    let o := main parse_wod_text lint_has_error (ns_fmt in_place out) text in
    (parse_wod_text text = None /\ o = Uncaught "parse error"
     \/ parse_wod_text text <> None /\ o = Uncaught "AttributeError")
    /\ exit_status o = 1.
Proof.
  intros parse lint_err ip out text. unfold main. simpl.
  destruct (parse text) eqn:E; simpl; (split; [|reflexivity]).
  - right. split; [discriminate | reflexivity].
  - left. split; reflexivity.
Qed.

End Driver.

(** ** Concatenation of strings *)

Lemma str_app_cons c s1 s2 : String c s1 +:+ s2 = String c (s1 +:+ s2).
Proof. reflexivity. Qed.

Lemma str_app_nil_l s : "" +:+ s = s.
Proof. reflexivity. Qed.

Lemma str_app_assoc s1 s2 s3 : (s1 +:+ s2) +:+ s3 = s1 +:+ (s2 +:+ s3).
Proof.
  induction s1 as [|c s1 IH]; [done|]. rewrite !str_app_cons. by f_equal.
Qed.

Lemma str_app_nil_r s : s +:+ "" = s.
Proof. induction s as [|c s IH]; [done|]. rewrite str_app_cons. by f_equal. Qed.

Lemma str_length_app s1 s2 :
  String.length (s1 +:+ s2) = (String.length s1 + String.length s2)%nat.
Proof.
  induction s1 as [|c s1 IH]; [done|]. rewrite str_app_cons. simpl.
  by f_equal.
Qed.

(** ** Decimal text of integers *)


Lemma str_forallb_app p s1 s2 :
  str_forallb p (s1 +:+ s2) = str_forallb p s1 && str_forallb p s2.
Proof.
  induction s1 as [|c s1 IH]; [done|]. rewrite str_app_cons. simpl.
  by rewrite IH, andb_assoc.
Qed.






(** ** The timeline of an EMOM block *)

Section Emom.
Context {rt : PyFloat}.

Lemma collect_slots_insert_all sts m :
  foldl (fun slots st => match st with
                         | EMOM_LINE slot ln _ => <[slot := ln]> slots
                         | LINE _ => slots
                         end) m sts
  = insert_all m (emom_lines sts).
Proof.
  revert m. induction sts as [|[ln|slot ln f] sts IH]; intros m; simpl;
    [done|apply IH|]. by rewrite IH.
Qed.

Lemma insert_all_spec l : forall m,
  NoDup (map fst l) ->
  (forall k, In k (map fst l) -> m !! k = None) ->
  size (insert_all m l) = (size m + length l)%nat
  /\ forall k v, insert_all m l !! k = Some v
                 <-> m !! k = Some v \/ In (k, v) l.
Proof.
  induction l as [|[k0 v0] l IH]; intros m Hnd Hfresh; simpl.
  - split; [lia|]. intros. tauto.
  - simpl in Hnd. apply NoDup_cons in Hnd as [Hk0 Hnd].
    destruct (IH (<[k0 := v0]> m) Hnd) as [Hsz Hlk].
    { intros k Hk. rewrite lookup_insert_ne.
      - apply Hfresh. simpl. by right.
      - intros ->. apply Hk0. by apply list_elem_of_In. }
    split.
    + rewrite Hsz, map_size_insert_None; [lia|].
      apply Hfresh. simpl. by left.
    + intros k v. rewrite Hlk. destruct (decide (k0 = k)) as [->|Hne].
      * rewrite lookup_insert_eq.
        assert (m !! k = None) as Hm by (apply Hfresh; simpl; by left).
        rewrite Hm. split.
        -- intros [[= ->]|H]; right; [by left | by right].
        -- intros [?|[[= ->]|H]]; [done|by left|by right].
      * rewrite lookup_insert_ne by done. split.
        -- intros [?|?]; [by left | right; by right].
        -- intros [?|[[= ? ?]|?]]; [by left|done|by right].
Qed.

Lemma seq_keys_NoDup N : NoDup (map Z.of_nat (seq 1 N)).
Proof.
  change (NoDup (Z.of_nat <$> seq 1 N)).
  apply NoDup_fmap_2; [intros x y; apply Nat2Z.inj | apply NoDup_seq].
Qed.

Lemma seq_keys_In N k :
  In k (map Z.of_nat (seq 1 N)) <-> 1 <= k <= Z.of_nat N.
Proof.
  rewrite in_map_iff. split.
  - intros (n & <- & Hn). apply in_seq in Hn. lia.
  - intros Hk. exists (Z.to_nat k). split; [lia|]. apply in_seq. lia.
Qed.

(** With slot-lines numbered 1 to N the dictionary [slots] has N keys,
    the numbers 1 to N, each bound to the line of its slot-line. *)
Lemma collect_slots_numbered sts N :
  slots_numbered sts N ->
  size (collect_slots sts) = N
  /\ forall k, 1 <= k <= Z.of_nat N ->
       exists ln f, collect_slots sts !! k = Some ln
                    /\ In (EMOM_LINE k ln f) sts.
Proof.
  intros Hperm. unfold collect_slots. rewrite collect_slots_insert_all.
  assert (NoDup (map fst (emom_lines sts))) as Hnd.
  { unfold slots_numbered in Hperm. rewrite Hperm. apply seq_keys_NoDup. }
  destruct (insert_all_spec (emom_lines sts) ∅ Hnd) as [Hsz Hlk].
  { intros. apply lookup_empty. }
  split.
  - rewrite Hsz, map_size_empty. simpl.
    rewrite <- (length_map fst), (Permutation_length Hperm).
    by rewrite length_map, length_seq.
  - intros k Hk.
    assert (In k (map fst (emom_lines sts))) as Hin.
    { eapply Permutation_in; [symmetry; exact Hperm|]. by apply seq_keys_In. }
    apply in_map_iff in Hin as ([k' ln] & Hk' & Hin). simpl in Hk'. subst k'.
    assert (exists f, In (EMOM_LINE k ln f) sts) as [f Hf].
    { unfold emom_lines in Hin. apply list_elem_of_In in Hin.
      apply list_elem_of_omap in Hin as (st & Hst & Heq).
      destruct st as [|slot ln' f]; [done|]. injection Heq as -> ->.
      exists f. by apply list_elem_of_In. }
    exists ln, f. split; [|done]. apply Hlk. by right.
Qed.

(** The rotation: with N > 0 slots numbered 1 to N the loop never misses
    a key, runs all its rounds and emits one event per round. *)
Lemma emom_loop_numbered sts N :
  slots_numbered sts N -> N <> 0%nat ->
  forall n i t, 0 <= i ->
    exists evs,
      emom_loop (collect_slots sts) n i t
      = Some (t + 60 * Z.of_nat n, evs)
      /\ length evs = n
      /\ forall j, (j < n)%nat ->
           exists ln f,
             In (EMOM_LINE ((i + Z.of_nat j) mod Z.of_nat N + 1) ln f) sts
             /\ evs !! j
                = Some (Event (t + 60 * Z.of_nat j)
                          (NEXT_SLOT ((i + Z.of_nat j) mod Z.of_nat N + 1)
                                     (render_line ln))).
Proof.
  intros Hnum HN. destruct (collect_slots_numbered sts N Hnum) as [Hsz Hlk].
  induction n as [|n IH]; intros i t Hi; simpl.
  - exists []. split; [do 2 f_equal; lia|]. split; [done|].
    intros j Hj. lia.
  - rewrite Hsz. destruct (decide (N = 0%nat)) as [|_]; [done|].
    destruct (Hlk (i mod Z.of_nat N + 1)) as (ln & f & Hln & Hin).
    { pose proof (Z.mod_pos_bound i (Z.of_nat N)). lia. }
    rewrite Hln. simpl.
    destruct (IH (i + 1) (t + 60) ltac:(lia)) as (evs & Hev & Hlen & Hj).
    rewrite Hev. simpl. eexists. split; [|split].
    + do 2 f_equal. lia.
    + simpl. by rewrite Hlen.
    + intros [|j] Hjn.
      * exists ln, f. replace (i + Z.of_nat 0) with i by lia.
        replace (t + 60 * Z.of_nat 0) with t by lia. by split.
      * destruct (Hj j ltac:(lia)) as (ln' & f' & Hin' & Hlk').
        exists ln', f'.
        replace (i + Z.of_nat (S j)) with (i + 1 + Z.of_nat j) by lia.
        replace (t + 60 * Z.of_nat (S j)) with (t + 60 + 60 * Z.of_nat j)
          by lia.
        by split.
Qed.

(** Without slot-lines the loop stops at once. *)
Lemma emom_loop_no_slots sts n i t :
  slots_numbered sts 0 ->
  emom_loop (collect_slots sts) n i t = Some (t, []).
Proof.
  intros Hnum. destruct (collect_slots_numbered sts 0 Hnum) as [Hsz _].
  destruct n; simpl; [done|]. rewrite Hsz. by destruct (decide _).
Qed.



Lemma timeline_segment_numbered t seg :
  (forall b d, seg = BLOCK b -> b_head b = EMOM d ->
               exists N, slots_numbered (b_stmts b) N) ->
  is_Some (timeline_segment t seg).
Proof.
  intros H. destruct seg as [sts|sts|d|b|]; simpl; try by eexists.
  destruct (b_head b) as [d|d| |r| |w r s|s w r] eqn:Hh; try by eexists.
  destruct (H b d eq_refl Hh) as [N Hnum].
  destruct (decide (N = 0%nat)) as [->|HN].
  - rewrite emom_loop_no_slots by done. by eexists.
  - destruct (emom_loop_numbered (b_stmts b) N Hnum HN
                (Z.to_nat (d / 60)) 0 t ltac:(lia)) as (evs & -> & _).
    by eexists.
Qed.

Lemma timeline_from_numbered segs : forall t,
  (forall b d, In (BLOCK b) segs -> b_head b = EMOM d ->
               exists N, slots_numbered (b_stmts b) N) ->
  is_Some (timeline_from t segs).
Proof.
  induction segs as [|seg segs IH]; intros t H; simpl; [by eexists|].
  destruct (timeline_segment_numbered t seg) as [[t1 e1] ->].
  { intros b d -> Hh. apply (H b d); [by left|done]. }
  simpl. destruct (IH t1) as [[t2 e2] ->]; [|by eexists].
  intros b d Hin. apply H. by right.
Qed.


End Emom.

(** ** The resolver: what it leaves behind *)

Lemma dict_get_In {A : Type} (d : list (string * A)) k v :
  dict_get d k = Some v -> In v (map snd d).
Proof.
  induction d as [|[k' v'] d IH]; simpl; [done|].
  destruct (String.eqb k k'); [intros [= ->]; by left | right; by apply IH].
Qed.

(** Every name the alias table maps to is left alone by the table. *)
Lemma alias_targets_fixed :
  Forall (fun v => _normalize_mv v = v) (map snd MOVEMENT_ALIASES).
Proof. repeat constructor. Qed.

Lemma _normalize_mv_idem s : _normalize_mv (_normalize_mv s) = _normalize_mv s.
Proof.
  unfold _normalize_mv at 2 3.
  destruct (dict_get MOVEMENT_ALIASES (str_lower s)) as [v|] eqn:E.
  - apply dict_get_In in E.
    pose proof alias_targets_fixed as H. rewrite List.Forall_forall in H.
    by apply H.
  - unfold _normalize_mv. by rewrite E.
Qed.

Section ResolverProps.
Context {rt : PyFloat}.
Variable catalog : option catalog_t.
Variable track : string.
Variable gender : string.

Lemma resolve_qty_not_dual q q' :
  resolve_qty gender q = Some q' -> qty_is_dual q' = false.
Proof. destruct q as [[]|]; simpl; intros [= <-]; done. Qed.

Lemma resolve_qty_fixed q :
  (forall x, q = Some x -> qty_is_dual x = false) ->
  resolve_qty gender q = q.
Proof.
  intros H. destruct q as [x|]; [|done].
  specialize (H x eq_refl). by destruct x.
Qed.

(** [resolve_load] returns its argument or a structured load. *)
Lemma resolve_load_cases l l' :
  resolve_load gender l = Some l' ->
  l' = l \/ exists s, l' = Some (LSimple s).
Proof.
  destruct l as [[s|a b|raw]|]; simpl.
  - intros [= <-]. by left.
  - intros [= <-]. right. by eexists.
  - destruct (re_match RE_resolve_load raw) as [[|a [|b [|unit [|? ?]]]]|];
      try (intros [= <-]; by left).
    repeat match goal with
    | |- context [if ?c then _ else _] => destruct c
    end;
    try (destruct (float_of_str _); simpl; [|done]; intros [= <-]; right;
         by eexists).
    intros [= <-]. by left.
  - intros [= <-]. by left.
Qed.

Lemma resolve_load_not_dual l x :
  resolve_load gender l = Some (Some x) -> load_is_dual x = false.
Proof.
  intros H. pose proof (resolve_load_cases l _ H) as [Heq|[s [= ->]]]; [|done].
  subst l. by destruct x as [s|a b|raw].
Qed.

Lemma resolve_load_idem l l' :
  resolve_load gender l = Some l' -> resolve_load gender l' = Some l'.
Proof.
  intros H. pose proof (resolve_load_cases l _ H) as [Heq|[s ->]]; [|done].
  by subst l'.
Qed.

Lemma catalog_qty_not_dual move tkey q q' :
  (forall x, q = Some x -> qty_is_dual x = false) ->
  catalog_qty gender move tkey q = Some q' -> qty_is_dual q' = false.
Proof.
  intros Hq. unfold catalog_qty.
  destruct (qty_wants_default q); [|by apply Hq].
  destruct (table_get (mv_reps move) tkey gender); [by intros [= <-]|].
  destruct (table_get (mv_distance move) tkey gender); [by intros [= <-]|].
  destruct (table_get (mv_cal move) tkey gender); [by intros [= <-]|].
  by apply Hq.
Qed.

Lemma catalog_qty_idem move tkey q :
  catalog_qty gender move tkey (catalog_qty gender move tkey q)
  = catalog_qty gender move tkey q.
Proof.
  unfold catalog_qty.
  destruct (qty_wants_default q) eqn:Hw; [|by rewrite Hw].
  destruct (table_get (mv_reps move) tkey gender) eqn:Hr; [done|].
  destruct (table_get (mv_distance move) tkey gender) eqn:Hd;
    [simpl; by destruct (float_is_zero _)|].
  destruct (table_get (mv_cal move) tkey gender) eqn:Hc; [done|].
  by rewrite Hw.
Qed.

(** What [catalog_load] can return for a line without a load. *)
Lemma catalog_load_cases move tkey l' :
  catalog_load gender move tkey None = Some l' ->
  l' = None \/ (exists s, l' = Some (LSimple s))
  \/ exists ld, table_get (mv_load move) tkey gender = Some (CLDict ld)
                /\ l' = Some ld.
Proof.
  unfold catalog_load.
  destruct (table_get (mv_load move) tkey gender) as [[ld|ld|]|];
    try (intros [= <-]; by left).
  - destruct (re_match RE_catalog_load ld) as [[|a [|b [|? ?]]]|];
      try (intros [= <-]; by left).
    repeat match goal with
    | |- context [if ?c then _ else _] => destruct c
    end;
    try (destruct (float_of_str _); simpl; [|done]; intros [= <-]; right; left;
         by eexists).
    intros [= <-]. by left.
  - intros [= <-]. right. right. by eexists.
Qed.

Lemma catalog_load_some move tkey x :
  catalog_load gender move tkey (Some x) = Some (Some x).
Proof. done. Qed.

(** The entry [apply_catalog_line] reads is an entry of the catalog, or
    empty. *)
Lemma move_entry_default (P : load -> Prop) c mv tkey ld :
  catalog_load_defaults P (Some c) tkey gender ->
  table_get (mv_load (default empty_entry (movements c !! mv))) tkey gender
  = Some (CLDict ld) ->
  P ld.
Proof.
  intros Hcat. unfold table_get.
  destruct (movements c !! mv) as [e|] eqn:He; simpl.
  - destruct (mv_load e !! tkey) as [g|] eqn:Hg; simpl; [|done].
    intros Hl. by eapply Hcat.
  - by rewrite lookup_empty.
Qed.

Lemma resolve_line_no_dual ln ln' ns :
  catalog_load_defaults (fun l => load_is_dual l = false) catalog
    (str_lower track) gender ->
  resolve_line catalog track gender ln = Some (ln', ns) ->
  line_no_dual ln'.
Proof.
  intros Hcat. unfold resolve_line.
  destruct (resolve_load gender (ln_load ln)) as [l1|] eqn:Hl; simpl; [|done].
  unfold apply_catalog_line.
  destruct catalog as [c|]; simpl.
  - match goal with
    | |- context [catalog_load gender ?m ?k l1] =>
        destruct (catalog_load gender m k l1) as [l2|] eqn:Hl2
    end; simpl; [|done].
    intros [= <- <-]. split; simpl.
    + intros q. apply catalog_qty_not_dual. intros x.
      apply resolve_qty_not_dual.
    + intros l Hl'. subst l2. destruct l1 as [x|].
      * rewrite catalog_load_some in Hl2. injection Hl2 as <-.
        by eapply resolve_load_not_dual.
      * apply catalog_load_cases in Hl2 as [?|[[s [= ->]]|(ld & Hld & [= ->])]];
          [done..|].
        exact (move_entry_default _ _ _ _ _ Hcat Hld).
  - intros [= <- <-]. split; simpl.
    + intros q. apply resolve_qty_not_dual.
    + intros l ->. by eapply resolve_load_not_dual.
Qed.

Lemma resolve_line_idem ln ln' ns :
  catalog_load_defaults
    (fun l => resolve_load gender (Some l) = Some (Some l)) catalog
    (str_lower track) gender ->
  resolve_line catalog track gender ln = Some (ln', ns) ->
  resolve_line catalog track gender ln' = Some (ln', []).
Proof.
  intros Hcat. unfold resolve_line at 1.
  destruct (resolve_load gender (ln_load ln)) as [l1|] eqn:Hl; simpl; [|done].
  set (mv := ln_movement ln).
  set (renamed := negb (String.eqb mv "")
                  && negb (String.eqb (_normalize_mv mv) mv)).
  set (mv' := if renamed then _normalize_mv mv else mv).
  assert (negb (String.eqb mv' "")
          && negb (String.eqb (_normalize_mv mv') mv') = false) as Hmv.
  { subst mv' renamed.
    destruct (String.eqb mv "") eqn:E1; simpl; [by rewrite E1|].
    destruct (String.eqb (_normalize_mv mv) mv) eqn:E2; simpl.
    - by rewrite E1, E2.
    - rewrite _normalize_mv_idem, String.eqb_refl. apply andb_false_r. }
  unfold apply_catalog_line.
  destruct catalog as [c|]; simpl.
  - match goal with
    | |- context [catalog_load gender ?m ?k l1] =>
        set (move := m); set (tkey := k);
        destruct (catalog_load gender move tkey l1) as [l2|] eqn:Hl2
    end; simpl; [|done].
    intros [= <- <-]. unfold resolve_line. simpl. rewrite Hmv.
    assert (resolve_load gender l2 = Some l2) as ->.
    { destruct l1 as [x|].
      - rewrite catalog_load_some in Hl2. injection Hl2 as <-.
        by eapply resolve_load_idem.
      - apply catalog_load_cases in Hl2 as [->|[[s ->]|(ld & Hld & ->)]];
          [done..|].
        exact (move_entry_default _ _ _ _ _ Hcat Hld). }
    simpl. fold move tkey.
    rewrite resolve_qty_fixed.
    2:{ intros x. apply catalog_qty_not_dual. intros y.
        apply resolve_qty_not_dual. }
    rewrite catalog_qty_idem.
    assert (catalog_load gender move tkey l2 = Some l2) as ->.
    { destruct l2 as [x|]; [done|]. destruct l1 as [x|]; [done|]. done. }
    done.
  - intros [= <- <-]. unfold resolve_line. simpl. rewrite Hmv.
    rewrite (resolve_load_idem _ _ Hl). simpl.
    rewrite resolve_qty_fixed; [done|].
    intros x. apply resolve_qty_not_dual.
Qed.

Lemma resolve_stmts_no_dual in_block sts sts' ns :
  catalog_load_defaults (fun l => load_is_dual l = false) catalog
    (str_lower track) gender ->
  resolve_stmts catalog track gender in_block sts = Some (sts', ns) ->
  Forall line_no_dual
         (if in_block then map stmt_line sts' else plain_lines sts').
Proof.
  intros Hcat. revert sts' ns.
  induction sts as [|st sts IH]; intros sts' ns; simpl.
  - intros [= <- <-]. by destruct in_block; constructor.
  - destruct (resolve_stmt catalog track gender in_block st)
      as [[st' n1]|] eqn:Hst; simpl; [|done].
    destruct (resolve_stmts catalog track gender in_block sts)
      as [[sts'' n2]|] eqn:Hsts; simpl; [|done].
    intros [= <- <-]. specialize (IH _ _ eq_refl).
    destruct st as [ln|slot ln f]; simpl in Hst.
    + destruct (resolve_line catalog track gender ln) as [[ln' n]|] eqn:Hln;
        simpl in Hst; [|done]. injection Hst as <- <-.
      apply resolve_line_no_dual in Hln; [|done].
      destruct in_block; simpl; by constructor.
    + destruct in_block.
      * destruct (resolve_line catalog track gender ln) as [[ln' n]|] eqn:Hln;
          simpl in Hst; [|done]. injection Hst as <- <-.
        apply resolve_line_no_dual in Hln; [|done]. simpl. by constructor.
      * injection Hst as <- <-. done.
Qed.

Lemma resolve_stmts_idem in_block sts sts' ns :
  catalog_load_defaults
    (fun l => resolve_load gender (Some l) = Some (Some l)) catalog
    (str_lower track) gender ->
  resolve_stmts catalog track gender in_block sts = Some (sts', ns) ->
  resolve_stmts catalog track gender in_block sts' = Some (sts', []).
Proof.
  intros Hcat. revert sts' ns.
  induction sts as [|st sts IH]; intros sts' ns; simpl.
  - by intros [= <- <-].
  - destruct (resolve_stmt catalog track gender in_block st)
      as [[st' n1]|] eqn:Hst; simpl; [|done].
    destruct (resolve_stmts catalog track gender in_block sts)
      as [[sts'' n2]|] eqn:Hsts; simpl; [|done].
    intros [= <- <-]. simpl. rewrite (IH _ _ eq_refl).
    assert (resolve_stmt catalog track gender in_block st' = Some (st', []))
      as ->; [|done].
    destruct st as [ln|slot ln f]; simpl in Hst.
    + destruct (resolve_line catalog track gender ln) as [[ln' n]|] eqn:Hln;
        simpl in Hst; [|done]. injection Hst as <- <-. simpl.
      by rewrite (resolve_line_idem _ _ _ Hcat Hln).
    + destruct in_block.
      * destruct (resolve_line catalog track gender ln) as [[ln' n]|] eqn:Hln;
          simpl in Hst; [|done]. injection Hst as <- <-. simpl.
        by rewrite (resolve_line_idem _ _ _ Hcat Hln).
      * by injection Hst as <- <-.
Qed.

Lemma resolve_program_no_dual segs segs' ns :
  catalog_load_defaults (fun l => load_is_dual l = false) catalog
    (str_lower track) gender ->
  resolve_program catalog track gender segs = Some (segs', ns) ->
  Forall line_no_dual (flat_map segment_read_lines segs').
Proof.
  intros Hcat. revert segs' ns.
  induction segs as [|seg segs IH]; intros segs' ns; simpl.
  - intros [= <- <-]. constructor.
  - destruct (resolve_segment catalog track gender seg)
      as [[seg' n1]|] eqn:Hseg; simpl; [|done].
    destruct (resolve_program catalog track gender segs)
      as [[segs'' n2]|] eqn:Hsegs; simpl; [|done].
    intros [= <- <-]. simpl. apply Forall_app. split; [|by eapply IH].
    destruct seg as [sts|sts|d|b|]; simpl in Hseg;
      try (injection Hseg as <- <-; constructor).
    + destruct (resolve_stmts catalog track gender false sts)
        as [[sts' n]|] eqn:Hsts; simpl in Hseg; [|done].
      injection Hseg as <- <-.
      by apply (resolve_stmts_no_dual false) in Hsts.
    + destruct (resolve_stmts catalog track gender false sts)
        as [[sts' n]|] eqn:Hsts; simpl in Hseg; [|done].
      injection Hseg as <- <-.
      by apply (resolve_stmts_no_dual false) in Hsts.
    + destruct (resolve_stmts catalog track gender true (b_stmts b))
        as [[sts' n]|] eqn:Hsts; simpl in Hseg; [|done].
      injection Hseg as <- <-.
      by apply (resolve_stmts_no_dual true) in Hsts.
Qed.

Lemma resolve_program_idem segs segs' ns :
  catalog_load_defaults
    (fun l => resolve_load gender (Some l) = Some (Some l)) catalog
    (str_lower track) gender ->
  resolve_program catalog track gender segs = Some (segs', ns) ->
  resolve_program catalog track gender segs' = Some (segs', []).
Proof.
  intros Hcat. revert segs' ns.
  induction segs as [|seg segs IH]; intros segs' ns; simpl.
  - by intros [= <- <-].
  - destruct (resolve_segment catalog track gender seg)
      as [[seg' n1]|] eqn:Hseg; simpl; [|done].
    destruct (resolve_program catalog track gender segs)
      as [[segs'' n2]|] eqn:Hsegs; simpl; [|done].
    intros [= <- <-]. simpl. rewrite (IH _ _ eq_refl).
    assert (resolve_segment catalog track gender seg' = Some (seg', []))
      as ->; [|done].
    destruct seg as [sts|sts|d|b|]; simpl in Hseg;
      try (by injection Hseg as <- <-).
    + destruct (resolve_stmts catalog track gender false sts)
        as [[sts' n]|] eqn:Hsts; simpl in Hseg; [|done].
      injection Hseg as <- <-. simpl.
      by rewrite (resolve_stmts_idem _ _ _ _ Hcat Hsts).
    + destruct (resolve_stmts catalog track gender false sts)
        as [[sts' n]|] eqn:Hsts; simpl in Hseg; [|done].
      injection Hseg as <- <-. simpl.
      by rewrite (resolve_stmts_idem _ _ _ _ Hcat Hsts).
    + destruct (resolve_stmts catalog track gender true (b_stmts b))
        as [[sts' n]|] eqn:Hsts; simpl in Hseg; [|done].
      injection Hseg as <- <-. simpl.
      by rewrite (resolve_stmts_idem _ _ _ _ Hcat Hsts).
Qed.

(** C2, amended. When no load default of the catalog is itself a dual
    load, the resolver leaves no dual quantity and no dual load on any
    line of a BLOCK (plain or of a slot-line) nor on any plain line of a
    BUYIN or CASHOUT. *)
Theorem resolved_lines_have_no_dual :
  forall (a a' : ast),
    catalog_load_defaults (fun l => load_is_dual l = false) catalog
    (str_lower track) gender ->
    _apply_catalog_and_resolve catalog track gender a = Some a' ->
    Forall line_no_dual (ast_read_lines a').
Proof.
  intros a a' Hcat. unfold _apply_catalog_and_resolve.
  destruct (resolve_program catalog track gender (a_program a))
    as [[prog ns]|] eqn:Hprog; simpl; [|done].
  intros [= <-]. unfold ast_read_lines. simpl.
  by eapply resolve_program_no_dual.
Qed.

(** C6, amended. When every load default of the catalog is a load that
    [resolve_load] returns unchanged, a second run of the resolver on the
    AST left by a first run leaves that AST, [meta.normalized] included,
    as it is. *)
Theorem resolver_idempotent :
  forall (a a' : ast),
    catalog_load_defaults
      (fun l => resolve_load gender (Some l) = Some (Some l)) catalog
      (str_lower track) gender ->
    _apply_catalog_and_resolve catalog track gender a = Some a' ->
    _apply_catalog_and_resolve catalog track gender a' = Some a'.
Proof.
  intros a a' Hcat. unfold _apply_catalog_and_resolve at 1.
  destruct (resolve_program catalog track gender (a_program a))
    as [[prog ns]|] eqn:Hprog; simpl; [|done].
  intros [= <-]. unfold _apply_catalog_and_resolve. simpl.
  rewrite (resolve_program_idem _ _ _ Hcat Hprog). simpl.
  unfold set_default_normalized. simpl.
  by destruct (m_normalized (a_meta a)).
Qed.

End ResolverProps.

(** ** The text normalizer *)

Module FmtFacts.
Import Fmt.

Lemma LF_is_space : is_space LF = true.
Proof. reflexivity. Qed.

Lemma LF_is_linebreak : is_linebreak LF = true.
Proof. reflexivity. Qed.

(** *** [rstrip_by] *)

Lemma rstrip_by_snoc p s c :
  rstrip_by p (s ++ [c]) = if p c then rstrip_by p s else s ++ [c].
Proof.
  induction s as [|x s IH]; simpl.
  - by destruct (p c).
  - rewrite IH. destruct (p c) eqn:Hc; [done|].
    by destruct (s ++ [c]) eqn:E; [destruct s|].
Qed.

Lemma rstrip_by_Forall (Q : N -> Prop) p s :
  Forall Q s -> Forall Q (rstrip_by p s).
Proof.
  induction 1 as [|x s Hx Hs IH]; simpl; [constructor|].
  destruct (rstrip_by p s);
    [destruct (p x); [constructor | by constructor] | by constructor].
Qed.

(** The result is empty or ends with a character that is kept. *)
Lemma rstrip_by_last p s :
  match last (rstrip_by p s) with
  | Some c => p c = false
  | None => rstrip_by p s = []
  end.
Proof.
  induction s as [|x s IH]; simpl; [done|].
  destruct (rstrip_by p s) as [|y r] eqn:E.
  - destruct (p x) eqn:Hx; simpl; done.
  - change (last (x :: y :: r)) with (last (y :: r)).
    by destruct (last (y :: r)).
Qed.

Lemma rstrip_by_fixed p s :
  match last s with Some c => p c = false | None => True end ->
  rstrip_by p s = s.
Proof.
  induction s as [|s c _] using rev_ind; [done|].
  rewrite last_snoc, rstrip_by_snoc. by intros ->.
Qed.

Lemma rstrip_by_idem p s : rstrip_by p (rstrip_by p s) = rstrip_by p s.
Proof.
  apply rstrip_by_fixed. pose proof (rstrip_by_last p s) as H.
  by destruct (last (rstrip_by p s)).
Qed.

(** *** [splitlines] *)

Lemma splitlines_nolb_aux n : forall s,
  (length s <= n)%nat ->
  Forall (Forall (fun c => is_linebreak c = false)) (splitlines s).
Proof.
  induction n as [|n IH]; intros [|c s] Hlen; simpl in *;
    try (constructor || lia).
  destruct (is_linebreak c) eqn:Hc.
  - constructor; [constructor|].
    destruct (c =? CR)%N; [|apply IH; lia].
    destruct s as [|c' s']; [constructor|].
    destruct (c' =? LF)%N; apply IH; simpl in *; lia.
  - pose proof (IH s ltac:(lia)) as Hs.
    destruct (splitlines s) as [|l ls]; [by repeat constructor|].
    apply Forall_cons in Hs as [Hl Hls]. by repeat constructor.
Qed.

Lemma splitlines_nolb s :
  Forall (Forall (fun c => is_linebreak c = false)) (splitlines s).
Proof. by apply (splitlines_nolb_aux (length s)). Qed.

(** A line without boundary, its newline, and the rest. *)
Lemma splitlines_line l s :
  Forall (fun c => is_linebreak c = false) l ->
  splitlines (l ++ LF :: s) = l :: splitlines s.
Proof.
  induction 1 as [|c l Hc Hl IH]; simpl; [done|].
  by rewrite Hc, IH.
Qed.

(** *** [collapse] *)

Lemma collapse_clean pb lines :
  Forall (Forall (fun c => is_linebreak c = false)) lines ->
  Forall clean_line (collapse pb lines)
  /\ blanks_ok pb (collapse pb lines) = true.
Proof.
  intros H. revert pb. induction H as [|l lines Hl Hls IH]; intros pb; simpl.
  - by split.
  - assert (clean_line (rstrip l)) as Hclean.
    { split; [by apply rstrip_by_Forall | apply rstrip_by_idem]. }
    destruct (rstrip l) as [|c r] eqn:E; simpl.
    + destruct pb; simpl; [apply IH|].
      destruct (IH true) as [H1 H2]. split; [by constructor|done].
    + destruct (IH false) as [H1 H2]. split; [by constructor|done].
Qed.

Lemma collapse_tidy pb ls :
  Forall clean_line ls -> blanks_ok pb ls = true -> collapse pb ls = ls.
Proof.
  intros H. revert pb. induction H as [|l ls [_ Hl] Hls IH]; intros pb; simpl;
    [done|].
  rewrite Hl. intros Hb. apply andb_true_iff in Hb as [Hb1 Hb2].
  destruct l as [|c l]; simpl in *.
  - destruct pb; [done|]. by rewrite IH.
  - by rewrite IH.
Qed.

(** *** [join_lines] *)

Lemma join_lines_cons l ls :
  ls <> [] -> join_lines (l :: ls) = l ++ LF :: join_lines ls.
Proof. by destruct ls. Qed.

Lemma join_lines_snoc ls l :
  ls <> [] -> join_lines (ls ++ [l]) = join_lines ls ++ LF :: l.
Proof.
  induction ls as [|x ls IH]; [done|]. intros _.
  destruct ls as [|y ls]; [done|].
  change ((x :: y :: ls) ++ [l]) with (x :: ((y :: ls) ++ [l])).
  rewrite join_lines_cons by (by destruct ls).
  rewrite IH by done. rewrite (join_lines_cons x (y :: ls)) by done.
  by rewrite <- app_assoc.
Qed.

(** The last character of the joined lines is that of the last line. *)
Lemma join_lines_last ls l :
  l <> [] -> last (join_lines (ls ++ [l])) = last l.
Proof.
  intros Hl. destruct (decide (ls = [])) as [->|Hls]; [done|].
  rewrite join_lines_snoc by done.
  rewrite last_app. destruct l as [|c l]; [done|].
  change (last (LF :: c :: l)) with (last (c :: l)).
  by destruct (last (c :: l)) eqn:E; [|apply last_None in E].
Qed.

Lemma join_catl ls : ls <> [] -> join_lines ls ++ [LF] = catl ls.
Proof.
  induction ls as [|l ls IH]; [done|]. intros _.
  destruct ls as [|l' ls]; [done|].
  rewrite join_lines_cons by done.
  change (catl (l :: l' :: ls)) with (l ++ LF :: catl (l' :: ls)).
  rewrite <- IH by done. by rewrite <- app_assoc.
Qed.

Lemma splitlines_catl ls :
  Forall (Forall (fun c => is_linebreak c = false)) ls ->
  splitlines (catl ls) = ls.
Proof.
  induction 1 as [|l ls Hl Hls IH]; simpl; [done|].
  by rewrite splitlines_line, IH.
Qed.

(** *** Blank lines in a row *)

Lemma blanks_ok_snoc pb ls l :
  blanks_ok pb (ls ++ [l]) = true ->
  blanks_ok pb ls = true /\ (l = [] -> last ls <> Some []).
Proof.
  revert pb. induction ls as [|x ls IH]; intros pb; simpl.
  - intros _. by split.
  - intros H. apply andb_true_iff in H as [H1 H2].
    destruct (IH _ H2) as [H3 H4]. rewrite H1, H3. split; [done|].
    intros ->. specialize (H4 eq_refl).
    destruct ls as [|y ls]; [|done]. simpl in *.
    destruct x; [|done]. simpl in H2. done.
Qed.

(** *** Tidy lists of lines *)

Lemma clean_line_last l :
  clean_line l ->
  match last l with Some c => (LF =? c)%N = false | None => True end.
Proof.
  intros [_ Hl]. pose proof (rstrip_by_last is_space l) as H.
  unfold rstrip in Hl. rewrite Hl in H.
  destruct (last l) as [c|]; [|done].
  destruct (N.eqb_spec LF c) as [<-|]; [|done]. by rewrite LF_is_space in H.
Qed.

Lemma tidy_rstrip ls :
  tidy ls -> rstrip_by (N.eqb LF) (join_lines ls) = join_lines ls.
Proof.
  intros (Hclean & _ & Hlast). apply rstrip_by_fixed.
  destruct ls as [|l ls _] using rev_ind; [done|].
  rewrite last_snoc in Hlast.
  rewrite join_lines_last by (by destruct l).
  apply clean_line_last. apply Forall_app in Hclean as [_ Hl].
  by apply Forall_cons in Hl as [Hl _].
Qed.

(** Dropping the newlines that end the joined lines drops the blank line
    that may end the list. *)
Lemma join_rstrip_tidy ls :
  Forall clean_line ls -> blanks_ok false ls = true ->
  exists ls', tidy ls'
    /\ rstrip_by (N.eqb LF) (join_lines ls) = join_lines ls'.
Proof.
  intros Hclean Hb.
  destruct ls as [|l ls _] using rev_ind; [by exists []|].
  destruct l as [|c l].
  - apply blanks_ok_snoc in Hb as [Hb Hlast]. specialize (Hlast eq_refl).
    apply Forall_app in Hclean as [Hclean _].
    assert (tidy ls) as Ht by done.
    exists ls. split; [done|].
    destruct (decide (ls = [])) as [->|Hne]; [done|].
    rewrite join_lines_snoc by done.
    rewrite rstrip_by_snoc. simpl. by apply tidy_rstrip.
  - assert (tidy (ls ++ [c :: l])) as Ht.
    { repeat split; [done..|]. by rewrite last_snoc. }
    exists (ls ++ [c :: l]). split; [done|]. by apply tidy_rstrip.
Qed.

(** The normalized text is a tidy list of lines, joined, and a newline. *)
Lemma normalize_shape t :
  exists ls, tidy ls /\ _normalize_wod_text t = join_lines ls ++ [LF].
Proof.
  unfold _normalize_wod_text.
  destruct (collapse_clean false (splitlines t) (splitlines_nolb t))
    as [Hclean Hb].
  destruct (join_rstrip_tidy _ Hclean Hb) as (ls & Ht & ->). by exists ls.
Qed.

Lemma clean_lines_nolb ls :
  Forall clean_line ls ->
  Forall (Forall (fun c => is_linebreak c = false)) ls.
Proof. intros H. eapply Forall_impl; [exact H|]. by intros l [Hl _]. Qed.

(** A tidy text is left as it is. *)
Lemma normalize_tidy ls :
  tidy ls ->
  _normalize_wod_text (join_lines ls ++ [LF]) = join_lines ls ++ [LF].
Proof.
  intros Ht. destruct (decide (ls = [])) as [->|Hne]; [done|].
  unfold _normalize_wod_text. rewrite join_catl by done.
  destruct Ht as (Hclean & Hb & Hlast).
  rewrite splitlines_catl by (by apply clean_lines_nolb).
  rewrite collapse_tidy by done.
  rewrite tidy_rstrip by done. by rewrite join_catl.
Qed.

(** *** Newlines in a row *)

Lemma no3_cons c s : (c =? LF)%N = false -> no3 (c :: s) = no3 s.
Proof.
  intros Hc. simpl. rewrite Hc. simpl. by destruct s as [|? [|? ?]].
Qed.

Lemma no3_skip l s :
  Forall (fun c => (c =? LF)%N = false) l -> no3 (l ++ s) = no3 s.
Proof.
  induction 1 as [|c l Hc Hl IH]; [done|]. simpl app.
  by rewrite no3_cons.
Qed.

Lemma no3_LF s : head2LF s = false -> no3 (LF :: s) = no3 s.
Proof.
  intros H. simpl. destruct s as [|a [|b s]]; [done..|].
  simpl in H. by rewrite H.
Qed.

Lemma nolb_not_LF l :
  Forall (fun c => is_linebreak c = false) l ->
  Forall (fun c => (c =? LF)%N = false) l.
Proof.
  intros H. eapply Forall_impl; [exact H|]. intros c Hc. simpl in Hc.
  destruct (N.eqb_spec c LF) as [->|]; [|done]. by rewrite LF_is_linebreak in Hc.
Qed.

Lemma no3_catl ls : forall pb,
  Forall clean_line ls -> blanks_ok pb ls = true -> last ls <> Some [] ->
  no3 (catl ls) = true /\ head2LF (catl ls) = false.
Proof.
  induction ls as [|l ls IH]; intros pb Hclean Hb Hlast; [done|].
  apply Forall_cons in Hclean as [[Hl _] Hclean].
  apply nolb_not_LF in Hl.
  simpl in Hb. apply andb_true_iff in Hb as [_ Hb].
  assert (last ls <> Some []) as Hlast'.
  { destruct ls; [done|]. exact Hlast. }
  destruct (IH _ Hclean Hb Hlast') as [IH1 IH2].
  destruct l as [|c l].
  - change (catl ([] :: ls)) with (LF :: catl ls).
    rewrite no3_LF by exact IH2. split; [exact IH1|].
    destruct ls as [|[|c r] ls]; [done|done|].
    apply Forall_cons in Hclean as [[Hc _] _].
    apply nolb_not_LF in Hc. apply Forall_cons in Hc as [Hc _].
    change (catl ((c :: r) :: ls)) with (c :: (r ++ LF :: catl ls)).
    unfold head2LF. by rewrite Hc.
  - apply Forall_cons in Hl as [Hc Hl].
    change (catl ((c :: l) :: ls)) with (c :: (l ++ LF :: catl ls)). split.
    + rewrite no3_cons, no3_skip, no3_LF by done. exact IH1.
    + unfold head2LF. destruct (l ++ LF :: catl ls); [done|]. by rewrite Hc.
Qed.

Lemma no3_spec s :
  no3 s = true -> forall pre post, s <> pre ++ [LF; LF; LF] ++ post.
Proof.
  intros H pre. revert s H. induction pre as [|c pre IH]; intros s H post ->.
  - done.
  - simpl in H. apply andb_true_iff in H as [_ H].
    by apply (IH _ H post).
Qed.

(** C8. For every text, normalizing the normalized text changes
    nothing; the normalized text nowhere holds three newlines in a row;
    and it ends with a newline that no other newline precedes. *)
Theorem normalize_idempotent_and_tidy :
  forall t : text,
    _normalize_wod_text (_normalize_wod_text t) = _normalize_wod_text t
    /\ (forall pre post,
          _normalize_wod_text t <> pre ++ [LF; LF; LF] ++ post)
    /\ (exists body,
          _normalize_wod_text t = body ++ [LF] /\ last body <> Some LF).
Proof.
  intros t. destruct (normalize_shape t) as (ls & Ht & ->).
  split; [by apply normalize_tidy|]. split.
  - apply no3_spec. destruct (decide (ls = [])) as [->|Hne]; [done|].
    rewrite join_catl by done. destruct Ht as (Hclean & Hb & Hlast).
    by destruct (no3_catl ls false Hclean Hb Hlast).
  - exists (join_lines ls). split; [done|].
    pose proof (tidy_rstrip ls Ht) as Hfix.
    pose proof (rstrip_by_last (N.eqb LF) (join_lines ls)) as Hl.
    rewrite Hfix in Hl. destruct (last (join_lines ls)) as [c|]; [|done].
    intros [= ->]. done.
Qed.

End FmtFacts.

(** ** Instances of the properties, and inputs that refute the
    unamended claims *)

Lemma one_load_catalog_defaults {rt : PyFloat} (P : load -> Prop) (l : load) :
  P l -> catalog_load_defaults P (Some (one_load_catalog l)) "rx" "male".
Proof.
  intros HP c mv e g l' [= <-] Hmv Hg Hl. simpl in Hmv.
  apply lookup_singleton_Some in Hmv as [_ <-]. simpl in Hg.
  apply lookup_singleton_Some in Hg as [_ <-].
  apply lookup_singleton_Some in Hl as [_ [= <-]]. exact HP.
Qed.

(** The seed program resolved for gender female: its first line has the
    quantity [cal] of value 12.0. *)
Lemma dual_selection_by_gender_witness :
  float_of_str (PyFloat := DecimalFloat.runtime) "12" = Some (12, 0%nat)
  /\ exists a,
       seed6_ast (rt := DecimalFloat.runtime)
         ≫= _apply_catalog_and_resolve None "RX" "female" = Some a
       /\ (ln_qty <$> first_line a)
          = Some (Some (@QCal DecimalFloat.runtime (12, 0%nat))).
Proof.
  split; [reflexivity|].
  destruct (dual_selection_by_gender (rt := DecimalFloat.runtime))
    as (_ & _ & _ & _ & _ & _ & _ & _ & H).
  apply (H (15, 0%nat) (12, 0%nat) "RX"); reflexivity.
Defined.



(** C2, as stated, fails: the dual load a catalog holds as a default is
    put on the line as it is. Here [BLOCK FT { 10 thrusters; }] is
    resolved for track RX and gender male with a catalog whose default
    load of [thrusters] is the dual load 43kg / 30kg. *)
Lemma dual_default_stays_dual :
  _apply_catalog_and_resolve
    (Some (one_load_catalog (LDual (kg 43) (kg 30)))) "RX" "male"
    (ten_thrusters None None)
  = Some (ten_thrusters (Some []) (Some (LDual (kg 43) (kg 30))))
  /\ ~ Forall line_no_dual
         (ast_lines (ten_thrusters (Some []) (Some (LDual (kg 43) (kg 30))))).
Proof.
  split; [reflexivity|]. intros H.
  apply Forall_cons in H as [[_ H] _].
  specialize (H _ eq_refl). discriminate H.
Qed.

(** With a default that is not dual, no dual load is left. *)
Lemma resolved_lines_have_no_dual_witness :
  catalog_load_defaults (fun l => load_is_dual l = false)
    (Some (one_load_catalog (LSimple (kg 43)))) (str_lower "RX") "male"
  /\ Forall line_no_dual
       (ast_read_lines (ten_thrusters (Some []) (Some (LSimple (kg 43))))).
Proof.
  assert (catalog_load_defaults (fun l => load_is_dual l = false)
            (Some (one_load_catalog (LSimple (kg 43)))) (str_lower "RX") "male")
    as Hcat by (by apply one_load_catalog_defaults).
  split; [exact Hcat|].
  exact (resolved_lines_have_no_dual
           (Some (one_load_catalog (LSimple (kg 43)))) "RX" "male"
           (ten_thrusters None None) _ Hcat eq_refl).
Defined.

(** C6, as stated, fails: with the same catalog a first run puts the dual
    default on the line and a second run resolves it. *)
Lemma second_run_resolves_dual_default :
  let cat := Some (one_load_catalog (LDual (kg 43) (kg 30))) in
  let a1 := ten_thrusters (Some []) (Some (LDual (kg 43) (kg 30))) in
  let a2 := ten_thrusters (Some []) (Some (LSimple (kg 43))) in
  _apply_catalog_and_resolve cat "RX" "male" (ten_thrusters None None)
  = Some a1
  /\ _apply_catalog_and_resolve cat "RX" "male" a1 = Some a2
  /\ a1 <> a2.
Proof. repeat split; discriminate. Qed.

(** With a default that [resolve_load] keeps, the second run changes
    nothing. *)
Lemma resolver_idempotent_witness :
  let cat := Some (one_load_catalog (LSimple (kg 43))) in
  let a1 := ten_thrusters (Some []) (Some (LSimple (kg 43))) in
  catalog_load_defaults
    (fun l => resolve_load "male" (Some l) = Some (Some l)) cat
    (str_lower "RX") "male"
  /\ _apply_catalog_and_resolve cat "RX" "male" (ten_thrusters None None)
     = Some a1
  /\ _apply_catalog_and_resolve cat "RX" "male" a1 = Some a1.
Proof.
  assert (catalog_load_defaults
            (fun l => resolve_load "male" (Some l) = Some (Some l))
            (Some (one_load_catalog (LSimple (kg 43)))) (str_lower "RX") "male")
    as Hcat by (by apply one_load_catalog_defaults).
  split; [exact Hcat|]. split; [reflexivity|].
  exact (resolver_idempotent
           (Some (one_load_catalog (LSimple (kg 43)))) "RX" "male"
           (ten_thrusters None None) _ Hcat eq_refl).
Defined.

(** ** Rendering a line and reading it again *)

(** *** The first character of a token *)












(** *** The loop of [line] *)

Section LineLoop.
Context {rt : PyFloat}.

Lemma line_loop_app xs ys acc :
  ToAST.line_loop (xs ++ ys) acc = ToAST.line_loop ys (ToAST.line_loop xs acc).
Proof. revert acc. induction xs as [|x xs IH]; intros acc; simpl; [done|]. apply IH. Qed.

Lemma line_loop_strs ss acc :
  ToAST.line_loop (map NStr ss) acc
  = Line (ln_qty acc) (ln_movement acc) (ln_load acc) (ln_flags acc ++ ss).
Proof.
  revert acc. induction ss as [|s ss IH]; intros acc; simpl.
  - rewrite app_nil_r. by destruct acc.
  - rewrite IH. simpl. by rewrite <- app_assoc.
Qed.

Lemma movement_idents ids :
  ToAST.movement (map (NTok "IDENT") ids) = Some (NMv (str_join "_" ids)).
Proof.
  unfold ToAST.movement.
  assert (mapM node_raw (map (NTok "IDENT") ids) = Some ids) as ->; [|done].
  induction ids as [|i ids IH]; simpl; [done|]. by rewrite IH.
Qed.

Lemma suffix_nodes sfx :
  mapM suffix_node sfx = Some (map NStr (map suffix_text sfx)).
Proof.
  induction sfx as [|s sfx IH]; simpl; [done|]. rewrite IH. by destruct s.
Qed.

Lemma qty_node_is_qty q n : qty_node q = Some n -> exists q', n = NQty q'.
Proof.
  destruct q as [s|s|s|s|s|s|s]; simpl.
  - unfold ToAST.dual_reps. simpl.
    destruct (ToAST.split2 "/" s) as [[a b]|]; simpl; [|done].
    destruct (py_int_of_str a); simpl; [|done].
    destruct (py_int_of_str b); simpl; [|done]. intros [= <-]. eauto.
  - unfold ToAST.dual_cal. simpl.
    destruct (ToAST.split2 "/" _) as [[a b]|]; simpl; [|done].
    destruct (float_of_str a); simpl; [|done].
    destruct (float_of_str b); simpl; [|done]. intros [= <-]. eauto.
  - unfold ToAST.dual_distance. simpl.
    destruct (re_match ToAST.RE_dual_distance s)
      as [[|a [|b [|u [|? ?]]]]|]; try (intros [= <-]; eauto).
    destruct (float_of_str a); simpl; [|done].
    destruct (float_of_str b); simpl; [|done]. intros [= <-]. eauto.
  - unfold ToAST.reps. simpl.
    destruct (py_int_of_str s); simpl; [|done]. intros [= <-]. eauto.
  - unfold ToAST.cal_qty. simpl.
    destruct (float_of_str s); simpl; [|done]. intros [= <-]. eauto.
  - unfold ToAST.distance_qty. simpl.
    destruct (re_match ToAST.RE_distance_qty s)
      as [[|a [|u [|? ?]]]|]; try (intros [= <-]; eauto).
    destruct (float_of_str a); simpl; [|done]. intros [= <-]. eauto.
  - unfold ToAST.hold_time. simpl.
    destruct (str_existsb (Ascii.eqb ":") s).
    + destruct (ToAST.split2 ":" s) as [[a b]|]; simpl; [|done].
      destruct (py_int_of_str a); simpl; [|done].
      destruct (py_int_of_str b); simpl; [|done]. intros [= <-]. eauto.
    + destruct (re_match ToAST.RE_hold_time s) as [[|g ?]|];
        try (intros [= <-]; eauto).
      destruct (py_int_of_str g); simpl; [|done]. intros [= <-]. eauto.
Qed.

Lemma load_is_load v n : ToAST.load v = Some n -> exists l, n = NLoad l.
Proof.
  unfold ToAST.load.
  destruct (v !! 0%nat ≫= node_raw) as [raw|]; simpl; [|done].
  destruct (re_match ToAST.RE_load_dual raw) as [[|a [|b [|u [|? ?]]]]|].
  all: try (destruct (re_match ToAST.RE_load_single raw)
              as [[|a' [|u' [|? ?]]]|]; try (intros [= <-]; eauto);
            destruct (ToAST.mk a' u') as [[?|]|]; simpl;
            try done; intros [= <-]; eauto).
  destruct (ToAST.mk a u) as [[?|]|]; simpl; try done;
    destruct (ToAST.mk b u) as [[?|]|]; simpl; try done.
  intros [= <-]. eauto.
Qed.

Lemma load_node_is_load l n : load_node l = Some n -> exists l', n = NLoad l'.
Proof. destruct l; simpl; apply load_is_load. Qed.

Lemma line_loop_term t acc :
  ToAST.line_loop (term_nodes t) acc
  = Line (ln_qty acc) (ln_movement acc) (ln_load acc)
         (ln_flags acc ++ term_flags t).
Proof. destruct t, acc; simpl; by rewrite ?app_nil_r. Qed.

(** The line dictionary of a derivation, field by field. *)
Lemma cst_line_ast_fields c ln :
  cst_line_ast c = Some ln ->
  ln_movement ln = str_join "_" (c_ident c :: c_idents c)
  /\ ln_flags ln = map suffix_text (c_suffix c) ++ term_flags (c_term c)
  /\ match c_qty c with
     | None => ln_qty ln = None
     | Some q => exists q', qty_node q = Some (NQty q') /\ ln_qty ln = Some q'
     end
  /\ match c_load c with
     | None => ln_load ln = None
     | Some l => exists l', ln_load ln = Some l'
     end.
Proof.
  unfold cst_line_ast, cst_children. rewrite movement_idents, suffix_nodes.
  simpl.
  destruct (opt_nodes qty_node (c_qty c)) as [ql|] eqn:Hq; simpl; [|done].
  destruct (opt_nodes load_node (c_load c)) as [ll|] eqn:Hl; simpl; [|done].
  intros [= <-].
  rewrite line_loop_app. simpl. rewrite !line_loop_app.
  rewrite line_loop_term, line_loop_strs. simpl.
  destruct (c_qty c) as [q|]; simpl in Hq.
  - destruct (qty_node q) as [n|] eqn:Hn; simpl in Hq; [|done].
    injection Hq as <-. destruct (qty_node_is_qty _ _ Hn) as [q' ->]. simpl.
    destruct (c_load c) as [l|]; simpl in Hl.
    + destruct (load_node l) as [n|] eqn:Hn'; simpl in Hl; [|done].
      injection Hl as <-. destruct (load_node_is_load _ _ Hn') as [l' ->].
      simpl. repeat split; eauto.
    + injection Hl as <-. simpl. repeat split; eauto.
  - injection Hq as <-. simpl.
    destruct (c_load c) as [l|]; simpl in Hl.
    + destruct (load_node l) as [n|] eqn:Hn'; simpl in Hl; [|done].
      injection Hl as <-. destruct (load_node_is_load _ _ Hn') as [l' ->].
      simpl. repeat split; eauto.
    + injection Hl as <-. simpl. repeat split; eauto.
Qed.

End LineLoop.

(** *** Stripping *)






(** *** Identifiers and the spaces between words *)

Lemma class_rests_prefix p s rest :
  In rest (class_rests p s) ->
  exists pre, s = pre +:+ rest /\ str_forallb p pre = true.
Proof.
  revert rest. induction s as [|c s IH]; intros rest; simpl.
  - intros [<-|[]]. by exists "".
  - destruct (p c) eqn:Hc.
    + intros Hin. apply in_app_iff in Hin as [Hin|[<-|[]]].
      * destruct (IH _ Hin) as (pre & -> & Hpre).
        exists (String c pre). simpl. by rewrite Hc.
      * by exists "".
    + intros [<-|[]]. by exists "".
Qed.





Lemma str_forallb_impl (p q : ascii -> bool) s :
  (forall c, p c = true -> q c = true) ->
  str_forallb p s = true -> str_forallb q s = true.
Proof.
  intros Hpq. induction s as [|c s IH]; simpl; [done|].
  intros H. apply andb_true_iff in H as [Hc Hs]. by rewrite Hpq, IH.
Qed.










Section Render.
Context {rt : PyFloat}.



End Render.

(** *** Quantities read and written *)

Lemma digit_val_nonneg c : is_digit c = true -> 0 <= digit_val c.
Proof. by_ascii c. Qed.

Lemma digits_val_nonneg s : forall acc,
  str_forallb is_digit s = true -> 0 <= acc -> 0 <= digits_val s acc.
Proof.
  induction s as [|c s IH]; intros acc H Hacc; simpl in *; [done|].
  apply andb_true_iff in H as [Hc Hs]. apply IH; [done|].
  pose proof (digit_val_nonneg c Hc). lia.
Qed.

Lemma py_int_of_str_nonneg s n : py_int_of_str s = Some n -> 0 <= n.
Proof.
  unfold py_int_of_str. destruct s as [|c s]; [done|].
  destruct (str_forallb is_digit (String c s)) eqn:E; [|done].
  intros [= <-]. exact (digits_val_nonneg (String c s) 0 E ltac:(lia)).
Qed.



Section Quantities.
Context {rt : PyFloat}.






(** *** The tokens of a rendered line *)





End Quantities.

(** *** Reading a rendered line *)

Section ReadBack.
Context {rt : PyFloat}.

Lemma cst_valid_parts c :
  cst_valid c = true ->
  (forall q, c_qty c = Some q -> qty_valid q = true)
  /\ re_full RE_IDENT (c_ident c) = true
  /\ forallb (re_full RE_IDENT) (c_idents c) = true
  /\ term_valid (c_term c) = true.
Proof.
  unfold cst_valid. intros H.
  repeat match type of H with
         | _ && _ = true => apply andb_true_iff in H as [H ?]
         end.
  repeat split; try done. intros q Hq. by rewrite Hq in H.
Qed.




End ReadBack.








(** ** The linter *)

Lemma any_error_app l1 l2 :
  any_error (l1 ++ l2) = any_error l1 || any_error l2.
Proof. apply existsb_app. Qed.

Lemma any_error_flat_map {A : Type} (f : A -> list issue) l :
  any_error (flat_map f l) = existsb (fun x => any_error (f x)) l.
Proof.
  induction l as [|x l IH]; simpl; [done|]. by rewrite any_error_app, IH.
Qed.

Lemma existsb_enumerate_from {A : Type} (f : A -> bool) l : forall i,
  existsb (fun '(_, x) => f x) (enumerate_from i l) = existsb f l.
Proof. induction l as [|x l IH]; intros i; simpl; [done|]. by rewrite IH. Qed.

Lemma existsb_ext_in {A : Type} (f g : A -> bool) l :
  (forall x, In x l -> f x = g x) -> existsb f l = existsb g l.
Proof.
  induction l as [|x l IH]; simpl; intros H; [done|].
  rewrite (H x) by (by left). rewrite IH; [done|]. intros y Hy. apply H. by right.
Qed.

Lemma existsb_false_in {A : Type} (f : A -> bool) l :
  (forall x, In x l -> f x = false) -> existsb f l = false.
Proof.
  induction l as [|x l IH]; simpl; intros H; [done|].
  rewrite (H x) by (by left). apply IH. intros y Hy. apply H. by right.
Qed.

Section LintFacts.
Context {rt : PyFloat}.

Lemma check_line_no_error ln path : any_error (check_line ln path) = false.
Proof.
  unfold check_line. rewrite any_error_app.
  destruct (negb _ && negb _); simpl;
    destruct (ln_load ln) as [[s|a b|raw]|]; simpl; try done;
    by destruct (re_match RE_lint_load raw).
Qed.

Lemma emom_lines_nil sts :
  existsb is_emom_line sts = false <-> emom_lines sts = [].
Proof.
  induction sts as [|[ln|slot ln f] sts IH]; simpl; [done|exact IH|].
  split; discriminate.
Qed.

Lemma lint_segment_error i seg :
  any_error (lint_segment i seg) = segment_in_error seg.
Proof.
  assert (forall t sts, any_error (lint_plain t sts) = false) as Hplain.
  { intros t sts. unfold lint_plain. rewrite any_error_flat_map.
    apply existsb_false_in. intros [j [ln|slot ln f]] _; [|done].
    apply check_line_no_error. }
  destruct seg as [sts|sts|d|b|]; simpl; try done.
  - by destruct (d <=? 0)%Z.
  - rewrite any_error_app, any_error_flat_map.
    rewrite (existsb_false_in _ (enumerate (b_stmts b)))
      by (intros [j st] _; apply check_line_no_error).
    rewrite orb_false_r.
    destruct (b_head b); try done. by destruct (existsb is_emom_line (b_stmts b)).
Qed.

(** [lint] reports an error when a segment is in error. *)
Lemma any_error_lint a :
  any_error (lint a) = existsb segment_in_error (a_program a).
Proof.
  unfold lint. rewrite any_error_app, any_error_flat_map.
  assert (any_error (map note_issue (default [] (m_normalized (a_meta a))))
          = false) as ->.
  { induction (default [] (m_normalized (a_meta a))); simpl; auto. }
  rewrite orb_false_l.
  rewrite <- (existsb_enumerate_from segment_in_error (a_program a) 0).
  apply existsb_ext_in. intros [i seg] _. apply lint_segment_error.
Qed.

Lemma segment_in_error_iff segs :
  existsb segment_in_error segs = true
  <-> (exists d, In (REST d) segs /\ d <= 0)
      \/ (exists b d, In (BLOCK b) segs /\ b_head b = EMOM d
                      /\ emom_lines (b_stmts b) = []).
Proof.
  rewrite existsb_exists. split.
  - intros (seg & Hin & Herr). destruct seg as [sts|sts|d|b|]; try done.
    + left. exists d. split; [done|]. simpl in Herr. lia.
    + right. simpl in Herr. destruct (b_head b) as [|d| | | | |] eqn:Hh; try done.
      exists b, d. split; [done|]. split; [done|].
      apply emom_lines_nil. by destruct (existsb is_emom_line (b_stmts b)).
  - intros [(d & Hin & Hd)|(b & d & Hin & Hh & Hs)].
    + exists (REST d). split; [done|]. simpl. lia.
    + exists (BLOCK b). split; [done|]. simpl. rewrite Hh.
      apply emom_lines_nil in Hs. by rewrite Hs.
Qed.

(** X1. [lint] reports a diagnostic of level error exactly when the
    program holds a REST whose duration is zero or negative, or an EMOM
    block without any slot-line. *)
Theorem lint_errors_are_rest_and_emom :
  forall a : ast,
    any_error (lint a) = true
    <-> (exists d, In (REST d) (a_program a) /\ d <= 0)
        \/ (exists b d, In (BLOCK b) (a_program a) /\ b_head b = EMOM d
                        /\ emom_lines (b_stmts b) = []).
Proof. intros a. rewrite any_error_lint. apply segment_in_error_iff. Qed.

End LintFacts.

(** ** Regular expressions: the shape of a match *)

Lemma str_existsb_app p a b :
  str_existsb p (a +:+ b) = str_existsb p a || str_existsb p b.
Proof.
  induction a as [|x a IH]; [done|].
  rewrite str_app_cons. simpl. by rewrite IH, orb_assoc.
Qed.

Lemma str_take_app a b :
  str_take (String.length (a +:+ b) - String.length b) (a +:+ b) = a.
Proof.
  rewrite str_length_app.
  replace (String.length a + String.length b - String.length b)%nat
    with (String.length a) by lia.
  induction a as [|c a IH]; simpl; [by destruct b|]. by rewrite IH.
Qed.

Lemma class_rests_self p s : In s (class_rests p s).
Proof.
  destruct s as [|c s]; simpl; [by left|].
  destruct (p c); [apply in_app_iff; right|]; by left.
Qed.

Lemma class_rests_In p pre rest :
  str_forallb p pre = true -> In rest (class_rests p (pre +:+ rest)).
Proof.
  induction pre as [|c pre IH]; simpl; intros H.
  - rewrite str_app_nil_l. apply class_rests_self.
  - apply andb_true_iff in H as [Hc Hpre]. rewrite ?str_app_cons. simpl.
    rewrite Hc. apply in_app_iff. left. by apply IH.
Qed.

Lemma re_run_seq_iff r1 r2 s rest g :
  In (rest, g) (re_run (Seq r1 r2) s)
  <-> exists mid g1 g2, In (mid, g1) (re_run r1 s)
        /\ In (rest, g2) (re_run r2 mid) /\ g = g1 ++ g2.
Proof.
  simpl. rewrite in_flat_map. split.
  - intros ([mid g1] & H1 & H2).
    apply in_map_iff in H2 as ([rest' g2] & Heq & H2).
    injection Heq as <- <-. by exists mid, g1, g2.
  - intros (mid & g1 & g2 & H1 & H2 & ->). exists (mid, g1). split; [done|].
    apply in_map_iff. by exists (rest, g2).
Qed.

Lemma re_run_alt_iff r1 r2 s x :
  In x (re_run (Alt r1 r2) s) <-> In x (re_run r1 s) \/ In x (re_run r2 s).
Proof. simpl. apply in_app_iff. Qed.

Lemma re_run_opt_iff r s rest g :
  In (rest, g) (re_run (Opt r) s)
  <-> In (rest, g) (re_run r s) \/ (rest = s /\ g = []).
Proof.
  simpl. rewrite in_app_iff. simpl. split.
  - intros [H|[[= <- <-]|[]]]; auto.
  - intros [H|[-> ->]]; auto.
Qed.

Lemma re_run_group_iff r s rest g :
  In (rest, g) (re_run (Group r) s)
  <-> exists g', In (rest, g') (re_run r s)
        /\ g = str_take (String.length s - String.length rest) s :: g'.
Proof.
  simpl. rewrite in_map_iff. split.
  - intros ([rest' g'] & [= <- <-] & H). by exists g'.
  - intros (g' & H & ->). by exists (rest, g').
Qed.

Lemma re_run_chr_iff c s rest g :
  In (rest, g) (re_run (Chr c) s) <-> s = String c rest /\ g = [].
Proof.
  simpl. destruct s as [|x s]; [by split; [|intros [? _]]|].
  destruct (Ascii.eqb_spec x c) as [->|Hne]; simpl.
  - split; [intros [[= <- <-]|[]]; done | intros [[= <-] ->]; by left].
  - split; [done | intros [[= ? _] _]; done].
Qed.

Lemma re_run_cls_iff p s rest g :
  In (rest, g) (re_run (Cls p) s)
  <-> exists c, s = String c rest /\ p c = true /\ g = [].
Proof.
  simpl. destruct s as [|x s]; [by split; [|intros (? & ? & _)]|].
  destruct (p x) eqn:Hx; simpl.
  - split; [intros [[= <- <-]|[]]; eauto | intros (c & [= <- <-] & _ & ->); by left].
  - split; [done | intros (c & [= <- <-] & Hc & _); congruence].
Qed.

Lemma re_run_star_iff p s rest g :
  In (rest, g) (re_run (Star p) s)
  <-> g = [] /\ exists pre, str_forallb p pre = true /\ s = pre +:+ rest.
Proof.
  simpl. rewrite in_map_iff. split.
  - intros (r & [= <- <-] & H). split; [done|].
    apply class_rests_prefix in H as (pre & -> & Hpre). eauto.
  - intros (-> & pre & Hpre & ->). exists rest. split; [done|].
    by apply class_rests_In.
Qed.

Lemma re_run_plus_iff p s rest g :
  In (rest, g) (re_run (Plus p) s)
  <-> g = [] /\ exists c pre, p c = true /\ str_forallb p pre = true
                              /\ s = String c pre +:+ rest.
Proof.
  simpl. destruct s as [|x s].
  { split; [done | intros (_ & c & pre & _ & _ & H); done]. }
  destruct (p x) eqn:Hx.
  - rewrite in_map_iff. split.
    + intros (r & [= <- <-] & H). split; [done|].
      apply class_rests_prefix in H as (pre & -> & Hpre).
      exists x, pre. by rewrite str_app_cons.
    + intros (-> & c & pre & Hc & Hpre & Heq). rewrite str_app_cons in Heq.
      injection Heq as <- ->. exists rest. split; [done|].
      by apply class_rests_In.
  - split; [done|]. intros (_ & c & pre & Hc & _ & Heq).
    rewrite str_app_cons in Heq. injection Heq as <- _. congruence.
Qed.

Lemma re_run_eol_iff s rest g :
  In (rest, g) (re_run Eol s)
  <-> rest = s /\ g = [] /\ (s = "" \/ s = String LF "").
Proof.
  simpl. destruct s as [|x [|y s]]; simpl.
  - split; [intros [[= <- <-]|[]]; auto | intros (-> & -> & _); by left].
  - destruct (Ascii.eqb_spec x LF) as [->|Hne]; simpl.
    + split; [intros [[= <- <-]|[]]; auto | intros (-> & -> & _); by left].
    + split; [done | intros (_ & _ & [?|[= ?]]); done].
  - split; [done | intros (_ & _ & [?|?]); done].
Qed.

Lemma re_run_lit_iff lit s rest g :
  lit <> "" ->
  In (rest, g) (re_run (re_lit lit) s) <-> s = lit +:+ rest /\ g = [].
Proof.
  revert s g. induction lit as [|c lit IH]; intros s g Hne; [done|].
  destruct lit as [|c' lit].
  - change (re_lit (String c "")) with (Chr c). apply re_run_chr_iff.
  - change (re_lit (String c (String c' lit)))
      with (Seq (Chr c) (re_lit (String c' lit))).
    rewrite re_run_seq_iff. split.
    + intros (mid & g1 & g2 & H1 & H2 & ->).
      apply re_run_chr_iff in H1 as [-> ->].
      apply IH in H2 as [-> ->]; [|done]. done.
    + intros [-> ->]. exists (String c' lit +:+ rest), [], [].
      split; [by apply re_run_chr_iff|]. split; [|done]. by apply IH.
Qed.

Lemma re_full_iff r s :
  re_full r s = true <-> exists g, In ("", g) (re_run r s).
Proof.
  unfold re_full. rewrite existsb_exists. split.
  - intros ([rest g] & Hin & Heq). apply String.eqb_eq in Heq. subst. eauto.
  - intros [g Hin]. by exists ("", g).
Qed.

Lemma re_match_None r s : re_match r s = None <-> re_run r s = [].
Proof. unfold re_match. by destruct (re_run r s) as [|[? ?] ?]. Qed.

Lemma re_match_Some r s g :
  re_match r s = Some g -> exists rest, In (rest, g) (re_run r s).
Proof.
  unfold re_match. destruct (re_run r s) as [|[rest g'] l]; [done|].
  intros [= <-]. exists rest. by left.
Qed.

Lemma re_match_is_Some r s x : In x (re_run r s) -> is_Some (re_match r s).
Proof.
  unfold re_match. destruct (re_run r s) as [|[rest g'] l]; [done|]. by eexists.
Qed.

Lemma re_run_nil r s : (forall x, ~ In x (re_run r s)) -> re_run r s = [].
Proof. destruct (re_run r s) as [|x l]; [done|]. intros H. destruct (H x). by left. Qed.

(** A number: a digit, then digits and points. *)
Lemma re_run_num s rest g :
  In (rest, g) (re_run RE_NUM s) ->
  g = [] /\ exists c pre, is_digit c = true
                          /\ str_forallb is_num_char pre = true
                          /\ s = String c pre +:+ rest.
Proof.
  unfold RE_NUM. rewrite re_run_seq_iff.
  intros (mid & g1 & g2 & H1 & H2 & ->).
  apply re_run_plus_iff in H1 as (-> & c & pre & Hc & Hpre & ->).
  assert (str_forallb is_num_char pre = true) as Hpre'.
  { eapply str_forallb_impl; [|exact Hpre]. intros x Hx.
    unfold is_num_char. by rewrite Hx. }
  apply re_run_opt_iff in H2 as [H2|[-> ->]].
  - apply re_run_seq_iff in H2 as (mid2 & g3 & g4 & H3 & H4 & ->).
    apply re_run_chr_iff in H3 as [-> ->].
    apply re_run_plus_iff in H4 as (-> & c' & pre' & Hc' & Hpre2 & ->).
    split; [done|]. exists c, (pre +:+ "." +:+ String c' pre').
    split; [done|]. split.
    + rewrite str_forallb_app, Hpre'.
      change ("." +:+ String c' pre') with (String "." (String c' pre')).
      cbn [str_forallb andb].
      assert (is_num_char c' = true) as ->
        by (unfold is_num_char; by rewrite Hc').
      change (is_num_char ".") with true. cbn [andb].
      eapply str_forallb_impl; [|exact Hpre2]. intros x Hx.
      unfold is_num_char. by rewrite Hx.
    + rewrite !str_app_cons. f_equal. by rewrite str_app_assoc.
  - split; [done|]. by exists c, pre.
Qed.

(** The units of a load are matched as themselves. *)
Lemma re_run_load_unit s rest g :
  In (rest, g) (re_run RE_LOAD_UNIT s) <->
  g = [] /\ exists u, In u LOAD_UNITS /\ s = u +:+ rest.
Proof.
  unfold RE_LOAD_UNIT, LOAD_UNITS.
  cbn [re_alts]. rewrite !re_run_alt_iff, !re_run_lit_iff by done. split.
  - intros H. decompose [or and] H; subst; (split; [done|]); eexists;
      (split; [|reflexivity]); simpl; tauto.
  - intros (-> & u & Hu & ->). simpl in Hu.
    decompose [or] Hu; subst; tauto.
Qed.

(** ** Load tokens, the resolver and the linter *)

Lemma str_forallb_no p q s :
  (forall c, p c = true -> q c = false) ->
  str_forallb p s = true -> str_existsb q s = false.
Proof.
  intros Hpq. induction s as [|c s IH]; simpl; [done|].
  intros H. apply andb_true_iff in H as [Hc Hs]. by rewrite Hpq, IH.
Qed.

Lemma num_char_not_slash c : is_num_char c = true -> Ascii.eqb "/" c = false.
Proof. by_ascii c. Qed.

Lemma load_unit_no_slash u :
  In u LOAD_UNITS -> str_existsb (Ascii.eqb "/") u = false.
Proof. simpl. intros H. decompose [or] H; by subst. Qed.

(** A single load token is a number followed by a unit. *)
Lemma loadval_parts s :
  re_full RE_LOADVAL s = true ->
  exists c pre u, is_digit c = true /\ str_forallb is_num_char pre = true
    /\ In u LOAD_UNITS /\ s = String c pre +:+ u
    /\ In (u, []) (re_run RE_NUM s).
Proof.
  intros H. apply re_full_iff in H as [g H]. unfold RE_LOADVAL in H.
  apply re_run_seq_iff in H as (mid & g1 & g2 & H1 & H2 & ->).
  apply re_run_load_unit in H2 as (-> & u & Hu & ->).
  rewrite str_app_nil_r in H1.
  destruct (re_run_num _ _ _ H1) as (-> & c & pre & Hc & Hpre & Hs).
  by exists c, pre, u.
Qed.

(** A dual load token is a number, a slash, a number and a unit. *)
Lemma loaddual_parts s :
  re_full RE_LOADDUAL s = true ->
  exists m2 u, In (String "/" m2, []) (re_run RE_NUM s)
    /\ In (u, []) (re_run RE_NUM m2) /\ In u LOAD_UNITS.
Proof.
  intros H. apply re_full_iff in H as [g H].
  change RE_LOADDUAL
    with (Seq RE_NUM (Seq (Chr "/") (Seq RE_NUM RE_LOAD_UNIT))) in H.
  apply re_run_seq_iff in H as (m1 & g1 & g1' & H1 & H & ->).
  apply re_run_seq_iff in H as (m2 & g2 & g2' & H2 & H & ->).
  apply re_run_seq_iff in H as (m3 & g3 & g3' & H3 & H4 & ->).
  apply re_run_chr_iff in H2 as [-> ->].
  apply re_run_load_unit in H4 as (-> & u & Hu & ->).
  rewrite str_app_nil_r in H3.
  destruct (re_run_num _ _ _ H1) as (-> & _).
  destruct (re_run_num _ _ _ H3) as (-> & _).
  by exists m2, u.
Qed.

(** Two ways to cut a text after characters of a number: if one cut is
    followed by a slash, the other one is followed by a character of a
    number or by that slash. *)
Lemma num_prefix_slash p1 : forall r p2 mid,
  str_forallb is_num_char p1 = true -> str_forallb is_num_char p2 = true ->
  p1 +:+ String "/" r = p2 +:+ mid ->
  exists c r', mid = String c r'
               /\ is_num_char c || Ascii.eqb c "/" = true.
Proof.
  induction p1 as [|c p1 IH]; intros r p2 mid H1 H2 Heq.
  - rewrite str_app_nil_l in Heq. destruct p2 as [|c2 p2].
    + rewrite str_app_nil_l in Heq. subst mid. by eexists _, _.
    + rewrite str_app_cons in Heq. injection Heq as <- _. done.
  - simpl in H1. apply andb_true_iff in H1 as [Hc H1].
    rewrite str_app_cons in Heq. destruct p2 as [|c2 p2].
    + rewrite str_app_nil_l in Heq. subst mid. eexists _, _.
      split; [reflexivity|]. by rewrite Hc.
    + rewrite str_app_cons in Heq. injection Heq as <- Heq.
      simpl in H2. apply andb_true_iff in H2 as [_ H2]. by eapply IH.
Qed.

(** After a character of a number or a slash the pattern of the linter
    cannot end. *)
Lemma lint_tail_fails c r :
  is_num_char c || Ascii.eqb c "/" = true ->
  re_run (Seq (Opt (Group RE_lint_unit)) Eol) (String c r) = [].
Proof.
  destruct c as [[] [] [] [] [] [] [] []]; intros H;
    try (vm_compute in H; discriminate H); by destruct r.
Qed.

Lemma lint_tail_unit u :
  In u LOAD_UNITS ->
  exists x, In x (re_run (Seq (Opt (Group RE_lint_unit)) Eol) u).
Proof.
  simpl. intros H. decompose [or] H; subst; try done;
    eexists; vm_compute; left; reflexivity.
Qed.

(** The pattern of the linter accepts every single load token, and no
    dual one. *)
Lemma lint_load_loadval s :
  re_full RE_LOADVAL s = true -> is_Some (re_match RE_lint_load s).
Proof.
  intros H. apply loadval_parts in H as (c & pre & u & _ & _ & Hu & _ & Hn).
  destruct (lint_tail_unit u Hu) as [[rest g] Hx].
  apply (re_match_is_Some _ _ (rest, [] ++ g)).
  change RE_lint_load with (Seq RE_NUM (Seq (Opt (Group RE_lint_unit)) Eol)).
  apply re_run_seq_iff. by exists u, [], g.
Qed.

Lemma lint_load_loaddual s :
  re_full RE_LOADDUAL s = true -> re_match RE_lint_load s = None.
Proof.
  intros H. apply loaddual_parts in H as (m2 & u & H1 & _ & _).
  apply re_match_None, re_run_nil. intros [rest g] Hin.
  change RE_lint_load
    with (Seq RE_NUM (Seq (Opt (Group RE_lint_unit)) Eol)) in Hin.
  apply re_run_seq_iff in Hin as (mid & g1 & g2 & Hn & Ht & _).
  destruct (re_run_num _ _ _ H1) as (_ & c1 & p1 & Hc1 & Hp1 & Hs1).
  destruct (re_run_num _ _ _ Hn) as (_ & c2 & p2 & Hc2 & Hp2 & Hs2).
  rewrite Hs1 in Hs2.
  destruct (num_prefix_slash (String c1 p1) m2 (String c2 p2) mid)
    as (c & r & -> & Hc); [| |done|].
  - simpl. unfold is_num_char at 1. by rewrite Hc1, Hp1.
  - simpl. unfold is_num_char at 1. by rewrite Hc2, Hp2.
  - by rewrite lint_tail_fails in Ht.
Qed.

Section LoadTokens.
Context {rt : PyFloat}.
Variable gender : string.

(** The pattern of [resolve_load] matches texts with a slash only. *)
Lemma resolve_pattern_slash s x :
  In x (re_run RE_resolve_load s) -> str_existsb (Ascii.eqb "/") s = true.
Proof.
  destruct x as [rest g].
  change RE_resolve_load
    with (Seq (Group RE_NUM)
            (Seq (Chr "/")
               (Seq (Group RE_NUM) (Seq (Group RE_LOAD_UNIT) Eol)))).
  intros H. apply re_run_seq_iff in H as (m1 & g1 & g1' & H1 & H & _).
  apply re_run_seq_iff in H as (m2 & g2 & g2' & H2 & _ & _).
  apply re_run_group_iff in H1 as (g' & H1 & _).
  apply re_run_chr_iff in H2 as [-> _].
  destruct (re_run_num _ _ _ H1) as (_ & c & pre & _ & _ & ->).
  rewrite str_existsb_app. simpl. apply orb_true_r.
Qed.

(** A single load token is left as it is by [resolve_load]. *)
Lemma resolve_load_loadval s :
  re_full RE_LOADVAL s = true ->
  resolve_load gender (Some (LRaw s)) = Some (Some (LRaw s)).
Proof.
  intros H. apply loadval_parts in H as (c & pre & u & Hc & Hpre & Hu & -> & _).
  assert (re_match RE_resolve_load (String c pre +:+ u) = None) as Hm.
  { apply re_match_None, re_run_nil. intros x Hx.
    apply resolve_pattern_slash in Hx. rewrite str_existsb_app in Hx.
    rewrite (load_unit_no_slash u Hu), orb_false_r in Hx.
    cbn [str_existsb] in Hx.
    rewrite (str_forallb_no is_num_char _ pre num_char_not_slash Hpre) in Hx.
    rewrite num_char_not_slash in Hx; [done|].
    unfold is_num_char. by rewrite Hc. }
  unfold resolve_load. by rewrite Hm.
Qed.

(** On a dual load token the pattern of [resolve_load] matches, and its
    groups are two texts and a unit. *)
Lemma resolve_pattern_loaddual s :
  re_full RE_LOADDUAL s = true ->
  exists a b u, re_match RE_resolve_load s = Some [a; b; u]
                /\ In u LOAD_UNITS.
Proof.
  intros H. apply loaddual_parts in H as (m2 & u & H1 & H3 & Hu).
  assert (exists x, In x (re_run RE_resolve_load s)) as [x Hx].
  { eexists (_, _).
    change RE_resolve_load
      with (Seq (Group RE_NUM)
              (Seq (Chr "/")
                 (Seq (Group RE_NUM) (Seq (Group RE_LOAD_UNIT) Eol)))).
    apply re_run_seq_iff. eexists _, _, _. split.
    { apply re_run_group_iff. eexists. split; [exact H1|reflexivity]. }
    split; [|reflexivity].
    apply re_run_seq_iff. eexists _, _, _. split.
    { by apply re_run_chr_iff. }
    split; [|reflexivity].
    apply re_run_seq_iff. eexists _, _, _. split.
    { apply re_run_group_iff. eexists. split; [exact H3|reflexivity]. }
    split; [|reflexivity].
    apply re_run_seq_iff. eexists "", _, _. split.
    { apply re_run_group_iff. eexists. split; [|reflexivity].
      apply re_run_load_unit. split; [reflexivity|].
      exists u. by rewrite str_app_nil_r. }
    split; [|reflexivity]. apply re_run_eol_iff. auto. }
  destruct (re_match_is_Some _ _ _ Hx) as [g Hg].
  destruct (re_match_Some _ _ _ Hg) as [rest Hin].
  change RE_resolve_load
    with (Seq (Group RE_NUM)
            (Seq (Chr "/")
               (Seq (Group RE_NUM) (Seq (Group RE_LOAD_UNIT) Eol)))) in Hin.
  apply re_run_seq_iff in Hin as (n1 & g1 & g1' & G1 & Hin & ->).
  apply re_run_seq_iff in Hin as (n2 & g2 & g2' & G2 & Hin & ->).
  apply re_run_seq_iff in Hin as (n3 & g3 & g3' & G3 & Hin & ->).
  apply re_run_seq_iff in Hin as (n4 & g4 & g4' & G4 & G5 & ->).
  apply re_run_group_iff in G1 as (k1 & G1 & ->).
  apply re_run_chr_iff in G2 as [-> ->].
  apply re_run_group_iff in G3 as (k3 & G3 & ->).
  apply re_run_group_iff in G4 as (k4 & G4 & ->).
  apply re_run_eol_iff in G5 as (_ & -> & _).
  destruct (re_run_num _ _ _ G1) as (-> & _).
  destruct (re_run_num _ _ _ G3) as (-> & _).
  apply re_run_load_unit in G4 as (-> & u' & Hu' & ->).
  rewrite str_take_app in Hg. simpl in Hg. eauto.
Qed.

(** A dual load token, once resolved, is a structured load. *)
Lemma resolve_load_loaddual s l' :
  re_full RE_LOADDUAL s = true ->
  resolve_load gender (Some (LRaw s)) = Some l' ->
  exists x, l' = Some (LSimple x).
Proof.
  intros H. apply resolve_pattern_loaddual in H as (a & b & u & Hm & Hu).
  unfold resolve_load. rewrite Hm. simpl in Hu.
  decompose [or] Hu; subst; try done; simpl;
    destruct (float_of_str _); simpl; try done; intros [= <-]; eauto.
Qed.

(** X2. A load written in the source, single or dual, draws no
    ["Suspicious load"] warning once the resolver has passed: a single
    token stays raw and is accepted by the pattern of [check_line], a
    dual token has become a structured load. *)
Theorem resolved_load_tokens_pass_lint :
  forall (l : cst_load) (ld : load) (ln : line) (path : string),
    load_valid l = true ->
    load_node l = Some (NLoad ld) ->
    resolve_load gender (Some ld) = Some (ln_load ln) ->
    forall i, In i (check_line ln path) -> i_code i <> "W002".
Proof.
  intros l ld ln path Hv Hn Hr i Hi. unfold check_line in Hi.
  apply in_app_iff in Hi as [Hi|Hi].
  { destruct (negb _ && negb _); [|done]. destruct Hi as [<-|[]]. done. }
  destruct l as [s|s]; simpl in Hv, Hn.
  - rewrite (load_loadval_token s Hv) in Hn. injection Hn as <-.
    rewrite (resolve_load_loadval s Hv) in Hr. injection Hr as Hr.
    rewrite <- Hr in Hi.
    destruct (lint_load_loadval s Hv) as [g Hg]. by rewrite Hg in Hi.
  - rewrite (load_loaddual_token s Hv) in Hn. injection Hn as <-.
    destruct (resolve_load_loaddual s _ Hv Hr) as [x Hx].
    rewrite Hx in Hi. by destruct x.
Qed.

(** X3. [lint] run on the AST as the builder leaves it, before the
    resolver, reports every dual load token as a suspicious load: the
    builder keeps the token as a raw load, and the pattern of
    [check_line] has no slash. *)
Theorem unresolved_dual_load_is_suspicious :
  forall (s : string) (q : option qty) (mv : string) (fl : list string)
         (path : string),
    re_full RE_LOADDUAL s = true ->
    load_node (CLoadDual s) = Some (NLoad (LRaw s))
    /\ In (Issue "warning" "W002" path ("Suspicious load '" +:+ s +:+ "'"))
          (check_line (Line q mv (Some (LRaw s)) fl) path).
Proof.
  intros s q mv fl path H. split; [by apply load_loaddual_token|].
  unfold check_line. apply in_app_iff. right. simpl.
  rewrite (lint_load_loaddual s H). by left.
Qed.

End LoadTokens.

(** The load [@43/30kg], resolved for gender male, is the weight 43 kg
    and passes the linter. *)
Lemma resolved_load_tokens_pass_lint_witness :
  load_valid (CLoadDual "43/30kg") = true
  /\ load_node (rt := DecimalFloat.runtime) (CLoadDual "43/30kg")
     = Some (NLoad (LRaw "43/30kg"))
  /\ resolve_load "male" (Some (LRaw "43/30kg"))
     = Some (Some (LSimple (kg 43)))
  /\ forall i,
       In i (check_line (Line (Some (QReps 10)) "thrusters"
                              (Some (LSimple (kg 43))) []) "BLOCK[0].LINE[0]") ->
       i_code i <> "W002".
Proof.
  split; [reflexivity|]. split; [reflexivity|]. split; [reflexivity|].
  exact (resolved_load_tokens_pass_lint (rt := DecimalFloat.runtime) "male"
           (CLoadDual "43/30kg") (LRaw "43/30kg")
           (Line (Some (QReps 10)) "thrusters" (Some (LSimple (kg 43))) [])
           "BLOCK[0].LINE[0]" eq_refl eq_refl eq_refl).
Defined.

(** The load [@43/30kg] of an unresolved line is reported. *)
Lemma unresolved_dual_load_is_suspicious_witness :
  re_full RE_LOADDUAL "43/30kg" = true
  /\ In (Issue "warning" "W002" "BLOCK[0].LINE[0]" "Suspicious load '43/30kg'")
        (check_line (rt := DecimalFloat.runtime)
           (Line (Some (QReps 10)) "thrusters" (Some (LRaw "43/30kg")) [])
           "BLOCK[0].LINE[0]").
Proof.
  split; [reflexivity|].
  exact (proj2 (unresolved_dual_load_is_suspicious (rt := DecimalFloat.runtime)
                  "43/30kg" (Some (QReps 10)) "thrusters" []
                  "BLOCK[0].LINE[0]" eq_refl)).
Defined.

(** ** The resolver: what it keeps, and the notes it leaves *)

Lemma normalize_mv_empty : _normalize_mv "" = "".
Proof. reflexivity. Qed.

(** Every name the alias table maps to is a known movement. *)
Lemma alias_targets_known :
  Forall (fun v => existsb (String.eqb v) KNOWN_MOVEMENTS = true)
         (map snd MOVEMENT_ALIASES).
Proof. repeat constructor. Qed.

Section ResolverFrame.
Context {rt : PyFloat}.
Variable catalog : option catalog_t.
Variable track : string.
Variable gender : string.

(** What the loop body does to the movement and the flags of a line, and
    the notes it appends. *)
Lemma resolve_line_parts ln ln' ns :
  resolve_line catalog track gender ln = Some (ln', ns) ->
  ln_movement ln' = _normalize_mv (ln_movement ln)
  /\ ln_flags ln' = ln_flags ln
  /\ ns = match rename_note ln with Some n => [n] | None => [] end.
Proof.
  unfold resolve_line, rename_note.
  destruct (resolve_load gender (ln_load ln)) as [l1|]; simpl; [|done].
  set (mv := ln_movement ln).
  assert ((if negb (String.eqb mv "")
              && negb (String.eqb (_normalize_mv mv) mv)
           then _normalize_mv mv else mv) = _normalize_mv mv) as Hmv.
  { destruct (String.eqb_spec mv "") as [->|_]; simpl; [done|].
    by destruct (String.eqb_spec (_normalize_mv mv) mv) as [->|_]. }
  unfold apply_catalog_line. destruct catalog as [c|]; simpl.
  - match goal with
    | |- context [catalog_load gender ?m ?k l1] =>
        destruct (catalog_load gender m k l1) as [l2|]
    end; simpl; [|done].
    intros [= <- <-]. simpl. rewrite Hmv.
    by destruct (negb _ && negb _).
  - intros [= <- <-]. simpl. rewrite Hmv. by destruct (negb _ && negb _).
Qed.

Lemma resolve_stmts_parts in_block sts sts' ns :
  resolve_stmts catalog track gender in_block sts = Some (sts', ns) ->
  map blank_stmt sts' = map blank_stmt sts
  /\ ns = omap rename_note
               (if in_block then map stmt_line sts else plain_lines sts)
  /\ Forall (fun ln => _normalize_mv (ln_movement ln) = ln_movement ln)
            (if in_block then map stmt_line sts' else plain_lines sts').
Proof.
  revert sts' ns. induction sts as [|st sts IH]; intros sts' ns; simpl.
  - intros [= <- <-]. by destruct in_block.
  - destruct (resolve_stmt catalog track gender in_block st)
      as [[st' n1]|] eqn:Hst; simpl; [|done].
    destruct (resolve_stmts catalog track gender in_block sts)
      as [[sts'' n2]|] eqn:Hsts; simpl; [|done].
    intros [= <- <-]. destruct (IH _ _ eq_refl) as (IH1 & IH2 & IH3).
    simpl. rewrite IH1, IH2.
    destruct st as [ln|slot ln f]; simpl in Hst.
    + destruct (resolve_line catalog track gender ln) as [[ln' n]|] eqn:Hln;
        simpl in Hst; [|done]. injection Hst as <- <-.
      destruct (resolve_line_parts _ _ _ Hln) as (Hm & Hf & ->).
      assert (_normalize_mv (ln_movement ln') = ln_movement ln') as Hfix
        by (by rewrite Hm, _normalize_mv_idem).
      simpl. unfold blank_line. rewrite Hf.
      destruct in_block; simpl;
        (split; [done|]); (split; [|by constructor]);
        by destruct (rename_note ln).
    + destruct in_block.
      * destruct (resolve_line catalog track gender ln) as [[ln' n]|] eqn:Hln;
          simpl in Hst; [|done]. injection Hst as <- <-.
        destruct (resolve_line_parts _ _ _ Hln) as (Hm & Hf & ->).
        assert (_normalize_mv (ln_movement ln') = ln_movement ln') as Hfix
          by (by rewrite Hm, _normalize_mv_idem).
        simpl. unfold blank_line. rewrite Hf.
        split; [done|]. split; [|by constructor].
        by destruct (rename_note ln).
      * injection Hst as <- <-. simpl. done.
Qed.

Lemma resolve_program_parts segs segs' ns :
  resolve_program catalog track gender segs = Some (segs', ns) ->
  map blank_segment segs' = map blank_segment segs
  /\ ns = omap rename_note (flat_map segment_read_lines segs)
  /\ Forall (fun ln => _normalize_mv (ln_movement ln) = ln_movement ln)
            (flat_map segment_read_lines segs').
Proof.
  revert segs' ns. induction segs as [|seg segs IH]; intros segs' ns; simpl.
  - by intros [= <- <-].
  - destruct (resolve_segment catalog track gender seg)
      as [[seg' n1]|] eqn:Hseg; simpl; [|done].
    destruct (resolve_program catalog track gender segs)
      as [[segs'' n2]|] eqn:Hsegs; simpl; [|done].
    intros [= <- <-]. destruct (IH _ _ eq_refl) as (IH1 & IH2 & IH3).
    simpl. rewrite IH1, IH2, omap_app.
    assert (blank_segment seg' = blank_segment seg
            /\ n1 = omap rename_note (segment_read_lines seg)
            /\ Forall (fun ln => _normalize_mv (ln_movement ln)
                                 = ln_movement ln)
                      (segment_read_lines seg')) as (H1 & H2 & H3).
    { destruct seg as [sts|sts|d|b|]; simpl in Hseg;
        try (injection Hseg as <- <-; by repeat split).
      - destruct (resolve_stmts catalog track gender false sts)
          as [[sts' n]|] eqn:Hsts; simpl in Hseg; [|done].
        injection Hseg as <- <-.
        destruct (resolve_stmts_parts false _ _ _ Hsts) as (E1 & E2 & E3).
        simpl. by rewrite E1.
      - destruct (resolve_stmts catalog track gender false sts)
          as [[sts' n]|] eqn:Hsts; simpl in Hseg; [|done].
        injection Hseg as <- <-.
        destruct (resolve_stmts_parts false _ _ _ Hsts) as (E1 & E2 & E3).
        simpl. by rewrite E1.
      - destruct (resolve_stmts catalog track gender true (b_stmts b))
          as [[sts' n]|] eqn:Hsts; simpl in Hseg; [|done].
        injection Hseg as <- <-.
        destruct (resolve_stmts_parts true _ _ _ Hsts) as (E1 & E2 & E3).
        simpl. by rewrite E1. }
    rewrite H1, H2. split; [done|]. split; [done|].
    apply Forall_app. by split.
Qed.

(** X4. The resolver touches nothing but the quantity, the movement and
    the load of lines, and [meta.normalized]: the segments, the heads,
    options and tiebreaks of blocks, the statements in their order, the
    slot numbers, the flags and the other entries of [meta] are those of
    the input. *)
Theorem resolver_keeps_the_frame :
  forall a a' : ast,
    _apply_catalog_and_resolve catalog track gender a = Some a' ->
    frame a' = frame a.
Proof.
  intros a a'. unfold _apply_catalog_and_resolve.
  destruct (resolve_program catalog track gender (a_program a))
    as [[prog ns]|] eqn:Hprog; simpl; [|done].
  intros [= <-]. destruct (resolve_program_parts _ _ _ Hprog) as (H1 & _).
  unfold frame. simpl. by rewrite H1.
Qed.

(** X5. After the resolver the movement of every line of a BLOCK and of
    every plain line of a BUYIN or CASHOUT is in canonical form: the
    alias table maps it to itself. *)
Theorem resolved_movements_are_canonical :
  forall a a' : ast,
    _apply_catalog_and_resolve catalog track gender a = Some a' ->
    Forall (fun ln => _normalize_mv (ln_movement ln) = ln_movement ln)
           (ast_read_lines a').
Proof.
  intros a a'. unfold _apply_catalog_and_resolve.
  destruct (resolve_program catalog track gender (a_program a))
    as [[prog ns]|] eqn:Hprog; simpl; [|done].
  intros [= <-]. by destruct (resolve_program_parts _ _ _ Hprog) as (_ & _ & H).
Qed.

Lemma issues_of_app code l1 l2 :
  issues_of code (l1 ++ l2) = issues_of code l1 ++ issues_of code l2.
Proof. unfold issues_of. apply List.filter_app. Qed.

Lemma issues_of_none code l :
  (forall i, In i l -> i_code i <> code) -> issues_of code l = [].
Proof.
  induction l as [|i l IH]; intros H; simpl; [done|].
  destruct (String.eqb_spec (i_code i) code) as [E|_].
  - destruct (H i); [by left | done].
  - apply IH. intros j Hj. apply H. by right.
Qed.

Lemma issues_of_notes l :
  issues_of "W050" (map note_issue l) = map note_issue l.
Proof. induction l as [|n l IH]; simpl; [done|]. by rewrite IH. Qed.

Lemma check_line_codes ln path i :
  In i (check_line ln path) -> i_code i = "W001" \/ i_code i = "W002".
Proof.
  unfold check_line. intros H. apply in_app_iff in H as [H|H].
  - destruct (negb _ && negb _); [|done]. destruct H as [<-|[]]. by left.
  - destruct (ln_load ln) as [[s|x y|raw]|]; try done.
    destruct (re_match RE_lint_load raw); [done|].
    destruct H as [<-|[]]. by right.
Qed.

(** The segments draw no issue of code [W050]. *)
Lemma lint_segment_codes j seg i :
  In i (lint_segment j seg) -> i_code i <> "W050".
Proof.
  assert (forall t sts, In i (lint_plain t sts) -> i_code i <> "W050")
    as Hplain.
  { intros t sts H. unfold lint_plain in H.
    apply in_flat_map in H as ([k [ln|slot ln f]] & _ & H); [|done].
    apply check_line_codes in H as [-> | ->]; done. }
  destruct seg as [sts|sts|d|b|]; simpl; try done; try apply Hplain.
  - destruct (d <=? 0)%Z; [|done]. by intros [<-|[]].
  - intros H. apply in_app_iff in H as [H|H].
    + destruct (b_head b); try done.
      destruct (existsb is_emom_line (b_stmts b)); [done|].
      by destruct H as [<-|[]].
    + apply in_flat_map in H as ([k st] & _ & H).
      apply check_line_codes in H as [-> | ->]; done.
Qed.

(** X6. On an AST that comes from the builder (no entry [normalized]
    yet) the resolver records, in program order, one note for each line
    whose movement the alias table renames, and [lint] then reports
    exactly these notes as its warnings of code [W050]. *)
Theorem renamed_lines_are_reported :
  forall a a' : ast,
    m_normalized (a_meta a) = None ->
    _apply_catalog_and_resolve catalog track gender a = Some a' ->
    m_normalized (a_meta a') = Some (ast_renames a)
    /\ issues_of "W050" (lint a') = map note_issue (ast_renames a).
Proof.
  intros a a' Hnone. unfold _apply_catalog_and_resolve.
  destruct (resolve_program catalog track gender (a_program a))
    as [[prog ns]|] eqn:Hprog; simpl; [|done].
  intros [= <-]. destruct (resolve_program_parts _ _ _ Hprog) as (_ & -> & _).
  unfold lint. simpl. rewrite Hnone. split; [done|]. simpl.
  rewrite issues_of_app.
  rewrite (issues_of_none "W050" (flat_map _ _)).
  - rewrite app_nil_r. apply issues_of_notes.
  - intros i Hi. apply in_flat_map in Hi as ([j seg] & _ & Hi).
    by eapply lint_segment_codes.
Qed.

(** X7. A line whose movement is written as an alias, in any case of
    letters, draws no ["Unknown movement"] warning once the resolver has
    passed: the name the alias table gives it is a known movement. *)
Theorem aliased_movements_are_known :
  forall (ln ln' : line) (ns : list note) (path : string),
    is_Some (dict_get MOVEMENT_ALIASES (str_lower (ln_movement ln))) ->
    resolve_line catalog track gender ln = Some (ln', ns) ->
    existsb (String.eqb (ln_movement ln')) KNOWN_MOVEMENTS = true
    /\ forall i, In i (check_line ln' path) -> i_code i <> "W001".
Proof.
  intros ln ln' ns path [v Hv] Hr.
  destruct (resolve_line_parts _ _ _ Hr) as (Hm & _ & _).
  assert (existsb (String.eqb (ln_movement ln')) KNOWN_MOVEMENTS = true) as Hk.
  { rewrite Hm. unfold _normalize_mv. rewrite Hv.
    apply dict_get_In in Hv. pose proof alias_targets_known as H.
    rewrite List.Forall_forall in H. by apply H. }
  split; [exact Hk|]. intros i Hi. unfold check_line in Hi.
  rewrite Hk, andb_false_r in Hi. simpl in Hi.
  destruct (ln_load ln') as [[s|x y|raw]|]; try done.
  destruct (re_match RE_lint_load raw); [done|]. by destruct Hi as [<-|[]].
Qed.

End ResolverFrame.

(** The program [BLOCK FT { 10 wb; }], resolved: its line is renamed to
    [wall_balls], a note records it, and the frame is kept. *)
Lemma resolver_keeps_the_frame_witness :
  _apply_catalog_and_resolve (rt := DecimalFloat.runtime) None "RX" "male"
    (ten_of None "wb")
  = Some (ten_of (Some [Note "wb" "wall_balls"]) "wall_balls")
  /\ frame (rt := DecimalFloat.runtime)
       (ten_of (Some [Note "wb" "wall_balls"]) "wall_balls")
     = frame (ten_of None "wb").
Proof.
  split; [reflexivity|].
  exact (resolver_keeps_the_frame (rt := DecimalFloat.runtime) None "RX" "male"
           (ten_of None "wb") _ eq_refl).
Defined.

Lemma resolved_movements_are_canonical_witness :
  _apply_catalog_and_resolve (rt := DecimalFloat.runtime) None "RX" "male"
    (ten_of None "wb")
  = Some (ten_of (Some [Note "wb" "wall_balls"]) "wall_balls")
  /\ Forall (fun ln => _normalize_mv (ln_movement ln) = ln_movement ln)
            (ast_read_lines (rt := DecimalFloat.runtime)
               (ten_of (Some [Note "wb" "wall_balls"]) "wall_balls")).
Proof.
  split; [reflexivity|].
  exact (resolved_movements_are_canonical (rt := DecimalFloat.runtime)
           None "RX" "male" (ten_of None "wb") _ eq_refl).
Defined.

Lemma renamed_lines_are_reported_witness :
  m_normalized (a_meta (rt := DecimalFloat.runtime) (ten_of None "wb")) = None
  /\ ast_renames (rt := DecimalFloat.runtime) (ten_of None "wb")
     = [Note "wb" "wall_balls"]
  /\ issues_of "W050"
       (lint (rt := DecimalFloat.runtime)
          (ten_of (Some [Note "wb" "wall_balls"]) "wall_balls"))
     = [Issue "warning" "W050" "META" "Alias 'wb' -> 'wall_balls'"].
Proof.
  split; [reflexivity|]. split; [reflexivity|].
  exact (proj2 (renamed_lines_are_reported (rt := DecimalFloat.runtime)
                  None "RX" "male" (ten_of None "wb") _ eq_refl eq_refl)).
Defined.

(** The line [10 WB] is renamed to [wall_balls], a known movement. *)
Lemma aliased_movements_are_known_witness :
  is_Some (dict_get MOVEMENT_ALIASES (str_lower "WB"))
  /\ resolve_line (rt := DecimalFloat.runtime) None "RX" "male"
       (Line (Some (QReps 10)) "WB" None [])
     = Some (Line (Some (QReps 10)) "wall_balls" None [],
             [Note "WB" "wall_balls"])
  /\ forall i,
       In i (check_line (rt := DecimalFloat.runtime)
               (Line (Some (QReps 10)) "wall_balls" None [])
               "BLOCK[0].LINE[0]") ->
       i_code i <> "W001".
Proof.
  assert (is_Some (dict_get MOVEMENT_ALIASES (str_lower "WB"))) as Hs
    by (by eexists).
  split; [exact Hs|]. split; [reflexivity|].
  exact (proj2 (aliased_movements_are_known (rt := DecimalFloat.runtime)
                  None "RX" "male" (Line (Some (QReps 10)) "WB" None []) _ _
                  "BLOCK[0].LINE[0]" Hs eq_refl)).
Defined.

(** ** The AST builder: times, quantities, options and segments *)

Lemma digit_not_colon c : is_digit c = true -> Ascii.eqb ":" c = false.
Proof. by_ascii c. Qed.

Lemma digit_not_sep c :
  is_digit c = true ->
  negb (Ascii.eqb c "/") = true /\ negb (Ascii.eqb c ":") = true.
Proof. by_ascii c. Qed.

(** [s.split(sep)] on a text without separator, and on a text cut at
    its first separator. *)
Lemma str_split_none sep s :
  str_forallb (fun c => negb (Ascii.eqb c sep)) s = true ->
  str_split sep s = [s].
Proof.
  induction s as [|c s IH]; simpl; [done|]. intros H.
  apply andb_true_iff in H as [Hc Hs]. apply negb_true_iff in Hc.
  by rewrite Hc, IH.
Qed.

Lemma str_split_first sep a b :
  str_forallb (fun c => negb (Ascii.eqb c sep)) a = true ->
  str_split sep (a +:+ String sep b) = a :: str_split sep b.
Proof.
  induction a as [|c a IH]; intros H.
  - rewrite str_app_nil_l. simpl. by rewrite Ascii.eqb_refl.
  - simpl in H. apply andb_true_iff in H as [Hc Ha]. apply negb_true_iff in Hc.
    rewrite str_app_cons. simpl. by rewrite Hc, IH.
Qed.

Lemma py_int_of_str_digits c p :
  is_digit c = true -> str_forallb is_digit p = true ->
  is_Some (py_int_of_str (String c p)).
Proof. intros Hc Hp. unfold py_int_of_str. simpl. rewrite Hc, Hp. by eexists. Qed.

Lemma digits_no_sep sep p :
  (forall c, is_digit c = true -> negb (Ascii.eqb c sep) = true) ->
  str_forallb is_digit p = true ->
  str_forallb (fun c => negb (Ascii.eqb c sep)) p = true.
Proof. intros H. by apply str_forallb_impl. Qed.

Section BuilderFacts.
Context {rt : PyFloat}.

Lemma lookup_int_nonneg (xs : list node) i n :
  xs !! i ≫= node_int = Some n -> 0 <= n.
Proof.
  destruct (xs !! i) as [x|]; simpl; [|done].
  destruct x; simpl; try done; apply py_int_of_str_nonneg.
Qed.

Lemma time_from_tree_nonneg t v : time_from_tree t = Some v -> 0 <= v.
Proof.
  destruct t as [| data children | | | | | | | | | | | | ]; simpl; try done.
  destruct (String.eqb data "mmss").
  { destruct (children !! 0%nat ≫= node_int) as [a|] eqn:Ea; simpl; [|done].
    destruct (children !! 1%nat ≫= node_int) as [b|] eqn:Eb; simpl; [|done].
    intros [= <-]. apply lookup_int_nonneg in Ea, Eb. lia. }
  destruct (String.eqb data "only_m").
  { destruct (children !! 0%nat ≫= node_int) as [a|] eqn:Ea; simpl; [|done].
    intros [= <-]. apply lookup_int_nonneg in Ea. lia. }
  destruct (String.eqb data "only_s"); [|done]. apply lookup_int_nonneg.
Qed.

Lemma lookup_time_nonneg (xs : list node) i v :
  xs !! i ≫= time_from_tree = Some v -> 0 <= v.
Proof.
  destruct (xs !! i) as [x|]; simpl; [|done]. apply time_from_tree_nonneg.
Qed.

(** X8. No time and no count the builder reads is negative: the value
    of a [time] tree, the duration of a REST, the cap, the durations,
    rounds and sets of the block heads and the number of a slot-line. *)
Theorem built_times_are_not_negative :
  (forall t v, time_from_tree t = Some v -> 0 <= v)
  /\ (forall xs d, ToAST.rest xs = Some (NSeg (REST d)) -> 0 <= d)
  /\ (forall xs v, ToAST.cap_line xs = Some (NMeta (MCap v)) -> 0 <= v)
  /\ (forall cb xs h,
        In cb [ToAST.amrap_head; ToAST.emom_head; ToAST.ft_head;
               ToAST.rft_head; ToAST.chipper_head; ToAST.tabata_head;
               ToAST.interval_head] ->
        cb xs = Some (NHead h) -> head_nonneg h)
  /\ (forall xs slot ln f,
        ToAST.emom_stmt xs = Some (NStmt (EMOM_LINE slot ln f)) -> 0 <= slot).
Proof.
  split; [exact time_from_tree_nonneg|]. split; [|split; [|split]].
  - intros xs d. unfold ToAST.rest, time_from_children.
    destruct (xs !! 0%nat ≫= time_from_tree) as [v|] eqn:E; simpl; [|done].
    intros [= <-]. by eapply lookup_time_nonneg.
  - intros xs d. unfold ToAST.cap_line, time_from_children.
    destruct (xs !! 0%nat ≫= time_from_tree) as [v|] eqn:E; simpl; [|done].
    intros [= <-]. by eapply lookup_time_nonneg.
  - intros cb xs h Hin. simpl in Hin.
    destruct Hin as [<-|[<-|[<-|[<-|[<-|[<-|[<-|[]]]]]]]].
    + unfold ToAST.amrap_head, time_from_children.
      destruct (xs !! 0%nat ≫= time_from_tree) as [v|] eqn:E; simpl; [|done].
      intros [= <-]. simpl. by eapply lookup_time_nonneg.
    + unfold ToAST.emom_head, time_from_children.
      destruct (xs !! 0%nat ≫= time_from_tree) as [v|] eqn:E; simpl; [|done].
      intros [= <-]. simpl. by eapply lookup_time_nonneg.
    + by intros [= <-].
    + unfold ToAST.rft_head.
      destruct (xs !! 0%nat ≫= node_int) as [v|] eqn:E; simpl; [|done].
      intros [= <-]. simpl. by eapply lookup_int_nonneg.
    + by intros [= <-].
    + unfold ToAST.tabata_head.
      destruct (xs !! 0%nat ≫= time_from_tree) as [w|] eqn:Ew; simpl; [|done].
      destruct (xs !! 1%nat ≫= time_from_tree) as [r|] eqn:Er; simpl; [|done].
      destruct (xs !! 2%nat ≫= node_int) as [s|] eqn:Es; simpl; [|done].
      intros [= <-]. simpl. apply lookup_time_nonneg in Ew, Er.
      by apply lookup_int_nonneg in Es.
    + unfold ToAST.interval_head.
      destruct (xs !! 0%nat ≫= node_int) as [s|] eqn:Es; simpl; [|done].
      destruct (xs !! 1%nat ≫= time_from_tree) as [w|] eqn:Ew; simpl; [|done].
      destruct (xs !! 2%nat ≫= time_from_tree) as [r|] eqn:Er; simpl; [|done].
      intros [= <-]. simpl. apply lookup_time_nonneg in Ew, Er.
      by apply lookup_int_nonneg in Es.
  - intros xs slot ln f. unfold ToAST.emom_stmt.
    destruct (xs !! 0%nat ≫= node_int) as [v|] eqn:E; simpl; [|done].
    destruct (xs !! 1%nat) as [[| | | | | | | | | | | |[l|? ? ?]|]|]; try done.
    intros [= <- _ _]. by eapply lookup_int_nonneg.
Qed.

(** On a token that starts with a digit the pattern of [hold_time]
    fails. *)
Lemma hold_time_pattern_digit c s :
  is_digit c = true -> re_match ToAST.RE_hold_time (String c s) = None.
Proof.
  intros H. unfold re_match, ToAST.RE_hold_time. simpl.
  by rewrite (is_digit_not_bslash c H).
Qed.

Lemma hold_time_seconds c p :
  is_digit c = true -> str_forallb is_digit p = true ->
  ToAST.hold_time [NTok "TIMEQ" (String c p +:+ "s")] = Some (NQty (QTime 0)).
Proof.
  intros Hc Hp. unfold ToAST.hold_time.
  change ([NTok "TIMEQ" (String c p +:+ "s")] !! 0%nat ≫= node_raw)
    with (Some (String c p +:+ "s")).
  cbn [mbind option_bind].
  assert (str_existsb (Ascii.eqb ":") (String c p +:+ "s") = false) as ->.
  { rewrite str_existsb_app. cbn [str_existsb].
    rewrite (digit_not_colon c Hc).
    by rewrite (str_forallb_no is_digit _ p digit_not_colon Hp). }
  rewrite str_app_cons. by rewrite (hold_time_pattern_digit c _ Hc).
Qed.

(** X9. A hold written in seconds, as [30s], is a [TIMEQ] token, and
    [hold_time] reads it as a time of 0 seconds: its pattern, written
    with doubled backslashes, never matches, and the fallback is 0. *)
Theorem hold_time_drops_seconds :
  forall d : string,
    d <> "" -> str_forallb is_digit d = true ->
    re_full RE_TIMEQ (d +:+ "s") = true
    /\ ToAST.hold_time [NTok "TIMEQ" (d +:+ "s")] = Some (NQty (QTime 0)).
Proof.
  intros d Hne Hd. destruct d as [|c p]; [done|]. clear Hne.
  simpl in Hd. apply andb_true_iff in Hd as [Hc Hp]. split.
  - apply re_full_iff. exists ([] ++ []). unfold RE_TIMEQ.
    apply re_run_alt_iff. right. apply re_run_seq_iff. exists "s", [], [].
    split; [|split; [by apply re_run_chr_iff|done]].
    apply re_run_plus_iff. split; [done|]. by exists c, p.
  - by apply hold_time_seconds.
Qed.

Lemma dual_distance_token s :
  re_full RE_DISTDUAL s = true ->
  ToAST.dual_distance [NTok "DISTDUAL" s]
  = Some (NQty (QDualDistance (NInt 0) (NInt 0))).
Proof.
  intros H.
  change RE_DISTDUAL
    with (Seq RE_NUM (Seq (Chr "/") (Seq RE_NUM RE_M_KM))) in H.
  apply re_full_seq_head in H as (rest & g & H).
  apply re_num_head in H as (c & s' & -> & Hc).
  unfold ToAST.dual_distance, re_match, ToAST.RE_dual_distance. simpl.
  by rewrite (is_digit_not_bslash c Hc).
Qed.

(** X10. A dual distance, as [400/300m], loses both its numbers: the
    pattern of [dual_distance] never matches a [DISTDUAL] token, the
    fallback holds 0 for both branches, and whatever the gender the
    resolver leaves a distance of 0. *)
Theorem dual_distance_loses_both_numbers :
  forall (s gender : string),
    re_full RE_DISTDUAL s = true ->
    ToAST.dual_distance [NTok "DISTDUAL" s]
    = Some (NQty (QDualDistance (NInt 0) (NInt 0)))
    /\ resolve_qty gender (Some (QDualDistance (NInt 0) (NInt 0)))
       = Some (QDistance (NInt 0)).
Proof.
  intros s gender H. split; [by apply dual_distance_token|].
  simpl. by destruct (is_male gender).
Qed.

(** *** The options of a block *)

Lemma block_loop_opts opts rest acc :
  ToAST.block_loop (map (fun o => NTree "block_opt" [o]) opts ++ rest) acc
  = ToAST.block_loop rest acc.
Proof. induction opts as [|o opts IH]; simpl; [done|]. exact IH. Qed.

Lemma block_loop_stmts sts : forall rest acc,
  ToAST.block_loop (map NStmt sts ++ rest) acc
  = ToAST.block_loop rest
      (Block (b_head acc) (b_stmts acc ++ sts) (b_work acc) (b_partition acc)
             (b_cap acc) (b_tiebreak acc)).
Proof.
  induction sts as [|st sts IH]; intros rest acc; simpl.
  - rewrite app_nil_r. by destruct acc.
  - rewrite IH. simpl. by rewrite <- app_assoc.
Qed.

(** X11. The options written on a block never reach the AST. The rule
    [block_opt] has no callback, its subtree reaches [block] as a tree,
    and the loop of [block] reads dictionaries only: whatever WORK,
    PARTITION or CAP options a block carries, the block that is built has
    none of the entries [work], [partition] and [cap]; it has the head,
    the statements in their order, and the tiebreak. *)
Theorem block_options_are_dropped :
  forall (h : bhead) (opts : list node) (sts : list stmt)
         (tb : option tiebreak),
    ToAST.block (block_children h opts sts tb)
    = Some (NSeg (BLOCK (Block h sts None None None tb))).
Proof.
  intros h opts sts tb. unfold block_children, ToAST.block.
  rewrite block_loop_opts, block_loop_stmts. simpl. by destruct tb.
Qed.

(** *** The order of the segments *)

Lemma start_loop_spec items : forall acc a,
  ToAST.start_loop items acc = Some a ->
  a_program a = a_program acc ++ omap node_segment items
  /\ m_title (a_meta a)
     = match last (omap node_title items) with
       | Some t => Some t
       | None => m_title (a_meta acc)
       end
  /\ m_normalized (a_meta a) = m_normalized (a_meta acc).
Proof.
  induction items as [|it items IH]; intros acc a.
  - simpl. intros [= <-]. by rewrite app_nil_r.
  - change (omap node_segment (it :: items))
      with (match node_segment it with
            | Some y => y :: omap node_segment items
            | None => omap node_segment items
            end).
    change (omap node_title (it :: items))
      with (match node_title it with
            | Some y => y :: omap node_title items
            | None => omap node_title items
            end).
    destruct it as [| | | | | | | | | |mi| | |s];
      cbn [ToAST.start_loop node_segment node_title]; try done.
    + intros H. apply IH in H as (H1 & H2 & H3). rewrite H1, H2, H3.
      destruct mi as [v|v|v|v|v];
        cbn [a_program a_meta m_title m_normalized]; try done.
      rewrite last_cons. by destruct (last (omap node_title items)).
    + intros H. apply IH in H as (H1 & H2 & H3). rewrite H1, H2, H3.
      cbn [a_program a_meta m_title m_normalized]. by rewrite <- app_assoc.
Qed.

(** X12. [start] keeps every segment, in the order of the source,
    wherever the meta lines stand; the title is that of the last WOD
    line; and the AST has no entry [normalized] yet. *)
Theorem start_keeps_the_segments :
  forall (items : list node) (a : ast),
    ToAST.start items = Some a ->
    a_program a = omap node_segment items
    /\ m_title (a_meta a) = last (omap node_title items)
    /\ m_normalized (a_meta a) = None.
Proof.
  intros items a H. apply start_loop_spec in H as (H1 & H2 & H3).
  simpl in *. rewrite H1, H2, H3. split; [done|]. split; [|done].
  by destruct (last (omap node_title items)).
Qed.

(** *** Every line the grammar derives is built *)

Lemma reps_total s :
  re_full RE_INT s = true -> is_Some (ToAST.reps [NTok "INT" s]).
Proof.
  intros H. apply re_full_iff in H as [g H]. unfold RE_INT in H.
  apply re_run_plus_iff in H as (_ & c & p & Hc & Hp & ->).
  rewrite str_app_nil_r. unfold ToAST.reps. simpl.
  destruct (py_int_of_str_digits c p Hc Hp) as [n Hn].
  unfold py_int_of_str in Hn. simpl in Hn. rewrite Hn. by eexists.
Qed.

Lemma dual_reps_total s :
  re_full RE_REPDUAL s = true -> is_Some (ToAST.dual_reps [NTok "REPDUAL" s]).
Proof.
  intros H. apply re_full_iff in H as [g H].
  change RE_REPDUAL
    with (Seq (Plus is_digit) (Seq (Chr "/") (Plus is_digit))) in H.
  apply re_run_seq_iff in H as (m1 & g1 & g1' & H1 & H & _).
  apply re_run_seq_iff in H as (m2 & g2 & g2' & H2 & H3 & _).
  apply re_run_plus_iff in H1 as (_ & c1 & p1 & Hc1 & Hp1 & ->).
  apply re_run_chr_iff in H2 as [-> _].
  apply re_run_plus_iff in H3 as (_ & c2 & p2 & Hc2 & Hp2 & ->).
  rewrite str_app_nil_r. unfold ToAST.dual_reps.
  change ([NTok "REPDUAL" (String c1 p1 +:+ String "/" (String c2 p2))]
            !! 0%nat ≫= node_raw)
    with (Some (String c1 p1 +:+ String "/" (String c2 p2))).
  cbn [mbind option_bind]. unfold ToAST.split2.
  rewrite str_split_first, str_split_none.
  - cbn [mbind option_bind].
    destruct (py_int_of_str_digits c1 p1 Hc1 Hp1) as [n1 ->].
    cbn [mbind option_bind].
    destruct (py_int_of_str_digits c2 p2 Hc2 Hp2) as [n2 ->].
    by eexists.
  - simpl. rewrite (proj1 (digit_not_sep c2 Hc2)). simpl.
    apply digits_no_sep; [|done]. intros c Hc. apply (digit_not_sep c Hc).
  - simpl. rewrite (proj1 (digit_not_sep c1 Hc1)). simpl.
    apply digits_no_sep; [|done]. intros c Hc. apply (digit_not_sep c Hc).
Qed.

Lemma hold_time_total s :
  re_full RE_TIMEQ s = true -> is_Some (ToAST.hold_time [NTok "TIMEQ" s]).
Proof.
  intros H. apply re_full_iff in H as [g H]. unfold RE_TIMEQ in H.
  apply re_run_alt_iff in H as [H|H].
  - change (re_seq [Cls is_digit; Opt (Cls is_digit); Chr ":";
                    Cls is_digit; Cls is_digit])
      with (Seq (Cls is_digit)
              (Seq (Opt (Cls is_digit))
                 (Seq (Chr ":") (Seq (Cls is_digit) (Cls is_digit))))) in H.
    apply re_run_seq_iff in H as (m1 & ? & ? & H1 & H & _).
    apply re_run_seq_iff in H as (m2 & ? & ? & H2 & H & _).
    apply re_run_seq_iff in H as (m3 & ? & ? & H3 & H & _).
    apply re_run_seq_iff in H as (m4 & ? & ? & H4 & H5 & _).
    apply re_run_cls_iff in H1 as (c1 & -> & Hc1 & _).
    apply re_run_chr_iff in H3 as [-> _].
    apply re_run_cls_iff in H4 as (c3 & [= ->] & Hc3 & _).
    apply re_run_cls_iff in H5 as (c4 & -> & Hc4 & _).
    assert (exists a, (a = String c1 "" \/ exists c2, is_digit c2 = true
                                            /\ a = String c1 (String c2 ""))
                      /\ String c1 m1
                         = a +:+ String ":" (String c3 (String c4 "")))
      as (a & Ha & ->).
    { apply re_run_opt_iff in H2 as [H2|[<- _]].
      - apply re_run_cls_iff in H2 as (c2 & -> & Hc2 & _).
        exists (String c1 (String c2 "")). split; [|done]. right. by exists c2.
      - exists (String c1 ""). split; [by left|done]. }
    assert (str_forallb (fun c => negb (Ascii.eqb c ":")) a = true
            /\ is_Some (py_int_of_str a)) as [Hna [n1 Hn1]].
    { destruct Ha as [->|(c2 & Hc2 & ->)].
      - split; [|by apply py_int_of_str_digits].
        cbn [str_forallb]. by rewrite (proj2 (digit_not_sep c1 Hc1)).
      - split.
        + cbn [str_forallb].
          by rewrite (proj2 (digit_not_sep c1 Hc1)),
                     (proj2 (digit_not_sep c2 Hc2)).
        + apply py_int_of_str_digits; [done|]. cbn [str_forallb].
          by rewrite Hc2. }
    unfold ToAST.hold_time.
    change ([NTok "TIMEQ" (a +:+ String ":" (String c3 (String c4 "")))]
              !! 0%nat ≫= node_raw)
      with (Some (a +:+ String ":" (String c3 (String c4 "")))).
    cbn [mbind option_bind].
    rewrite str_existsb_app. cbn [str_existsb].
    rewrite Ascii.eqb_refl, orb_true_l, orb_true_r.
    unfold ToAST.split2. rewrite str_split_first by done.
    rewrite str_split_none.
    2:{ cbn [str_forallb].
        by rewrite (proj2 (digit_not_sep c3 Hc3)),
                   (proj2 (digit_not_sep c4 Hc4)). }
    cbn [mbind option_bind]. rewrite Hn1. cbn [mbind option_bind].
    destruct (py_int_of_str_digits c3 (String c4 "") Hc3) as [n2 ->];
      [cbn [str_forallb]; by rewrite Hc4|].
    by eexists.
  - apply re_run_seq_iff in H as (m1 & ? & ? & H1 & H2 & _).
    apply re_run_plus_iff in H1 as (_ & c & p & Hc & Hp & ->).
    apply re_run_chr_iff in H2 as [-> _].
    rewrite (hold_time_seconds c p Hc Hp). by eexists.
Qed.

Lemma qty_node_total q :
  qty_valid q = true -> qty_without_float (Some q) = true ->
  is_Some (qty_node q).
Proof.
  destruct q as [s|s|s|s|s|s|s]; simpl; intros Hv Hf; try done.
  - by apply dual_reps_total.
  - rewrite (dual_distance_token s Hv). by eexists.
  - by apply reps_total.
  - rewrite (distance_qty_dist_token s Hv). by eexists.
  - by apply hold_time_total.
Qed.

(** X13. The builder raises no exception on a line the grammar derives
    whose quantity is not written in calories: every derivation of the
    [line] rule, with any movement, load, suffixes and terminator, and
    with a quantity in repetitions, distance or time, single or dual, or
    none, is turned into a line dictionary. *)
Theorem line_builder_is_total :
  forall c : cst_line,
    cst_valid c = true -> qty_without_float (c_qty c) = true ->
    is_Some (cst_line_ast c).
Proof.
  intros c Hv Hf. unfold cst_valid in Hv.
  repeat match type of Hv with
         | _ && _ = true => apply andb_true_iff in Hv as [Hv ?]
         end.
  unfold cst_line_ast, cst_children. rewrite movement_idents, suffix_nodes.
  destruct (c_qty c) as [q|]; simpl.
  - destruct (qty_node_total q Hv Hf) as [n ->]. simpl.
    destruct (c_load c) as [[s|s]|]; simpl.
    + rewrite load_loadval_token by done. by eexists.
    + rewrite load_loaddual_token by done. by eexists.
    + by eexists.
  - destruct (c_load c) as [[s|s]|]; simpl.
    + rewrite load_loadval_token by done. by eexists.
    + rewrite load_loaddual_token by done. by eexists.
    + by eexists.
Qed.

End BuilderFacts.

(** The time [2:00] is read as 120 seconds. *)
Lemma built_times_are_not_negative_witness :
  time_from_tree (rt := DecimalFloat.runtime)
    (NTree "mmss" [NTok "INT" "2"; NTok "INT" "00"]) = Some 120
  /\ 0 <= 120.
Proof.
  split; [reflexivity|].
  exact (proj1 (built_times_are_not_negative (rt := DecimalFloat.runtime))
           (NTree "mmss" [NTok "INT" "2"; NTok "INT" "00"]) 120 eq_refl).
Defined.

(** The hold [30s] is read as 0 seconds. *)
Lemma hold_time_drops_seconds_witness :
  re_full RE_TIMEQ "30s" = true
  /\ ToAST.hold_time (rt := DecimalFloat.runtime) [NTok "TIMEQ" "30s"]
     = Some (NQty (QTime 0)).
Proof.
  exact (hold_time_drops_seconds (rt := DecimalFloat.runtime) "30"
           ltac:(discriminate) eq_refl).
Defined.

(** The distance [400/300m] is read as 0 / 0. *)
Lemma dual_distance_loses_both_numbers_witness :
  re_full RE_DISTDUAL "400/300m" = true
  /\ ToAST.dual_distance (rt := DecimalFloat.runtime)
       [NTok "DISTDUAL" "400/300m"]
     = Some (NQty (QDualDistance (NInt 0) (NInt 0)))
  /\ resolve_qty (rt := DecimalFloat.runtime) "female"
       (Some (QDualDistance (NInt 0) (NInt 0)))
     = Some (QDistance (NInt 0)).
Proof.
  split; [reflexivity|].
  exact (dual_distance_loses_both_numbers (rt := DecimalFloat.runtime)
           "400/300m" "female" eq_refl).
Defined.

(** A title and a REST. *)
Lemma start_keeps_the_segments_witness :
  ToAST.start (rt := DecimalFloat.runtime)
    [NMeta (MTitle "Test"); NSeg (REST 60)]
  = Some (Ast (Meta (Some "Test") None None ∅ [] [] None) [REST 60])
  /\ a_program (rt := DecimalFloat.runtime)
       (Ast (Meta (Some "Test") None None ∅ [] [] None) [REST 60])
     = [REST 60].
Proof.
  split; [reflexivity|].
  exact (proj1 (start_keeps_the_segments (rt := DecimalFloat.runtime)
                  [NMeta (MTitle "Test"); NSeg (REST 60)] _ eq_refl)).
Defined.

(** The line [15/12 burpees;] is built. *)
Lemma line_builder_is_total_witness :
  cst_valid dual_reps_line = true
  /\ is_Some (cst_line_ast (rt := DecimalFloat.runtime) dual_reps_line).
Proof.
  split; [reflexivity|].
  exact (line_builder_is_total (rt := DecimalFloat.runtime) dual_reps_line
           eq_refl eq_refl).
Defined.

(** ** The catalog *)

Section CatalogFacts.
Context {rt : PyFloat}.
Variable cat : catalog_t.
Variable track : string.
Variable gender : string.

(** The pattern of [apply_catalog_line] starts with a backslash. *)
Lemma catalog_pattern_backslash s :
  str_head s <> Some BSLASH -> re_match RE_catalog_load s = None.
Proof.
  intros H. unfold re_match, RE_catalog_load. destruct s as [|c s]; [done|].
  simpl. destruct (Ascii.eqb_spec c BSLASH) as [->|_]; [|done].
  by destruct H.
Qed.

(** X14. A load default the catalog gives as a text, as ["43kg"], is
    never applied: the pattern that should read it is written with
    doubled backslashes and asks for a backslash first, so for every text
    that starts otherwise the line is left without load. *)
Theorem catalog_text_defaults_are_ignored :
  forall (ln : line) (s : string),
    ln_load ln = None ->
    table_get (mv_load (line_entry cat ln)) (str_lower track) gender
    = Some (CLStr s) ->
    str_head s <> Some BSLASH ->
    exists q,
      apply_catalog_line (Some cat) track gender ln
      = Some (Line q (ln_movement ln) None (ln_flags ln)).
Proof.
  intros ln s Hl Ht Hs. unfold apply_catalog_line, catalog_load.
  unfold line_entry in Ht. rewrite Hl, Ht.
  rewrite (catalog_pattern_backslash s Hs). simpl. by eexists.
Qed.

(** The quantity of a line written with a distance. *)
Lemma dist_line_qty c s ln :
  cst_valid c = true -> c_qty c = Some (CDist s) ->
  cst_line_ast c = Some ln -> ln_qty ln = Some (QDistance (NInt 0)).
Proof.
  intros Hv Hq Hast.
  destruct (cst_line_ast_fields c ln Hast) as (_ & _ & Hq' & _).
  destruct (cst_valid_parts c Hv) as (Hqv & _).
  rewrite Hq in Hq'. destruct Hq' as (q' & Hn & ->).
  specialize (Hqv _ Hq). simpl in Hqv, Hn.
  rewrite (distance_qty_dist_token s Hqv) in Hn. by injection Hn as <-.
Qed.

(** X15. A distance written in the source yields to the catalog. The
    builder reads every [DIST] token as a distance of 0, which the
    resolver takes for a missing quantity: the line gets the default
    repetitions of its movement when the catalog has them, else its
    default distance. *)
Theorem written_distance_yields_to_catalog :
  forall (c : cst_line) (s : string) (ln ln' : line) (ns : list note),
    cst_valid c = true -> c_qty c = Some (CDist s) ->
    cst_line_ast c = Some ln ->
    resolve_line (Some cat) track gender ln = Some (ln', ns) ->
    let tkey := str_lower track in
    (forall v, table_get (mv_reps (line_entry cat ln')) tkey gender = Some v ->
               ln_qty ln' = Some (QReps (num_int v)))
    /\ (forall v, table_get (mv_reps (line_entry cat ln')) tkey gender = None ->
                  table_get (mv_distance (line_entry cat ln')) tkey gender
                  = Some v ->
                  ln_qty ln' = Some (QDistance (NFloat (num_float v)))).
Proof.
  intros c s ln ln' ns Hv Hq Hast Hr tkey.
  pose proof (dist_line_qty c s ln Hv Hq Hast) as Hln.
  unfold resolve_line in Hr. rewrite Hln in Hr.
  destruct (resolve_load gender (ln_load ln)) as [l1|]; simpl in Hr; [|done].
  unfold apply_catalog_line in Hr. simpl in Hr.
  match type of Hr with
  | context [catalog_load gender ?m ?k l1] =>
      destruct (catalog_load gender m k l1) as [l2|]
  end; simpl in Hr; [|done].
  injection Hr as <- _. unfold line_entry. simpl. fold tkey. split.
  - intros v Hreps. unfold catalog_qty. simpl. by rewrite Hreps.
  - intros v Hreps Hdist. unfold catalog_qty. simpl. by rewrite Hreps, Hdist.
Qed.

End CatalogFacts.

(** The default ["43kg"] of [thrusters] leaves [10 thrusters] without
    load. *)
Lemma catalog_text_defaults_are_ignored_witness :
  exists q,
    apply_catalog_line (rt := DecimalFloat.runtime)
      (Some (thrusters_catalog (CLStr "43kg"))) "RX" "male"
      (Line (Some (QReps 10)) "thrusters" None [])
    = Some (Line q "thrusters" None []).
Proof.
  exact (catalog_text_defaults_are_ignored (rt := DecimalFloat.runtime)
           (thrusters_catalog (CLStr "43kg")) "RX" "male"
           (Line (Some (QReps 10)) "thrusters" None []) "43kg"
           eq_refl eq_refl ltac:(discriminate)).
Defined.

(** With the default distance 400 for [run], the line [200m run;] is
    resolved to 400 meters. *)
Lemma written_distance_yields_to_catalog_witness :
  cst_valid run_line = true
  /\ cst_line_ast (rt := DecimalFloat.runtime) run_line
     = Some (Line (Some (QDistance (NInt 0))) "run" None [])
  /\ resolve_line (rt := DecimalFloat.runtime)
       (Some (run_catalog (NInt 400))) "RX" "male"
       (Line (Some (QDistance (NInt 0))) "run" None [])
     = Some (Line (Some (QDistance
                          (NFloat (rt := DecimalFloat.runtime) (400, 0%nat))))
                  "run" None [], [])
  /\ ln_qty (rt := DecimalFloat.runtime)
       (Line (Some (QDistance
                      (NFloat (rt := DecimalFloat.runtime) (400, 0%nat))))
             "run" None [])
     = Some (QDistance (NFloat (num_float (NInt 400)))).
Proof.
  split; [reflexivity|]. split; [reflexivity|]. split; [reflexivity|].
  exact (proj2 (written_distance_yields_to_catalog
                  (rt := DecimalFloat.runtime) (run_catalog (NInt 400))
                  "RX" "male" run_line "200m" _ _ [] eq_refl eq_refl eq_refl
                  eq_refl) (NInt 400) eq_refl eq_refl).
Defined.

(** ** The timeline: the order of the events *)

Section TimelineOrder.
Context {rt : PyFloat}.

Lemma nondecreasing_weaken t t' evs :
  t' <= t -> nondecreasing_from t evs -> nondecreasing_from t' evs.
Proof. destruct evs as [|e evs]; simpl; [done|]. intros ? [? ?]. split; [lia|done]. Qed.

Lemma within_app t t1 t2 evs1 evs2 :
  within t t1 evs1 -> within t1 t2 evs2 -> within t t2 (evs1 ++ evs2).
Proof.
  intros (H1 & H2 & H3) (H4 & H5 & H6). split; [lia|]. split.
  - revert t H1 H2.
    induction evs1 as [|e evs1 IH]; intros t H1 H2; simpl.
    + by apply (nondecreasing_weaken t1).
    + destruct H2 as [He H2]. apply Forall_cons in H3 as [He1 H3].
      split; [done|]. by apply IH.
  - apply Forall_app. split; [|done].
    eapply Forall_impl; [exact H3|]. intros e He. simpl in *. lia.
Qed.

Lemma within_nil t : within t t [].
Proof. split; [lia|]. by split. Qed.

Lemma within_one t t' k : t <= t' -> within t t' [Event t' k].
Proof.
  intros H. split; [done|]. split; [by split|]. repeat constructor. simpl. lia.
Qed.

Lemma within_weaken t0 t t' evs : t0 <= t -> within t t' evs -> within t0 t' evs.
Proof.
  intros H (H1 & H2 & H3). split; [lia|]. split; [|done].
  by apply (nondecreasing_weaken t).
Qed.

Lemma within_cons t t' k evs :
  within t t' evs -> within t t' (Event t k :: evs).
Proof.
  intros (H1 & H2 & H3). split; [done|]. split; [simpl; split; [lia|done]|].
  by constructor.
Qed.

Lemma within_prompts t sts : within t t (prompts t sts).
Proof.
  unfold prompts. induction sts as [|[ln|slot ln f] sts IH]; simpl;
    [apply within_nil| |exact IH].
  by apply within_cons.
Qed.

Lemma within_emom_loop slots n : forall i t t' evs,
  emom_loop slots n i t = Some (t', evs) -> within t t' evs.
Proof.
  induction n as [|n IH]; intros i t t' evs; simpl.
  - intros [= <- <-]. apply within_nil.
  - destruct (decide (size slots = 0%nat)); [intros [= <- <-]; apply within_nil|].
    destruct (slots !! _) as [ln|]; simpl; [|done].
    destruct (emom_loop slots n (i + 1) (t + 60)) as [[t1 e1]|] eqn:E;
      simpl; [|done].
    intros [= <- <-]. apply IH in E.
    apply within_cons. apply (within_weaken t (t + 60)); [lia|done].
Qed.

(** A segment that opens and closes at the same time, around prompts. *)
Lemma within_bracket t d k1 k2 sts :
  0 <= d ->
  within t (t + d) (Event t k1 :: prompts t sts ++ [Event (t + d) k2]).
Proof.
  intros Hd. apply within_cons.
  eapply within_app; [apply within_prompts|apply within_one; lia].
Qed.

Lemma within_segment t seg t' evs :
  segment_not_negative seg ->
  timeline_segment t seg = Some (t', evs) -> within t t' evs.
Proof.
  intros Hn. destruct seg as [sts|sts|d|b|]; simpl in *.
  - intros [= <- <-]. pose proof (within_bracket t 0 START_BUYIN END_BUYIN sts)
      as H. rewrite Z.add_0_r in H. apply H. lia.
  - intros [= <- <-].
    pose proof (within_bracket t 0 START_CASHOUT END_CASHOUT sts) as H.
    rewrite Z.add_0_r in H. apply H. lia.
  - intros [= <- <-]. apply within_cons. apply within_one. lia.
  - destruct (b_head b) as [d|d| |r| |w r s|s w r] eqn:Hh;
      try (intros [= <- <-]; by apply within_bracket).
    destruct (emom_loop _ _ 0 t) as [[t1 e1]|] eqn:E; simpl; [|done].
    intros [= <- <-]. apply within_emom_loop in E. apply within_cons.
    eapply within_app; [exact E|apply within_one; lia].
  - intros [= <- <-]. apply within_nil.
Qed.

Lemma within_timeline segs : forall t t' evs,
  Forall segment_not_negative segs ->
  timeline_from t segs = Some (t', evs) -> within t t' evs.
Proof.
  induction segs as [|seg segs IH]; intros t t' evs Hn; simpl.
  - intros [= <- <-]. apply within_nil.
  - apply Forall_cons in Hn as [Hseg Hn].
    destruct (timeline_segment t seg) as [[t1 e1]|] eqn:E1; simpl; [|done].
    destruct (timeline_from t1 segs) as [[t2 e2]|] eqn:E2; simpl; [|done].
    intros [= <- <-].
    eapply within_app; [by eapply within_segment|by eapply IH].
Qed.

(** X16. The events of a timeline are in chronological order, from
    time 0 on, provided the clock never goes back: no REST and no AMRAP
    block has a negative duration, and the estimated duration of a block
    that is neither AMRAP nor EMOM is not negative. An EMOM block needs
    no condition. *)
Theorem timeline_is_chronological :
  forall (a : ast) (evs : list event),
    Forall segment_not_negative (a_program a) ->
    build_timeline a = Some evs ->
    nondecreasing_from 0 evs.
Proof.
  intros a evs Hn. unfold build_timeline.
  destruct (timeline_from 0 (a_program a)) as [[t e]|] eqn:E; simpl; [|done].
  intros [= <-]. by destruct (within_timeline _ _ _ _ Hn E) as (_ & H & _).
Qed.

(** X17. An EMOM block without slot-lines takes no time, whatever its
    duration: the loop over the minutes stops at once, the plain lines of
    the block are not prompted, and the block contributes a START_BLOCK
    and an END_BLOCK event at the same time. *)
Theorem emom_without_slots_takes_no_time :
  forall (t D : Z) (b : block),
    b_head b = EMOM D -> emom_lines (b_stmts b) = [] ->
    timeline_segment t (BLOCK b)
    = Some (t, [Event t (START_BLOCK "EMOM"); Event t END_BLOCK]).
Proof.
  intros t D b Hh Hs. simpl. rewrite Hh.
  assert (slots_numbered (b_stmts b) 0) as Hnum.
  { unfold slots_numbered. by rewrite Hs. }
  by rewrite (emom_loop_no_slots _ _ _ _ Hnum).
Qed.

End TimelineOrder.

(** The two-slot EMOM: its events are in order. *)
Lemma timeline_is_chronological_witness :
  Forall (segment_not_negative (rt := DecimalFloat.runtime))
         (a_program two_slot_emom)
  /\ nondecreasing_from 0
       [Event 0 (START_BLOCK "EMOM");
        Event 0 (NEXT_SLOT 1 "10 wall_balls");
        Event 60 (NEXT_SLOT 2 "8 box_jumps"); Event 120 END_BLOCK].
Proof.
  assert (Forall (segment_not_negative (rt := DecimalFloat.runtime))
                 (a_program two_slot_emom)) as Hn by (by repeat constructor).
  split; [exact Hn|].
  exact (timeline_is_chronological (rt := DecimalFloat.runtime) two_slot_emom
           _ Hn eq_refl).
Defined.

(** [BLOCK EMOM 2:00 { 10 burpees; }]: no slot-line, no time. *)
Lemma emom_without_slots_takes_no_time_witness :
  timeline_segment (rt := DecimalFloat.runtime) 0
    (BLOCK (Block (EMOM 120) [LINE (Line (Some (QReps 10)) "burpees" None [])]
                  None None None None))
  = Some (0, [Event 0 (START_BLOCK "EMOM"); Event 0 END_BLOCK]).
Proof.
  exact (emom_without_slots_takes_no_time (rt := DecimalFloat.runtime) 0 120
           (Block (EMOM 120) [LINE (Line (Some (QReps 10)) "burpees" None [])]
                  None None None None) eq_refl eq_refl).
Defined.

(** ** The text normalizer: what it keeps *)

Module FmtContent.
Import Fmt FmtFacts.

Lemma nonblank_app l1 l2 : nonblank (l1 ++ l2) = nonblank l1 ++ nonblank l2.
Proof. unfold nonblank. apply List.filter_app. Qed.

(** The loop drops blank lines only. *)
Lemma nonblank_collapse pb lines :
  nonblank (collapse pb lines) = nonblank (map rstrip lines).
Proof.
  revert pb. induction lines as [|l lines IH]; intros pb; simpl; [done|].
  destruct (rstrip l) as [|c r] eqn:E; simpl.
  - destruct pb; simpl; apply IH.
  - by rewrite IH.
Qed.

(** Dropping the newlines that end the joined lines drops at most the
    blank line that ends the list. *)
Lemma join_rstrip_lines ls :
  Forall clean_line ls -> blanks_ok false ls = true ->
  exists ls', tidy ls'
    /\ rstrip_by (N.eqb LF) (join_lines ls) = join_lines ls'
    /\ nonblank ls' = nonblank ls.
Proof.
  intros Hclean Hb.
  destruct ls as [|l ls _] using rev_ind; [by exists []|].
  destruct l as [|c l].
  - apply blanks_ok_snoc in Hb as [Hb Hlast]. specialize (Hlast eq_refl).
    apply Forall_app in Hclean as [Hclean _].
    assert (tidy ls) as Ht by done.
    exists ls. split; [done|]. split.
    + destruct (decide (ls = [])) as [->|Hne]; [done|].
      rewrite join_lines_snoc by done.
      rewrite rstrip_by_snoc. simpl. by apply tidy_rstrip.
    + rewrite nonblank_app. simpl. by rewrite app_nil_r.
  - assert (tidy (ls ++ [c :: l])) as Ht.
    { repeat split; [done..|]. by rewrite last_snoc. }
    exists (ls ++ [c :: l]). split; [done|]. split; [|done].
    by apply tidy_rstrip.
Qed.

(** X18. The normalizer keeps every line that is not blank, in order,
    and changes nothing in it but the whitespace at its end: the lines
    of the normalized text that are not blank are the lines of the input,
    each without its trailing whitespace, that are not blank. *)
Theorem normalize_keeps_the_lines :
  forall t : text,
    nonblank (splitlines (_normalize_wod_text t))
    = nonblank (map rstrip (splitlines t)).
Proof.
  intros t. unfold _normalize_wod_text.
  destruct (collapse_clean false (splitlines t) (splitlines_nolb t))
    as [Hclean Hb].
  destruct (join_rstrip_lines _ Hclean Hb) as (ls & Ht & -> & Hnb).
  rewrite <- nonblank_collapse with (pb := false). rewrite <- Hnb.
  destruct (decide (ls = [])) as [->|Hne]; [done|].
  rewrite join_catl by done. destruct Ht as (Hc & _ & _).
  by rewrite splitlines_catl by (by apply clean_lines_nolb).
Qed.

(** X19. The texts the normalizer leaves as they are: exactly those
    made of lines without line boundary and without whitespace at their
    end, no two blank lines in a row, the last line not blank, the lines
    joined by newlines and followed by one newline. *)
Theorem normalize_fixed_points :
  forall t : text,
    _normalize_wod_text t = t
    <-> exists ls, tidy ls /\ t = join_lines ls ++ [LF].
Proof.
  intros t. split.
  - intros H. destruct (normalize_shape t) as (ls & Ht & Heq).
    exists ls. split; [done|]. by rewrite <- H.
  - intros (ls & Ht & ->). by apply normalize_tidy.
Qed.

(** The characters of the lines are characters of the text. *)
Lemma splitlines_chars_aux (P : N -> Prop) n : forall s,
  (length s <= n)%nat -> Forall P s -> Forall (Forall P) (splitlines s).
Proof.
  induction n as [|n IH]; intros [|c s] Hlen Hs; simpl in *;
    try (constructor || lia).
  apply Forall_cons in Hs as [Hc Hs].
  destruct (is_linebreak c).
  - constructor; [constructor|].
    destruct (c =? CR)%N; [|apply IH; [lia|done]].
    destruct s as [|c' s']; [constructor|].
    destruct (c' =? LF)%N; apply IH; simpl in *; try lia; try done.
    by apply Forall_cons in Hs as [_ Hs].
  - pose proof (IH s ltac:(lia) Hs) as H.
    destruct (splitlines s) as [|l ls]; [by repeat constructor|].
    apply Forall_cons in H as [Hl Hls]. by repeat constructor.
Qed.

Lemma rstrip_by_all p s : Forall (fun c => p c = true) s -> rstrip_by p s = [].
Proof.
  induction 1 as [|c s Hc Hs IH]; simpl; [done|]. by rewrite IH, Hc.
Qed.

Lemma collapse_blank lines :
  Forall (Forall (fun c => is_space c = true)) lines ->
  collapse true lines = []
  /\ join_lines (collapse false lines) = [].
Proof.
  induction 1 as [|l lines Hl Hls [IH1 IH2]]; simpl; [done|].
  unfold rstrip. rewrite (rstrip_by_all _ _ Hl). simpl. by rewrite IH1.
Qed.

(** X20. A text made of whitespace only, the empty text among them, is
    normalized to a single newline. *)
Theorem normalize_blank_text :
  forall t : text,
    Forall (fun c => is_space c = true) t ->
    _normalize_wod_text t = [LF].
Proof.
  intros t Ht. unfold _normalize_wod_text.
  pose proof (splitlines_chars_aux _ (length t) t ltac:(lia) Ht) as Hl.
  destruct (collapse_blank _ Hl) as [_ ->]. done.
Qed.

(** Spaces, a tabulator and blank lines. *)
Lemma normalize_blank_text_witness :
  _normalize_wod_text [32; 9; 10; 10; 32; 13; 10]%N = [LF].
Proof.
  exact (normalize_blank_text [32; 9; 10; 10; 32; 13; 10]%N
           ltac:(repeat constructor)).
Defined.

End FmtContent.

(** ** The command driver: the exit status of [lint] and [run] *)

Section DriverFacts.
Context {rt : PyFloat}.

Lemma segment_in_error_blank seg :
  segment_in_error (blank_segment seg) = segment_in_error seg.
Proof.
  destruct seg as [sts|sts|d|b|]; simpl; try done.
  destruct (b_head b); try done. f_equal.
  induction (b_stmts b) as [|[ln|slot ln f] sts IH]; simpl; [done|exact IH|done].
Qed.

Lemma existsb_map {A B : Type} (f : B -> bool) (g : A -> B) l :
  existsb f (map g l) = existsb (fun x => f (g x)) l.
Proof. induction l as [|x l IH]; simpl; [done|]. by rewrite IH. Qed.

(** Segments that differ in quantities, movements and loads only are in
    error together. *)
Lemma program_error_blank segs segs' :
  map blank_segment segs' = map blank_segment segs ->
  existsb segment_in_error segs' = existsb segment_in_error segs.
Proof.
  intros H.
  transitivity (existsb segment_in_error (map blank_segment segs')).
  - rewrite (existsb_map segment_in_error blank_segment segs').
    apply existsb_ext_in. intros x _. symmetry. apply segment_in_error_blank.
  - rewrite H, (existsb_map segment_in_error blank_segment segs).
    apply existsb_ext_in. intros x _. apply segment_in_error_blank.
Qed.

Lemma emom_slots_blank sts :
  map fst (emom_lines (map blank_stmt sts)) = map fst (emom_lines sts).
Proof.
  induction sts as [|[ln|slot ln f] sts IH]; simpl; [done|exact IH|].
  by rewrite <- IH.
Qed.

(** Blocks that differ in quantities, movements and loads only have
    their slots numbered together. *)
Lemma numbered_blank segs segs' :
  map blank_segment segs' = map blank_segment segs ->
  (forall b d, In (BLOCK b) segs -> b_head b = EMOM d ->
               exists N, slots_numbered (b_stmts b) N) ->
  forall b d, In (BLOCK b) segs' -> b_head b = EMOM d ->
              exists N, slots_numbered (b_stmts b) N.
Proof.
  intros Heq H b' d Hin Hh.
  assert (In (blank_segment (BLOCK b')) (map blank_segment segs)) as Hb.
  { rewrite <- Heq. by apply in_map. }
  apply in_map_iff in Hb as (seg & Hseg & Hin').
  destruct seg as [sts|sts|d'|b|]; try done. simpl in Hseg.
  injection Hseg as Hhead Hsts _ _ _ _.
  destruct (H b d Hin') as [N HN]; [congruence|].
  exists N. unfold slots_numbered in *.
  by rewrite <- emom_slots_blank, <- Hsts, emom_slots_blank.
Qed.

Variable parse_wod_text : string -> option ast.

(** [main] up to the dispatch on the subcommand, for a namespace that
    carries a profile. *)
Lemma main_resolved args p text a a' :
  args_profile args = Some p ->
  parse_wod_text text = Some a ->
  p_catalog p <> Some None ->
  _apply_catalog_and_resolve (p_catalog p ≫= id) (p_track p) (p_gender p) a
  = Some a' ->
  forall lint_has_error,
    main parse_wod_text lint_has_error args text
    = match args with
      | ns_parse _ _ => Exit 0
      | ns_lint _ => Exit (if lint_has_error a' then 1 else 0)
      | ns_run _ _ =>
          match build_timeline a' with
          | Some _ => Exit 0
          | None => Uncaught "KeyError"
          end
      | ns_export _ _ _ => Exit 0
      | ns_fmt _ _ =>
          match parse_wod_text text with
          | None => Exit 2
          | Some _ => Exit 0
          end
      end.
Proof.
  intros Hargs Hparse Hcat Hres lint_has_error. unfold main.
  rewrite Hparse, Hargs.
  destruct (p_catalog p) as [[c|]|] eqn:Ec; [|done|]; simpl in *;
    by rewrite Hres.
Qed.

(** X21. The exit status of [wodc2 lint]. When the file is parsed, the
    catalog (if any) is read and the resolver runs through, the command
    exits with status 1 if the program as parsed holds a REST of zero or
    negative duration or an EMOM block without slot-line, and with
    status 0 otherwise: warnings never change the status, and the
    resolver cannot add or remove an error. *)
Theorem lint_command_exit_status :
  forall (p : profile) (text : string) (a a' : ast),
    parse_wod_text text = Some a ->
    p_catalog p <> Some None ->
    _apply_catalog_and_resolve (p_catalog p ≫= id) (p_track p) (p_gender p) a
    = Some a' ->
    let o := main parse_wod_text lint_finds_error (ns_lint p) text in
    (program_in_error a /\ o = Exit 1)
    \/ (~ program_in_error a /\ o = Exit 0).
Proof.
  intros p text a a' Hparse Hcat Hres o. unfold o.
  rewrite (main_resolved (ns_lint p) p text a a' eq_refl Hparse Hcat Hres).
  unfold lint_finds_error. rewrite any_error_lint.
  unfold _apply_catalog_and_resolve in Hres.
  destruct (resolve_program _ _ _ (a_program a)) as [[prog ns]|] eqn:Hprog;
    simpl in Hres; [|done].
  injection Hres as <-. simpl.
  destruct (resolve_program_parts _ _ _ _ _ _ Hprog) as (Hframe & _).
  rewrite (program_error_blank _ _ Hframe).
  unfold program_in_error.
  destruct (existsb segment_in_error (a_program a)) eqn:E.
  - left. split; [|done]. by apply segment_in_error_iff.
  - right. split; [|done]. intros H. apply segment_in_error_iff in H.
    congruence.
Qed.

(** X22. The exit status of [wodc2 run]. When the file is parsed, the
    catalog (if any) is read and the resolver runs through, and the
    slot-lines of every EMOM block of the program as parsed are numbered
    1 to N, the command exits with status 0: the resolver keeps the
    numbering, so that no lookup of a slot fails. *)
Theorem run_command_exit_status :
  forall (lint_has_error : ast -> bool) (format : string) (p : profile)
         (text : string) (a a' : ast),
    parse_wod_text text = Some a ->
    p_catalog p <> Some None ->
    _apply_catalog_and_resolve (p_catalog p ≫= id) (p_track p) (p_gender p) a
    = Some a' ->
    emom_blocks_numbered a ->
    main parse_wod_text lint_has_error (ns_run format p) text = Exit 0.
Proof.
  intros lint_has_error format p text a a' Hparse Hcat Hres Hnum.
  rewrite (main_resolved (ns_run format p) p text a a' eq_refl Hparse Hcat
             Hres).
  unfold _apply_catalog_and_resolve in Hres.
  destruct (resolve_program _ _ _ (a_program a)) as [[prog ns]|] eqn:Hprog;
    simpl in Hres; [|done].
  injection Hres as <-.
  destruct (resolve_program_parts _ _ _ _ _ _ Hprog) as (Hframe & _).
  unfold build_timeline. simpl.
  destruct (timeline_from_numbered prog 0) as [[t e] ->]; [|done].
  by apply (numbered_blank (a_program a)).
Qed.

End DriverFacts.

(** [wodc2 lint] on the file [REST 0s] exits with status 1. *)
Lemma lint_command_exit_status_witness :
  program_in_error (rt := DecimalFloat.runtime) rest_zero
  /\ main (rt := DecimalFloat.runtime) (fun _ => Some rest_zero)
       lint_finds_error (ns_lint (Profile None "RX" "male")) "REST 0s"
     = Exit 1.
Proof.
  destruct (lint_command_exit_status (rt := DecimalFloat.runtime)
              (fun _ => Some rest_zero) (Profile None "RX" "male") "REST 0s"
              rest_zero _ eq_refl ltac:(discriminate) eq_refl)
    as [H|[_ H]]; [exact H|discriminate H].
Defined.

(** [wodc2 run] on the two-slot EMOM exits with status 0. *)
Lemma run_command_exit_status_witness :
  emom_blocks_numbered (rt := DecimalFloat.runtime) two_slot_emom
  /\ main (rt := DecimalFloat.runtime) (fun _ => Some two_slot_emom)
       lint_finds_error (ns_run "text" (Profile None "RX" "male")) ""
     = Exit 0.
Proof.
  assert (emom_blocks_numbered (rt := DecimalFloat.runtime) two_slot_emom)
    as Hnum.
  { intros b d [[= <-]|[]] _. exists 2%nat. apply Permutation_refl. }
  split; [exact Hnum|].
  exact (run_command_exit_status (rt := DecimalFloat.runtime)
           (fun _ => Some two_slot_emom) lint_finds_error "text"
           (Profile None "RX" "male") "" two_slot_emom _ eq_refl
           ltac:(discriminate) eq_refl Hnum).
Defined.
